(** * PaddleNLP: pipeline-parallel Llama stages and the bi-encoder pooling

    A shallow embedding of
      - [paddlenlp/transformers/llama/modeling_pp.py]  (module [LlamaPP])
      - [paddlenlp/transformers/llm_embed/modeling.py] (module [LlmEmbed])
    Tensors are mutable Python objects: they live in an explicit store and
    are passed around by reference, so that cloning, aliasing and the
    in-place [stop_gradient] assignment of the source are visible.  Python
    exceptions are values of [exn]; a function that can raise returns a
    sum. *)

From stdpp Require Import base option list strings pretty gmap fin_maps.
From Stdlib Require Import ZArith Lia.

Local Open Scope Z_scope.

(** ** Python exceptions *)

Inductive exn : Type :=
  | UnboundLocalError (var : string)
  | AssertionError (msg : string)
  | AttributeError (msg : string)
  | ValueError (msg : string)
  | NotImplementedError (msg : string)
  | KeyError (key : string)
  | IndexError (msg : string)
  | TypeError (msg : string)
  | ZeroDivisionError
  | DanglingReference.

Definition result (A : Type) : Type := exn + A.

Definition is_raise {A} (r : result A) : bool :=
  match r with inl _ => true | inr _ => false end.

Module LlamaPP.

(** ** Tensor objects and the object store *)

Inductive DType : Type :=
  | bool_ | int32 | int64 | float16 | bfloat16 | float32.

#[global] Instance DType_eq_dec : EqDecision DType.
Proof. solve_decision. Defined.

(** A paddle tensor, as far as this file looks at it: its element type, its
    shape, its contents and the [stop_gradient] attribute. *)
Record Tensor : Type := mkTensor {
  dtype : DType;
  shape : list Z;
  data : list Z;
  stop_gradient : bool
}.

Definition with_stop_gradient (b : bool) (t : Tensor) : Tensor :=
  mkTensor (dtype t) (shape t) (data t) b.

(** Two tensors hold the same value when element type, shape and contents
    agree; the autograd flag is not part of the value. *)
Definition same_value (t u : Tensor) : Prop :=
  dtype t = dtype u ∧ shape t = shape u ∧ data t = data u.

(** References are indices into the store; a fresh object is appended. *)
Abbreviation ref := nat (only parsing).
Abbreviation heap := (list Tensor) (only parsing).

(** A Python variable holding a tensor or [None]. *)
Abbreviation slot := (option nat) (only parsing).

(** What travels between two pipeline stages: a tuple of values, or one
    bare value. *)
Inductive envelope : Type :=
  | Tuple (items : list slot)
  | Bare (item : slot).

(** ** State and exception monad *)

Definition M (A : Type) : Type := heap → result (A * heap).

Definition ret {A} (a : A) : M A := λ h, inr (a, h).
Definition raise {A} (e : exn) : M A := λ _, inl e.
Definition bind {A B} (m : M A) (k : A → M B) : M B :=
  λ h, match m h with
       | inl e => inl e
       | inr (a, h') => k a h'
       end.

#[global] Instance M_ret : MRet M := @ret.
#[global] Instance M_bind : MBind M := λ A B k m, bind m k.

(** [x.stop_gradient = True] on the object [r] refers to. *)
Definition set_stop_gradient (r : ref) : M unit :=
  λ h, inr (tt, alter (with_stop_gradient true) r h).

(** [if x is not None: x.stop_gradient = True] *)
Definition mark (x : slot) : M unit :=
  match x with
  | Some r => set_stop_gradient r
  | None => ret tt
  end.

(** [x.clone()]: a new tensor object with the contents of [x]. *)
Definition clone (r : ref) : M ref :=
  λ h, match h !! r with
       | Some t => inr (length h, h ++ [t])
       | None => inl DanglingReference
       end.

(** Allocation of the tensor an external operator returns. *)
Definition alloc (t : Tensor) : M ref :=
  λ h, inr (length h, h ++ [t]).

(** Reading an attribute of [x]; on [None] Python raises AttributeError. *)
Definition deref (x : slot) (attr : string) : M Tensor :=
  λ h, match x with
       | None => inl (AttributeError
                        ("'NoneType' object has no attribute '" +:+ attr +:+ "'"))
       | Some r => match h !! r with
                   | Some t => inr (t, h)
                   | None => inl DanglingReference
                   end
       end.

(** ** The argument envelope: [parse_args] and [return_args] *)

Definition slots : Type := (slot * slot * slot * slot * slot)%type.

(** [parse_args]: the five locals are bound by the length of the tuple; a
    tuple of any other length binds none of them and the first read,
    [position_ids], raises UnboundLocalError. *)
Definition parse_args (args : envelope) : M slots :=
  '(hidden_states, attention_mask, attn_mask_startend_row_indices, position_ids, alibi) ←
    match args with
    | Tuple [a; b; c; d; e] => ret (a, b, c, d, e)
    | Tuple [a; b; c; d] => ret (a, b, c, d, None)
    | Tuple [a; b; c] => ret (a, b, c, None, None)
    | Tuple [a; b] => ret (a, b, None, None, None)
    | Tuple _ => raise (UnboundLocalError "position_ids")
    | Bare a => ret (a, None, None, None, None)
    end;
  mark position_ids;;
  mark attention_mask;;
  mark attn_mask_startend_row_indices;;
  mark alibi;;
  ret (hidden_states, attention_mask, attn_mask_startend_row_indices, position_ids, alibi).

(** [ret += (x.clone(),)] when [x is not None]. *)
Definition append_clone (r : list slot) (x : slot) : M (list slot) :=
  match x with
  | Some l => c ← clone l; ret (r ++ [Some c])
  | None => ret r
  end.

(** [if len(ret) == 1: ret = ret[0]] *)
Definition unwrap_single (r : list slot) : envelope :=
  match r with
  | [x] => Bare x
  | _ => Tuple r
  end.

Definition return_args (hidden_states attention_mask attn_mask_startend_row_indices
                          position_ids alibi : slot) : M envelope :=
  r ← ret [hidden_states];
  r ← append_clone r attention_mask;
  r ← append_clone r attn_mask_startend_row_indices;
  r ← append_clone r position_ids;
  r ← append_clone r alibi;
  ret (unwrap_single r).

(** ** Configuration and external collaborators *)

(** The fields of [LlamaConfig] this file reads. *)
Record LlamaConfig : Type := mkConfig {
  config_alibi : bool;
  sequence_parallel : bool;
  tensor_parallel_degree : Z;
  tensor_parallel_rank : Z;
  num_attention_heads : Z;
  num_hidden_layers : Z;
  recompute_granularity : string;
  recompute_use_reentrant : bool;
  no_recompute_layers : option (list Z);
  pp_recompute_interval : Z;
  virtual_pp_degree : option Z;
  tie_word_embeddings : bool;
  dpo_config : bool
}.

(** Operators and services defined outside this file: the device query, the
    tensor kernels and the helpers imported from [.modeling] and
    [refined_recompute].  Each kernel may raise. *)
Record External : Type := mkExternal {
  get_env_device : string;
  embed_tokens : Tensor → result Tensor;
  sequence_parallel_scatter : Tensor → result Tensor;
  build_alibi_tensor : Tensor → Z → DType → result Tensor;
  slice_heads : Tensor → Z → Z → result Tensor;
  reshape : Tensor → list Z → result Tensor;
  _prepare_decoder_attention_mask : option Tensor → Z * Z → Z → DType → result Tensor;
  astype : Tensor → DType → result Tensor;
  tril : Tensor → result Tensor;
  decoder_layer_forward : heap → slot → list (string * slot) → result Tensor;
  rms_norm : Tensor → result Tensor;
  get_skip_recompute_ops : LlamaConfig → Z → list (string * bool)
}.

Definition lift {A} (r : result A) : M A :=
  λ h, match r with inl e => inl e | inr a => inr (a, h) end.

Definition get_heap : M heap := λ h, inr (h, h).

(** [assert c, msg] *)
Definition assert (c : bool) (msg : string) : M unit :=
  if c then ret tt else raise (AssertionError msg).

(** [paddle.ones(shape, dtype)] *)
Definition ones (shp : list Z) (d : DType) : Tensor :=
  mkTensor d shp (replicate (Z.to_nat (foldr Z.mul 1 shp)) 1) true.

Definition is_none (x : slot) : bool :=
  match x with None => true | Some _ => false end.
Definition is_not_none (x : slot) : bool := negb (is_none x).

(** [x is not None and x.dtype == d] *)
Definition has_dtype (h : heap) (x : slot) (d : DType) : bool :=
  match x with
  | Some r => match h !! r with
              | Some t => bool_decide (dtype t = d)
              | None => false
              end
  | None => false
  end.

(** ** The mask resolver

    The chain of [if]/[elif] that follows [parse_args] in
    [LlamaEmbeddingPipe.forward] and, with the same text, in
    [LlamaDecoderLayerPipe.forward].  It returns the new bindings of
    [attention_mask], [attn_mask_startend_row_indices], [position_ids] and
    [alibi]. *)
Definition resolve_masks (alibi_variant : bool) (device : string) (h : heap)
    (attention_mask attn_mask_startend_row_indices position_ids alibi : slot)
  : slot * slot * slot * slot :=
  if alibi_variant && is_none alibi && is_none position_ids
     && is_not_none attn_mask_startend_row_indices then
    (attention_mask, None, None, attn_mask_startend_row_indices)
  else if alibi_variant && is_none alibi && is_not_none position_ids
          && is_not_none attn_mask_startend_row_indices then
    (attention_mask, None, attn_mask_startend_row_indices, position_ids)
  else if negb alibi_variant then
    if bool_decide (device ∈ ["gpu"]) then
      if has_dtype h attention_mask int32 then
        (None, attention_mask, attn_mask_startend_row_indices, alibi)
      else if has_dtype h attention_mask int64 then
        (None, None, attention_mask, alibi)
      else if has_dtype h attn_mask_startend_row_indices int64 then
        (attention_mask, None, attn_mask_startend_row_indices, alibi)
      else
        (attention_mask, attn_mask_startend_row_indices, position_ids, alibi)
    else if is_none position_ids && is_not_none attn_mask_startend_row_indices then
      (attention_mask, None, attn_mask_startend_row_indices, alibi)
    else
      (attention_mask, attn_mask_startend_row_indices, position_ids, alibi)
  else
    (attention_mask, attn_mask_startend_row_indices, position_ids, alibi).

(** ** [LlamaDecoderLayerPipe] *)

Record LlamaDecoderLayerPipe : Type := mkDecoderLayer {
  layer_config : LlamaConfig;
  enable_recompute : bool;
  layerwise_recompute : bool;
  skip_recompute_ops : list (string * bool)
}.

Inductive recompute_fn : Type := rr_recompute | recompute.

(** How [forward] invokes the inherited layer: through a recompute wrapper,
    or directly, each time with the keyword arguments it passes. *)
Inductive layer_call : Type :=
  | Recomputed (fn : recompute_fn) (hidden_states : slot)
               (kwargs : list (string * slot)) (use_reentrant : bool)
  | Direct (hidden_states : slot) (kwargs : list (string * slot)).

(** The condition of the [if] at the head of the recompute block. *)
Definition should_recompute (self : LlamaDecoderLayerPipe) (has_gradient : bool) : bool :=
  enable_recompute self
  && layerwise_recompute self
  && bool_decide (recompute_granularity (layer_config self) = "full")
  && has_gradient.

Definition select_call (self : LlamaDecoderLayerPipe) (has_gradient : bool)
    (hidden_states attention_mask attn_mask_startend_row_indices position_ids alibi : slot)
  : layer_call :=
  if should_recompute self has_gradient then
    let fn := if existsb snd (skip_recompute_ops self) then rr_recompute else recompute in
    if is_not_none attention_mask || is_not_none alibi
       || is_not_none attn_mask_startend_row_indices then
      Recomputed fn hidden_states
        [("position_ids", position_ids);
         ("attention_mask", attention_mask);
         ("alibi", alibi);
         ("attn_mask_startend_row_indices", attn_mask_startend_row_indices)]
        false
    else
      Recomputed fn hidden_states
        [("position_ids", position_ids);
         ("attn_mask_startend_row_indices", attn_mask_startend_row_indices)]
        (recompute_use_reentrant (layer_config self))
  else
    Direct hidden_states
      [("position_ids", position_ids);
       ("attention_mask", attention_mask);
       ("alibi", alibi);
       ("attn_mask_startend_row_indices", attn_mask_startend_row_indices)].

(** A recompute wrapper returns what the wrapped forward returns; it
    differs in what is kept for the backward pass. *)
Definition run_call (ext : External) (c : layer_call) : M slot :=
  h ← get_heap;
  t ← lift (match c with
            | Recomputed _ x kw _ => decoder_layer_forward ext h x kw
            | Direct x kw => decoder_layer_forward ext h x kw
            end);
  r ← alloc t;
  ret (Some r).

Definition LlamaDecoderLayerPipe_forward (ext : External)
    (self : LlamaDecoderLayerPipe) (args : envelope) : M envelope :=
  '(hidden_states, attention_mask, attn_mask_startend_row_indices, position_ids, alibi) ←
    parse_args args;
  h ← get_heap;
  let '(attention_mask, attn_mask_startend_row_indices, position_ids, alibi) :=
    resolve_masks (config_alibi (layer_config self)) (get_env_device ext) h
      attention_mask attn_mask_startend_row_indices position_ids alibi in
  hs ← deref hidden_states "stop_gradient";
  let has_gradient := negb (stop_gradient hs) in
  hidden_states ← run_call ext
    (select_call self has_gradient hidden_states attention_mask
       attn_mask_startend_row_indices position_ids alibi);
  return_args hidden_states attention_mask attn_mask_startend_row_indices position_ids alibi.

(** ** [LlamaEmbeddingPipe] *)

Record LlamaEmbeddingPipe : Type := mkEmbeddingPipe {
  embedding_config : LlamaConfig
}.

Definition msg_alibi_rows : string :=
  "alibi and attn_mask_startend_row_indices can not be set at same time".
Definition msg_mask_rows : string :=
  "attention_mask and attn_mask_startend_row_indices can not be set at same time".

(** [batch_size, seq_length = input_ids.shape] *)
Definition unpack_shape (t : Tensor) : M (Z * Z) :=
  match shape t with
  | [b; s] => ret (b, s)
  | [] | [_] => raise (ValueError "not enough values to unpack (expected 2)")
  | _ => raise (ValueError "too many values to unpack (expected 2)")
  end.

(** The block under [if self.config.alibi:]; it yields the new [alibi]. *)
Definition embedding_alibi (ext : External) (config : LlamaConfig)
    (attention_mask attn_mask_startend_row_indices : slot)
    (batch_size seq_length : Z) (embeds_dtype : DType) : M slot :=
  assert (is_none attn_mask_startend_row_indices) msg_alibi_rows;;
  mask ← match attention_mask with
         | Some _ => deref attention_mask "dtype"
         | None => ret (ones [batch_size; seq_length] bool_)
         end;
  a ← lift (build_alibi_tensor ext mask (num_attention_heads config) embeds_dtype);
  a ← (if bool_decide (tensor_parallel_degree config > 1) then
         let block_size := num_attention_heads config `div` tensor_parallel_degree config in
         a ← lift (slice_heads ext a (tensor_parallel_rank config * block_size)
                     ((tensor_parallel_rank config + 1) * block_size));
         lift (reshape ext a [batch_size * block_size; 1; seq_length])
       else
         lift (reshape ext a [batch_size * num_attention_heads config; 1; seq_length]));
  r ← alloc (with_stop_gradient true a);
  ret (Some r).

(** The [if attention_mask is not None: ... elif get_env_device() == "npu":]
    block; it yields the new [attention_mask]. *)
Definition embedding_attention_mask (ext : External)
    (attention_mask attn_mask_startend_row_indices : slot)
    (batch_size seq_length : Z) (embeds_dtype : DType) : M slot :=
  match attention_mask with
  | Some _ =>
      assert (is_none attn_mask_startend_row_indices) msg_mask_rows;;
      t ← deref attention_mask "dtype";
      m ← lift (_prepare_decoder_attention_mask ext (Some t)
                  (batch_size, seq_length) 0 embeds_dtype);
      let m := with_stop_gradient true m in
      m ← (if bool_decide (get_env_device ext = "npu")
           then lift (astype ext m bool_) else ret m);
      r ← alloc m;
      ret (Some r)
  | None =>
      if bool_decide (get_env_device ext = "npu") then
        m ← lift (tril ext (ones [seq_length; seq_length] bool_));
        r ← alloc (with_stop_gradient true m);
        ret (Some r)
      else ret None
  end.

Definition LlamaEmbeddingPipe_forward (ext : External)
    (self : LlamaEmbeddingPipe) (args : envelope) : M envelope :=
  let config := embedding_config self in
  '(input_ids, attention_mask, attn_mask_startend_row_indices, position_ids, alibi) ←
    parse_args args;
  h ← get_heap;
  let '(attention_mask, attn_mask_startend_row_indices, position_ids, alibi) :=
    resolve_masks (config_alibi config) (get_env_device ext) h
      attention_mask attn_mask_startend_row_indices position_ids alibi in
  ids ← match input_ids with
        | Some _ => deref input_ids "shape"
        | None => raise (TypeError "embedding of None")
        end;
  input_embeds ← lift (embed_tokens ext ids);
  input_embeds ← (if sequence_parallel config
                  then lift (sequence_parallel_scatter ext input_embeds)
                  else ret input_embeds);
  '(batch_size, seq_length) ← unpack_shape ids;
  alibi ← (if config_alibi config
           then embedding_alibi ext config attention_mask attn_mask_startend_row_indices
                  batch_size seq_length (dtype input_embeds)
           else ret None);
  attention_mask ← embedding_attention_mask ext attention_mask
                     attn_mask_startend_row_indices batch_size seq_length
                     (dtype input_embeds);
  attention_mask ← (if config_alibi config && is_none attention_mask then
                      m ← lift (_prepare_decoder_attention_mask ext None
                                  (batch_size, seq_length) 0 (dtype input_embeds));
                      r ← alloc (with_stop_gradient true m);
                      ret (Some r)
                    else ret attention_mask);
  e ← alloc input_embeds;
  return_args (Some e) attention_mask attn_mask_startend_row_indices position_ids alibi.

(** ** [LlamaRMSNormPipe] *)

Definition LlamaRMSNormPipe_forward (ext : External) (args : envelope) : M slot :=
  '(hidden_states, _, _, _, _) ← parse_args args;
  hs ← match hidden_states with
       | Some _ => deref hidden_states "shape"
       | None => raise (TypeError "norm of None")
       end;
  t ← lift (rms_norm ext hs);
  r ← alloc t;
  ret (Some r).

(** ** [LlamaForCausalLMPipe.__init__]: the layer catalogue and the
    segmentation method *)

Inductive layer_class : Type :=
  | LlamaEmbeddingPipe_class
  | LlamaDecoderLayerPipe_class
  | LlamaRMSNormPipe_class
  | LlamaLMHeadPipe_class.

(** Keyword arguments of a descriptor besides [config]. *)
Inductive desc_kwargs : Type :=
  | NoKwargs
  | DecoderKwargs (layerwise_recompute : bool) (skip_recompute_ops : list (string * bool))
  | HeadKwargs (transpose_y : bool).

Inductive layer_desc : Type :=
  | SharedLayerDesc (key : string) (layer_func : layer_class)
                    (shared_weight_attr : string) (config : LlamaConfig) (kw : desc_kwargs)
  | LayerDesc (layer_func : layer_class) (config : LlamaConfig) (kw : desc_kwargs).

(** The answers of [fleet.get_hybrid_communicate_group()] that are used. *)
Record HybridCommunicateGroup : Type := mkHcg {
  model_parallel_world_size : Z;
  model_parallel_rank : Z;
  pipe_dim_size : Z
}.

Inductive loss_fn : Type := DPOCriterion_loss | LlamaPretrainingCriterion_loss.

Definition get_loss_fn (config : LlamaConfig) : loss_fn :=
  if dpo_config config then DPOCriterion_loss else LlamaPretrainingCriterion_loss.

(** What [__init__] hands to [PipelineLayer.__init__]. *)
Record PipelineLayerArgs : Type := mkPipelineLayerArgs {
  layers : list (layer_desc * string);
  pipeline_loss_fn : loss_fn;
  seg_method : string;
  recompute_interval : Z;
  num_virtual_pipeline_stages : Z
}.

Definition with_tensor_parallel (config : LlamaConfig) (degree rank : Z) : LlamaConfig :=
  mkConfig (config_alibi config) (sequence_parallel config) degree rank
    (num_attention_heads config) (num_hidden_layers config)
    (recompute_granularity config) (recompute_use_reentrant config)
    (no_recompute_layers config) (pp_recompute_interval config)
    (virtual_pp_degree config) (tie_word_embeddings config) (dpo_config config).

(** [self.no_recompute_layers] *)
Definition excluded_layers (config : LlamaConfig) : list Z :=
  match no_recompute_layers config with
  | Some l => l
  | None => []
  end.

(** The descriptor added for decoder layer [i]. *)
Definition decoder_desc (ext : External) (config : LlamaConfig) (i : Z)
  : layer_desc * string :=
  (LayerDesc LlamaDecoderLayerPipe_class config
     (DecoderKwargs (bool_decide (i ∉ excluded_layers config))
                    (get_skip_recompute_ops ext config i)),
   "llama.layers." +:+ pretty i).

(** [num_hidden_layers % pipe != 0] chooses the segmentation; Python's [%]
    raises on a zero divisor. *)
Definition choose_seg_method (num_layers pipe : Z) : result string :=
  if bool_decide (pipe = 0) then inl ZeroDivisionError
  else if bool_decide (num_layers `mod` pipe ≠ 0) then inr "uniform"
  else inr "layer:LlamaDecoderLayer".

Definition LlamaForCausalLMPipe_init (ext : External) (hcg : HybridCommunicateGroup)
    (config : LlamaConfig) : result PipelineLayerArgs :=
  let virtual_pp := default 1 (virtual_pp_degree config) in
  let config := with_tensor_parallel config
                  (Z.max (model_parallel_world_size hcg) 1)
                  (Z.max (model_parallel_rank hcg) 0) in
  let first :=
    if tie_word_embeddings config then
      (SharedLayerDesc "llama_shared_weight" LlamaEmbeddingPipe_class
         "embedding_weight" config NoKwargs, "llama")
    else (LayerDesc LlamaEmbeddingPipe_class config NoKwargs, "llama") in
  let decoders := decoder_desc ext config <$> seqZ 0 (num_hidden_layers config) in
  let norm := (LayerDesc LlamaRMSNormPipe_class config NoKwargs, "llama") in
  let head :=
    if tie_word_embeddings config then
      (SharedLayerDesc "llama_shared_weight" LlamaLMHeadPipe_class
         "embedding_weight" config (HeadKwargs true), "lm_head")
    else (LayerDesc LlamaLMHeadPipe_class config NoKwargs, "lm_head") in
  match choose_seg_method (num_hidden_layers config) (pipe_dim_size hcg) with
  | inl e => inl e
  | inr seg =>
      inr (mkPipelineLayerArgs ([first] ++ decoders ++ [norm; head])
             (get_loss_fn config) seg 0 virtual_pp)
  end.

(** The decoder layer object a descriptor builds.  The constructor is
    inherited from [LlamaDecoderLayer], which stores its keyword arguments;
    [enable_recompute] is not assigned anywhere in this file and is whatever
    the surrounding trainer has set on the layer. *)
Definition instantiate_decoder (d : layer_desc) (enable : bool)
  : option LlamaDecoderLayerPipe :=
  match d with
  | LayerDesc LlamaDecoderLayerPipe_class config (DecoderKwargs lr ops) =>
      Some (mkDecoderLayer config enable lr ops)
  | _ => None
  end.

(** ** [_prepare_pipeline_inputs_func]: splitting a batch between the first
    and the last stage *)

(** Field values of a raw example. *)
#[warnings="-register-all"]
Inductive pyobj : Type :=
  | PyNone
  | PyInt (z : Z)
  | PyList (items : list pyobj)
  | PyTuple (items : list pyobj).

Definition first_stage_keys : list string :=
  ["input_ids"; "attention_mask"; "attn_mask_startend_row_indices"; "position_ids"].
Definition last_stage_keys : list string := ["labels"].

(** [[inputs.pop(k) if k in inputs else None for k in keys]], left to
    right, with the dictionary as it is after the pops. *)
Fixpoint pop_keys (inputs : gmap string pyobj) (keys : list string)
  : list pyobj * gmap string pyobj :=
  match keys with
  | [] => ([], inputs)
  | k :: ks =>
      match inputs !! k with
      | Some v => let '(vs, d) := pop_keys (delete k inputs) ks in (v :: vs, d)
      | None => let '(vs, d) := pop_keys inputs ks in (PyNone :: vs, d)
      end
  end.

Definition get_expected_keys (inputs : gmap string pyobj) (keys : list string)
  : pyobj * gmap string pyobj :=
  let '(vs, d) := pop_keys inputs keys in
  (match vs with [x] => x | _ => PyTuple vs end, d).

(** [[data.pop(key) for data in inputs]]; [pop] without default raises
    KeyError. *)
Fixpoint pop_column (key : string) (inputs : list (gmap string pyobj))
  : result (list pyobj * list (gmap string pyobj)) :=
  match inputs with
  | [] => inr ([], [])
  | data :: rest =>
      match data !! key with
      | None => inl (KeyError key)
      | Some v =>
          match pop_column key rest with
          | inl e => inl e
          | inr (vs, ds) => inr (v :: vs, delete key data :: ds)
          end
      end
  end.

(** [{key: [...] for key in keys}] *)
Fixpoint transpose_batch (keys : list string) (inputs : list (gmap string pyobj))
  : result (gmap string pyobj * list (gmap string pyobj)) :=
  match keys with
  | [] => inr (∅, inputs)
  | k :: ks =>
      match pop_column k inputs with
      | inl e => inl e
      | inr (col, inputs) =>
          match transpose_batch ks inputs with
          | inl e => inl e
          | inr (batch, inputs) => inr (<[k := PyList col]> batch, inputs)
          end
      end
  end.

(** The argument is one mapping or a sequence of mappings; the result is
    the two-element list the source returns. *)
Definition _prepare_pipeline_inputs_func
    (inputs : gmap string pyobj + list (gmap string pyobj)) : result (list pyobj) :=
  match inputs with
  | inl inputs =>
      let '(first, inputs) := get_expected_keys inputs first_stage_keys in
      let '(last, _) := get_expected_keys inputs last_stage_keys in
      inr [first; last]
  | inr [] => inl (IndexError "list index out of range")
  | inr ((d0 :: _) as inputs) =>
      let keys := (map_to_list d0).*1 in
      match transpose_batch keys inputs with
      | inl e => inl e
      | inr (inputs_batch, _) =>
          let '(first, inputs_batch) := get_expected_keys inputs_batch first_stage_keys in
          let '(last, _) := get_expected_keys inputs_batch last_stage_keys in
          inr [first; last]
      end
  end.

(** The mapping of the specification's example. *)
Definition example_batch : gmap string pyobj :=
  <["input_ids" := PyList [PyInt 1; PyInt 2; PyInt 3]]>
  (<["attention_mask" := PyList [PyInt 1; PyInt 1; PyInt 1]]>
  (<["labels" := PyList [PyInt 4]]> ∅)).

(** ** The sequence case over dict objects

    [data.pop(key)] changes the dict object [data], and a sequence may hold
    one object at several positions.  The functions above take the examples
    of a sequence as values, which is what they are as long as no object
    occurs twice.  Here the examples are objects of a store, each a list of
    bindings in insertion order, and the batch is a list of references. *)
Module DictObjects.

Abbreviation dict := (list (string * pyobj)) (only parsing).

(** [d.get(key)] *)
Fixpoint dict_get (key : string) (d : dict) : option pyobj :=
  match d with
  | [] => None
  | (k, v) :: d => if decide (k = key) then Some v else dict_get key d
  end.

(** [del d[key]] *)
Fixpoint dict_remove (key : string) (d : dict) : dict :=
  match d with
  | [] => []
  | (k, v) :: d => if decide (k = key) then d else (k, v) :: dict_remove key d
  end.

(** [list(d.keys())]: the keys in insertion order. *)
Definition dict_keys (d : dict) : list string := d.*1.

(** [data.pop(key)] on the object [r] refers to; without a default it
    raises KeyError on a missing key. *)
Definition dict_pop (key : string) (r : nat) (store : list dict)
  : result (pyobj * list dict) :=
  match store !! r with
  | None => inl DanglingReference
  | Some d =>
      match dict_get key d with
      | None => inl (KeyError key)
      | Some v => inr (v, <[r := dict_remove key d]> store)
      end
  end.

(** [[data.pop(key) for data in inputs]] *)
Fixpoint pop_column (key : string) (inputs : list nat) (store : list dict)
  : result (list pyobj * list dict) :=
  match inputs with
  | [] => inr ([], store)
  | r :: rest =>
      match dict_pop key r store with
      | inl e => inl e
      | inr (v, store) =>
          match pop_column key rest store with
          | inl e => inl e
          | inr (vs, store) => inr (v :: vs, store)
          end
      end
  end.

(** [{key: [...] for key in keys}], the new dict being filled key by key. *)
Fixpoint transpose_batch (keys : list string) (inputs : list nat)
    (store : list dict) (batch : gmap string pyobj)
  : result (gmap string pyobj * list dict) :=
  match keys with
  | [] => inr (batch, store)
  | k :: ks =>
      match pop_column k inputs store with
      | inl e => inl e
      | inr (col, store) => transpose_batch ks inputs store (<[k := PyList col]> batch)
      end
  end.

(** The lines after the [if type(inputs) is dict ...] block; the result
    comes with the store of examples as the call leaves it. *)
Definition _prepare_pipeline_inputs_func (inputs : list nat) (store : list dict)
  : result (list pyobj * list dict) :=
  match inputs with
  | [] => inl (IndexError "list index out of range")
  | r0 :: _ =>
      match store !! r0 with
      | None => inl DanglingReference
      | Some d0 =>
          match transpose_batch (dict_keys d0) inputs store ∅ with
          | inl e => inl e
          | inr (inputs_batch, store) =>
              let '(first, inputs_batch) := get_expected_keys inputs_batch first_stage_keys in
              let '(last, _) := get_expected_keys inputs_batch last_stage_keys in
              inr ([first; last], store)
          end
      end
  end.

End DictObjects.

End LlamaPP.

Module LlmEmbed.

(** ** Tensors of the bi-encoder

    A hidden state is indexed [batch][token][feature], an attention mask
    [batch][token].  Feature values are scalars of an abstract type: the
    source computes in floating point, and this file fixes only which
    operator is applied where. *)

Record Scalar : Type := mkScalar {
  F : Type;
  zero : F;
  add : F → F → F;
  mul : F → F → F;
  div : F → F → F;
  (** [.float()] on an integer mask entry *)
  float : Z → F;
  (** product and quotient of a feature value with an integer entry that was
      not converted beforehand *)
  mul_int : F → Z → F;
  div_int : F → Z → F
}.

(** Integers as scalars, for running the pooling on small examples. *)
Definition Z_scalar : Scalar :=
  mkScalar Z 0 Z.add Z.mul Z.div (λ z, z) Z.mul Z.div.

Fixpoint try_map {A B} (f : A → result B) (l : list A) : result (list B) :=
  match l with
  | [] => inr []
  | x :: xs =>
      match f x with
      | inl e => inl e
      | inr y => match try_map f xs with
                 | inl e => inl e
                 | inr ys => inr (y :: ys)
                 end
      end
  end.

(** [l[i]] with Python's negative indices. *)
Definition py_index {A} (l : list A) (i : Z) : result A :=
  let n := Z.of_nat (length l) in
  let j := if bool_decide (i < 0) then i + n else i in
  if bool_decide (0 ≤ j < n) then
    match l !! Z.to_nat j with
    | Some x => inr x
    | None => inl (IndexError "index out of range")
    end
  else inl (IndexError "index out of range").

(** Pairing the entries of two tensors along one axis; the source relies on
    the two extents being equal, and the operators raise when they are not. *)
Definition zip_axis {A B} (xs : list A) (ys : list B) : result (list (A * B)) :=
  if bool_decide (length xs = length ys) then inr (zip xs ys)
  else inl (ValueError "shapes do not match").

Section Pooling.

Variable K : Scalar.

Definition hidden := list (list (list (F K))).
Definition mask := list (list Z).
Definition embedding := list (list (F K)).

Record Tokenizer : Type := mkTokenizer { padding_side : string }.

Record BiEncoderModel : Type := mkBiEncoder {
  sentence_pooling_method : string;
  tokenizer : option Tokenizer;
  eval_batch_size : Z;
  hidden_size : nat
}.

(** [x.sum(axis=1)] of per-token feature rows *)
Definition sum_tokens (H : nat) (rows : list (list (F K))) : list (F K) :=
  foldr (zip_with (add K)) (replicate H (zero K)) rows.

(** [mask.sum(axis=1)] *)
Definition mask_sum (m : list Z) : Z := foldr Z.add 0 m.

(** [hidden_state[:, k]] *)
Definition select_token (hs : hidden) (k : Z) : result embedding :=
  try_map (λ row, py_index row k) hs.

(** [hidden_state[paddle.arange(hidden_state.shape[0]), last_token_indices]]
    with [last_token_indices = mask.sum(axis=1) - 1] *)
Definition select_last_by_mask (hs : hidden) (m : mask) : result embedding :=
  match zip_axis hs m with
  | inl e => inl e
  | inr rows => try_map (λ '(row, mrow), py_index row (mask_sum mrow - 1)) rows
  end.

(** One batch row of the mean pooling of [sentence_embedding]:
    [s = sum(hidden_state * mask.unsqueeze(-1).float(), axis=1)],
    [d = mask.sum(axis=1, keepdim=True).float()], [s / d]. *)
Definition mean_row_float (H : nat) (row : list (list (F K))) (mrow : list Z)
  : result (list (F K)) :=
  match zip_axis row mrow with
  | inl e => inl e
  | inr toks =>
      let s := sum_tokens H ((λ vw : list (F K) * Z, (λ x, mul K x (float K vw.2)) <$> vw.1) <$> toks) in
      let d := float K (mask_sum mrow) in
      inr ((λ x, div K x d) <$> s)
  end.

(** One batch row of the mean pooling of [encode_sentences]: the same
    expression without the two [.float()] conversions. *)
Definition mean_row_promoted (H : nat) (row : list (list (F K))) (mrow : list Z)
  : result (list (F K)) :=
  match zip_axis row mrow with
  | inl e => inl e
  | inr toks =>
      let s := sum_tokens H ((λ vw : list (F K) * Z, (λ x, mul_int K x vw.2) <$> vw.1) <$> toks) in
      let d := mask_sum mrow in
      inr ((λ x, div_int K x d) <$> s)
  end.

(** ** [BiEncoderModel.sentence_embedding] *)
Definition sentence_embedding (self : BiEncoderModel) (hidden_state : hidden)
    (m : mask) : result embedding :=
  let method := sentence_pooling_method self in
  if bool_decide (method = "mean") then
    match zip_axis hidden_state m with
    | inl e => inl e
    | inr rows =>
        try_map (λ '(row, mrow), mean_row_float (hidden_size self) row mrow) rows
    end
  else if bool_decide (method = "cls") then
    select_token hidden_state 0
  else if bool_decide (method = "last") then
    select_last_by_mask hidden_state m
  else
    inl (ValueError ("Invalid sentence pooling method: " +:+ method)).

(** ** The pooling inside the loop of [BiEncoderModel.encode_sentences] *)

(** [self.pooling_method]: no such attribute is ever set on the object. *)
Definition no_pooling_method_attribute : exn :=
  AttributeError "'BiEncoderModel' object has no attribute 'pooling_method'".

Definition encode_sentences_pooling (self : BiEncoderModel) (tok : Tokenizer)
    (last_hidden_state : hidden) (attention_mask : mask) : result embedding :=
  let method := sentence_pooling_method self in
  if bool_decide (method = "last") then
    if bool_decide (padding_side tok = "right") then
      select_last_by_mask last_hidden_state attention_mask
    else if bool_decide (padding_side tok = "left") then
      select_token last_hidden_state (-1)
    else
      inl (NotImplementedError ("Padding side " +:+ padding_side tok +:+ " not supported."))
  else if bool_decide (method = "cls") then
    select_token last_hidden_state 1
  else if bool_decide (method = "mean") then
    match zip_axis last_hidden_state attention_mask with
    | inl e => inl e
    | inr rows =>
        try_map (λ '(row, mrow), mean_row_promoted (hidden_size self) row mrow) rows
    end
  else
    inl no_pooling_method_attribute.

(** ** [BiEncoderModel.encode_sentences] *)

(** [sentences[start : start + n]] for [start] in [range(0, len, n)] *)
Fixpoint batches {A} (fuel n : nat) (l : list A) : list (list A) :=
  match fuel, l with
  | O, _ | _, [] => []
  | S fuel, _ => take n l :: batches fuel n (drop n l)
  end.

(** The tokenizer call followed by the model call, up to
    [outputs.hidden_states[-1]], and the final normalisation, are external. *)
Variable run_model : list string → result (hidden * mask).
Variable normalize : embedding → embedding.

Definition encode_batch (self : BiEncoderModel) (tok : Tokenizer)
    (sentences_batch : list string) : result embedding :=
  match run_model sentences_batch with
  | inl e => inl e
  | inr (last_hidden_state, attention_mask) =>
      match encode_sentences_pooling self tok last_hidden_state attention_mask with
      | inl e => inl e
      | inr embeddings => inr (normalize embeddings)
      end
  end.

Definition encode_sentences (self : BiEncoderModel) (sentences : list string)
  : result embedding :=
  if bool_decide (eval_batch_size self = 0) then
    inl (ValueError "range() arg 3 must not be zero")
  else
    let chunks :=
      if bool_decide (eval_batch_size self < 0) then []
      else batches (length sentences) (Z.to_nat (eval_batch_size self)) sentences in
    match chunks with
    | [] => inl (ValueError "need at least one array to concatenate")
    | _ =>
        match tokenizer self with
        | None => inl (TypeError "'NoneType' object is not callable")
        | Some tok =>
            match try_map (encode_batch self tok) chunks with
            | inl e => inl e
            | inr all_embeddings => inr (concat all_embeddings)
            end
        end
    end.

End Pooling.

End LlmEmbed.

(** * [get_attr]: looking an attribute up through wrappers

    [get_attr(layer, name)] returns [getattr(layer, name, None)] unless that
    is [None], and otherwise asks [layer._layer].  A layer is modelled with
    its class name, its attributes other than [_layer] (an attribute may be
    set to [None]) and its [_layer] attribute, which may be missing, [None]
    or another layer. *)

Module GetAttr.

Section GetAttr.

(** Attribute values other than layers. *)
Variable V : Type.

#[warnings="-register-all"]
Inductive layer : Type :=
  | Layer (class_name : string) (attrs : list (string * option V))
          (_layer : option (option layer)).

Inductive pyval : Type :=
  | Val (v : V)
  | Obj (l : layer).

Definition class_name (l : layer) : string :=
  match l with Layer c _ _ => c end.
Definition attrs (l : layer) : list (string * option V) :=
  match l with Layer _ a _ => a end.
Definition inner (l : layer) : option (option layer) :=
  match l with Layer _ _ i => i end.

(** The first binding of [name] in an attribute list. *)
Fixpoint assoc (name : string) (a : list (string * option V)) : option (option V) :=
  match a with
  | [] => None
  | (k, v) :: a => if bool_decide (k = name) then Some v else assoc name a
  end.

(** [getattr(layer, name, None)]: [None] stands for a missing attribute
    and for one that is [None]. *)
Definition getattr (l : layer) (name : string) : option pyval :=
  if bool_decide (name = "_layer") then
    match inner l with
    | Some (Some l') => Some (Obj l')
    | _ => None
    end
  else
    match assoc name (attrs l) with
    | Some (Some v) => Some (Val v)
    | _ => None
    end.

Definition no_attribute (cls attr : string) : exn :=
  AttributeError ("'" +:+ cls +:+ "' object has no attribute '" +:+ attr +:+ "'").

Fixpoint get_attr (l : layer) (name : string) : result pyval :=
  match getattr l name with
  | Some v => inr v
  | None =>
      match inner l with
      | None => inl (no_attribute (class_name l) "_layer")
      | Some None => inl (no_attribute "NoneType" "_layer")
      | Some (Some l') => get_attr l' name
      end
  end.

(** The layer and the layers it wraps, outermost first. *)
Fixpoint chain (l : layer) : list layer :=
  l :: match inner l with
       | Some (Some l') => chain l'
       | _ => []
       end.

End GetAttr.

End GetAttr.

(** * [paddlenlp/trainer/plugins/timer.py]

    Times are values of an abstract type with the two operations the code
    applies to them.  [time.time()] is a read of the outside world: the
    world is the sequence of readings the clock will give, and the state
    counts how many have been taken.  A method that raises leaves the
    assignments made before the [raise] in place, so a call returns its
    result, or its exception, together with the state. *)

Module Timers.

Section Timers.

Variable T : Type.
Variable t0 : T.                 (* 0.0 *)
Variable tadd tsub : T → T → T.
Variable clock : nat → T.

Record _Timer : Type := mkTimer {
  name : string;
  elapsed_ : T;
  started_ : bool;
  start_time : T
}.

(** A timer object and the number of clock readings taken so far. *)
Definition state : Type := (_Timer * nat)%type.

Definition TM (A : Type) : Type := state → result A * state.

Definition tret {A} (a : A) : TM A := λ s, (inr a, s).
Definition traise {A} (e : exn) : TM A := λ s, (inl e, s).
Definition tbind {A B} (m : TM A) (k : A → TM B) : TM B :=
  λ s, match m s with
       | (inl e, s') => (inl e, s')
       | (inr a, s') => k a s'
       end.

#[local] Instance TM_ret : MRet TM := @tret.
#[local] Instance TM_bind : MBind TM := λ A B k m, tbind m k.

(** [time.time()] *)
Definition time_time : TM T := λ '(t, n), (inr (clock n), (t, S n)).

Definition get : TM _Timer := λ '(t, n), (inr t, (t, n)).
Definition put (t : _Timer) : TM unit := λ '(_, n), (inr tt, (t, n)).

Definition tassert (c : bool) (msg : string) : TM unit :=
  if c then tret tt else traise (AssertionError msg).

(** [_Timer(name)] *)
Definition init (nm : string) (n : nat) : state :=
  (mkTimer nm t0 false (clock n), S n).

Definition start : TM unit :=
  t ← get;
  tassert (negb (started_ t)) (name t +:+ " timer has already started");;
  now ← time_time;
  put (mkTimer (name t) (elapsed_ t) true now).

Definition stop : TM unit :=
  t ← get;
  tassert (started_ t) (name t +:+ " timer is not started.");;
  now ← time_time;
  put (mkTimer (name t) (tadd (elapsed_ t) (tsub now (start_time t))) false
         (start_time t)).

Definition reset : TM unit :=
  t ← get;
  put (mkTimer (name t) t0 false (start_time t)).

Definition elapsed (reset_ : bool) : TM T :=
  t ← get;
  let started := started_ t in
  (if started then stop else tret tt);;
  t ← get;
  let elapsed := elapsed_ t in
  (if reset_ then reset else tret tt);;
  (if started then start else tret tt);;
  tret elapsed.

(** ** [RuntimeTimer] *)

Definition RuntimeTimer_start (nm : string) : TM unit :=
  t ← get;
  put (mkTimer nm (elapsed_ t) (started_ t) (start_time t));;
  start.

Definition RuntimeTimer_stop : TM unit := stop.

(** [log] returns a formatted line; what goes into it is the timer's name
    and the elapsed time (and the wall-clock date, which is not modelled). *)
Definition RuntimeTimer_log : TM (string * T) :=
  runtime ← elapsed true;
  t ← get;
  (if started_ t then stop else tret tt);;
  reset;;
  t ← get;
  tret (name t, runtime).

End Timers.

(** ** [Timers]: the registry *)

Inductive timer_class : Type := _Timer_class | _GPUEventTimer_class.

#[global] Instance timer_class_eq_dec : EqDecision timer_class.
Proof. solve_decision. Defined.

Section Registry.

Variable T : Type.
Variable t0 : T.
Variable clock : nat → T.

(** The event timer of paddle, when it can be imported. *)
Variable G : Type.
Variable gpu_timer : string → G.

Inductive timer_object : Type :=
  | CpuTimer (t : _Timer T)
  | EventTimer (g : G).

Definition type_of (o : timer_object) : timer_class :=
  match o with CpuTimer _ => _Timer_class | EventTimer _ => _GPUEventTimer_class end.

(** [_GPUEventTimer] is [_Timer] itself when the import failed. *)
Definition _GPUEventTimer (imported : bool) : timer_class :=
  if imported then _GPUEventTimer_class else _Timer_class.

Record Registry : Type := mkRegistry {
  timers : gmap string timer_object;
  readings : nat
}.

Definition class_repr (c : timer_class) : string :=
  match c with
  | _Timer_class => "<class 'paddlenlp.trainer.plugins.timer._Timer'>"
  | _GPUEventTimer_class =>
      "<class 'paddle.distributed.fleet.utils.timer_helper._GPUEventTimer'>"
  end.

(** [Timers.__call__(name, use_event)]: the timer is returned by its key in
    the registry. *)
Definition Timers_call (imported cuda : bool) (nm : string) (use_event : bool)
    (r : Registry) : result string * Registry :=
  let clazz := if use_event && cuda then _GPUEventTimer imported else _Timer_class in
  match timers r !! nm with
  | None =>
      match clazz with
      | _Timer_class =>
          let '(t, n) := init T t0 clock nm (readings r) in
          (inr nm, mkRegistry (<[nm := CpuTimer t]> (timers r)) n)
      | _GPUEventTimer_class =>
          (inr nm, mkRegistry (<[nm := EventTimer (gpu_timer nm)]> (timers r))
                     (readings r))
      end
  | Some o =>
      if bool_decide (type_of o = clazz) then (inr nm, r)
      else (inl (AssertionError ("Invalid timer type: " +:+ class_repr clazz
                                   +:+ " vs " +:+ class_repr (type_of o))), r)
  end.

End Registry.

End Timers.

(** * [paddlenlp/utils/log.py]: the [Logger] wrapper

    The logger object holds the flag [_is_enable], the level set on the
    underlying [logging.Logger], the terminator of its stream handler and
    the cache of [warning_once].  What it writes is collected as a list of
    records.  The standard library's [Logger.log(level, msg)] is taken to
    hand a record to the handler exactly when [level] is at least the
    logger's level. *)

Module Log.

Definition log_config : list (string * (Z * string)) :=
  [ ("DEBUG", (10, "purple")); ("INFO", (20, "green")); ("TRAIN", (21, "cyan"));
    ("EVAL", (22, "blue")); ("WARNING", (30, "yellow")); ("ERROR", (40, "red"));
    ("CRITICAL", (50, "bold_red")) ].

Record Logger : Type := mkLogger {
  _is_enable : bool;
  level : Z;
  terminator : string;
  warned : list string
}.

(** A line as it reaches the stream: level, message, line end. *)
Definition record : Type := (Z * string * string)%type.

Definition world : Type := (Logger * list record)%type.

Definition LM (A : Type) : Type := world → result A * world.

Definition lret {A} (a : A) : LM A := λ w, (inr a, w).
Definition lraise {A} (e : exn) : LM A := λ w, (inl e, w).
Definition lbind {A B} (m : LM A) (k : A → LM B) : LM B :=
  λ w, match m w with
       | (inl e, w') => (inl e, w')
       | (inr a, w') => k a w'
       end.

#[global] Instance LM_ret : MRet LM := @lret.
#[global] Instance LM_bind : MBind LM := λ A B k m, lbind m k.

(** [Logger()]: enabled, level DEBUG, the handler's default line end. *)
Definition newline : string := String (Ascii.ascii_of_nat 10) EmptyString.
Definition init : Logger := mkLogger true 10 newline [].

Definition disable : LM unit :=
  λ '(l, out), (inr tt, (mkLogger false (level l) (terminator l) (warned l), out)).

Definition enable : LM unit :=
  λ '(l, out), (inr tt, (mkLogger true (level l) (terminator l) (warned l), out)).

Fixpoint level_of (name : string) (config : list (string * (Z * string)))
  : option Z :=
  match config with
  | [] => None
  | (k, (lv, _)) :: config => if bool_decide (k = name) then Some lv else level_of name config
  end.

Definition set_level (log_level : string) : LM unit :=
  λ '(l, out),
    match level_of log_level log_config with
    | Some lv => (inr tt, (mkLogger (_is_enable l) lv (terminator l) (warned l), out))
    | None =>
        (inl (AssertionError
                "Invalid log level. Choose among dict_keys(['DEBUG', 'INFO', 'TRAIN', 'EVAL', 'WARNING', 'ERROR', 'CRITICAL'])"),
         (l, out))
    end.

(** [self.logger.log(log_level, msg)] *)
Definition logging_log (log_level : Z) (msg : string) : LM unit :=
  λ '(l, out),
    if bool_decide (level l ≤ log_level)
    then (inr tt, (l, out ++ [(log_level, msg, terminator l)]))
    else (inr tt, (l, out)).

(** [Logger.__call__] *)
Definition call (log_level : Z) (msg : string) : LM unit :=
  λ '(l, out),
    if negb (_is_enable l) then (inr tt, (l, out))
    else logging_log log_level msg (l, out).

(** The methods [__init__] installs, one per entry of [log_config]. *)
Definition debug : string → LM unit := call 10.
Definition info : string → LM unit := call 20.
Definition train : string → LM unit := call 21.
Definition eval : string → LM unit := call 22.
Definition warning : string → LM unit := call 30.
Definition error : string → LM unit := call 40.
Definition critical : string → LM unit := call 50.

(** [self.handler.terminator] read and assigned *)
Definition get_terminator : LM string :=
  λ '(l, out), (inr (terminator l), (l, out)).
Definition set_terminator (term : string) : LM unit :=
  λ '(l, out), (inr tt, (mkLogger (_is_enable l) (level l) term (warned l), out)).

(** [with self.use_terminator(terminator): body].  The generator has no
    [try]: an exception of the body is raised at its [yield] and the
    statement after it does not run. *)
Definition use_terminator {A} (term : string) (body : LM A) : LM A :=
  old_terminator ← get_terminator;
  set_terminator term;;
  a ← body;
  set_terminator old_terminator;;
  mret a.

(** [warning_once] under [functools.lru_cache(None)]: the body runs for
    arguments not seen before, and the arguments are remembered once it has
    returned. *)
Definition warning_once (msg : string) : LM unit :=
  λ '(l, out),
    if bool_decide (msg ∈ warned l) then (inr tt, (l, out))
    else
      match warning msg (l, out) with
      | (inr _, (l', out')) =>
          (inr tt, (mkLogger (_is_enable l') (level l') (terminator l')
                      (msg :: warned l'), out'))
      | (inl e, w') => (inl e, w')
      end.

End Log.

(** * Vocabulary of the statements *)

Module Vocabulary.
Import LlamaPP.

(** The value a call returns, without the store. *)
Definition returned {A} (r : result (A * heap)) : result A :=
  match r with inl e => inl e | inr (a, _) => inr a end.

(** The store after the given slots have been marked non-differentiable,
    one after the other. *)
Definition marked (h : heap) (xs : list slot) : heap :=
  foldl (λ h x, match x with
                | Some r => alter (with_stop_gradient true) r h
                | None => h
                end) h xs.

(** A variable refers to an object of the store, or is [None]. *)
Definition valid (h : heap) (x : slot) : Prop :=
  match x with Some r => is_Some (h !! r) | None => True end.

(** The values of an envelope, a bare value counting as one. *)
Definition items (env : envelope) : list slot :=
  match env with Tuple l => l | Bare x => [x] end.

(** The tensors behind the populated slots among [xs], in order. *)
Definition originals (h : heap) (xs : list slot) : list Tensor :=
  omap (λ x, x ≫= λ r, h !! r) xs.

(** [k] consecutive references starting at [n]. *)
Definition copies_at (n k : nat) : list ref :=
  (λ i, (n + i)%nat) <$> seq 0 k.

(** [c], in the store [h'] after the call, is a private copy of the
    caller's object [r] of the store [h]: it is no object of [h], it holds
    what [r] held, and overwriting it leaves [r] as it was. *)
Definition forwarded_copy (h h' : heap) (r c : ref) : Prop :=
  h !! c = None
  ∧ c ≠ r
  ∧ h' !! c = h !! r
  ∧ ∀ t, <[c := t]> h' !! r = h !! r.

(** The populated slots form a prefix of
    [attention_mask, attn_mask_startend_row_indices, position_ids, alibi]. *)
Definition contiguous_prefix (am ri pid al : slot) : Prop :=
  (is_Some ri → is_Some am) ∧ (is_Some pid → is_Some ri) ∧ (is_Some al → is_Some pid).

(** Slot [x] of the caller came back as [x']: both absent, or [x'] is a
    tensor of the same value that is marked non-differentiable. *)
Definition decoded (h h' : heap) (x x' : slot) : Prop :=
  match x, x' with
  | None, None => True
  | Some r, Some r' =>
      ∃ t t', h !! r = Some t ∧ h' !! r' = Some t'
              ∧ same_value t t' ∧ stop_gradient t' = true
  | _, _ => False
  end.

(** Slot [x] of the caller came back as the clone [x']: both absent, or
    [x'] is an object the caller's store [h] did not have, other than [x],
    that holds a tensor of the same value and is marked
    non-differentiable. *)
Definition decoded_clone (h h' : heap) (x x' : slot) : Prop :=
  match x, x' with
  | None, None => True
  | Some r, Some r' =>
      h !! r' = None
      ∧ r' ≠ r
      ∧ ∃ t t', h !! r = Some t ∧ h' !! r' = Some t'
                ∧ same_value t t' ∧ stop_gradient t' = true
  | _, _ => False
  end.

(** What the resolver makes of a decoded envelope: the bindings of
    [attention_mask], [attn_mask_startend_row_indices], [position_ids] and
    [alibi] with which the rest of a [forward] runs. *)
Definition resolved_slots (alibi_variant : bool) (device : string)
    (args : envelope) (h : heap) : result (slot * slot * slot * slot) :=
  match parse_args args h with
  | inl e => inl e
  | inr ((_, am, ri, pid, al), h1) => inr (resolve_masks alibi_variant device h1 am ri pid al)
  end.

(** A tuple whose length is none of 2, 3, 4, 5. *)
Definition bad_arity (args : envelope) : Prop :=
  match args with
  | Tuple xs => length xs ∉ [2; 3; 4; 5]%nat
  | Bare _ => False
  end.

(** Both mask slots are populated once the resolver has run. *)
Definition both_masks (alibi_variant : bool) (device : string)
    (args : envelope) (h : heap) : Prop :=
  ∃ am ri pid al,
    resolved_slots alibi_variant device args h = inr (Some am, Some ri, pid, al).

(** A field of a raw example: its value when present, [None] when not. *)
Definition field (d : gmap string pyobj) (k : string) : pyobj :=
  default PyNone (d !! k).

(** The message [msg] spells out the value [v]. *)
Definition names (msg v : string) : Prop :=
  ∃ pre post, msg = pre +:+ v +:+ post.

(** *** Between two stages

    What the next layer works with when a layer returns
    [return_args(hidden_states, attention_mask, ...)]: the envelope is
    decoded by [parse_args] and the slots go through the resolver, as in the
    first lines of [LlamaDecoderLayerPipe.forward]. *)
Definition handover (alibi_variant : bool) (device : string)
    (hs am ri pid al : slot) : M (slot * (slot * slot * slot * slot)) :=
  env ← return_args hs am ri pid al;
  '(hs', a, b, c, d) ← parse_args env;
  h ← get_heap;
  mret (hs', resolve_masks alibi_variant device h a b c d).

(** The populated slots of [xs], moved to the left, over four positions. *)
Definition compacted (xs : list slot) : list slot :=
  take 4 (filter is_Some xs ++ replicate 4 None).

(** Slot [x] holds nothing or a tensor whose element type satisfies [P]. *)
Definition slot_dtype (P : DType → Prop) (h : heap) (x : slot) : Prop :=
  match x with
  | Some r => ∃ t, h !! r = Some t ∧ P (dtype t)
  | None => True
  end.

(** Every object of [h] is still there in [h'], with the same value, and
    still non-differentiable if it was. *)
Definition keeps_values (h h' : heap) : Prop :=
  ∀ r t, h !! r = Some t →
    ∃ t', h' !! r = Some t' ∧ same_value t t'
          ∧ (stop_gradient t = true → stop_gradient t' = true).

(** A computation that, when it returns, has kept the values of all
    objects. *)
Definition value_preserving {A} (m : M A) : Prop :=
  ∀ h a h', m h = inr (a, h') → keeps_values h h'.

(** *** What the first stage reads and builds

    What [LlamaEmbeddingPipe.forward] works with once the envelope is
    decoded and resolved: the tensor of token ids, the tensor of the
    attention mask if there is one, and the position ids. *)
Definition first_stage_reads (alibi_variant : bool) (device : string)
    (args : envelope) (h : heap) : option (Tensor * option Tensor * slot) :=
  match parse_args args h with
  | inr ((Some ids, am, ri, pid, al), h1) =>
      match resolve_masks alibi_variant device h1 am ri pid al with
      | (am, _, pid, _) => t ← h1 !! ids; Some (t, am ≫= (h1 !!.), pid)
      end
  | _ => None
  end.

(** [t] is the embedding of the token ids [ids], scattered when sequence
    parallelism is on. *)
Definition first_stage_embeds (ext : External) (config : LlamaConfig)
    (ids t : Tensor) : Prop :=
  ∃ emb, embed_tokens ext ids = inr emb
         ∧ if sequence_parallel config
           then sequence_parallel_scatter ext emb = inr t
           else t = emb.

(** [t] is the attention mask the first stage sends for the incoming mask
    [src]: the prepared mask, marked non-differentiable and on "npu" cast
    to [bool], when a mask came in; with none, on "npu" the lower triangle
    of ones, and elsewhere the mask prepared from [None], which is built
    only with positional bias. *)
Definition first_stage_mask (ext : External) (src : option Tensor)
    (batch_size seq_length : Z) (d : DType) (t : Tensor) : Prop :=
  match src with
  | Some _ =>
      ∃ m, _prepare_decoder_attention_mask ext src (batch_size, seq_length) 0 d = inr m
           ∧ if bool_decide (get_env_device ext = "npu")
             then astype ext (with_stop_gradient true m) bool_ = inr t
             else t = with_stop_gradient true m
  | None =>
      if bool_decide (get_env_device ext = "npu")
      then ∃ m, tril ext (ones [seq_length; seq_length] bool_) = inr m
                ∧ t = with_stop_gradient true m
      else ∃ m, _prepare_decoder_attention_mask ext None (batch_size, seq_length) 0 d
                = inr m
                ∧ t = with_stop_gradient true m
  end.

(** [t] is the positional bias the first stage sends: [build_alibi_tensor]
    over the incoming mask, or over ones when there is none, cut to the
    heads of this tensor-parallel rank, reshaped and marked
    non-differentiable. *)
Definition first_stage_alibi (ext : External) (config : LlamaConfig)
    (src : option Tensor) (batch_size seq_length : Z) (d : DType) (t : Tensor) : Prop :=
  ∃ a a',
    build_alibi_tensor ext (default (ones [batch_size; seq_length] bool_) src)
      (num_attention_heads config) d = inr a
    ∧ (if bool_decide (tensor_parallel_degree config > 1) then
         let block_size := num_attention_heads config `div` tensor_parallel_degree config in
         ∃ s, slice_heads ext a (tensor_parallel_rank config * block_size)
                ((tensor_parallel_rank config + 1) * block_size) = inr s
              ∧ reshape ext s [batch_size * block_size; 1; seq_length] = inr a'
       else reshape ext a [batch_size * num_attention_heads config; 1; seq_length] = inr a')
    ∧ t = with_stop_gradient true a'.

(** *** Reading a layer descriptor *)

Definition desc_class (d : layer_desc) : layer_class :=
  match d with
  | SharedLayerDesc _ c _ _ _ => c
  | LayerDesc c _ _ => c
  end.

Definition desc_config (d : layer_desc) : LlamaConfig :=
  match d with
  | SharedLayerDesc _ _ _ c _ => c
  | LayerDesc _ c _ => c
  end.

(** The shared-weight group of a descriptor and the attribute that holds
    the weight, if it is a shared one. *)
Definition shared_weight (d : layer_desc) : option (string * string) :=
  match d with
  | SharedLayerDesc key _ attr _ _ => Some (key, attr)
  | LayerDesc _ _ _ => None
  end.

(** The first and the last element of a list. *)
Definition head_and_last {A} (l : list A) : option (A * A) :=
  match head l, last l with
  | Some a, Some b => Some (a, b)
  | _, _ => None
  end.

(** The configuration as [__init__] rewrites it before building layers. *)
Definition init_config (hcg : HybridCommunicateGroup) (config : LlamaConfig)
  : LlamaConfig :=
  with_tensor_parallel config
    (Z.max (model_parallel_world_size hcg) 1) (Z.max (model_parallel_rank hcg) 0).

(** *** Columns of a batch of dict objects

    Field [k] of the example object [r], [None] when it has none. *)
Definition object_field (store : list (list (string * pyobj))) (k : string) (r : nat)
  : pyobj :=
  default PyNone (store !! r ≫= DictObjects.dict_get k).

(** Field [k] across the example objects of a batch, as they are in
    [store], when the first example has it; [None] when it does not. *)
Definition object_column (store : list (list (string * pyobj))) (inputs : list nat)
    (k : string) : pyobj :=
  match inputs with
  | r0 :: _ =>
      match store !! r0 ≫= DictObjects.dict_get k with
      | Some _ => PyList (object_field store k <$> inputs)
      | None => PyNone
      end
  | [] => PyNone
  end.

(** *** Padding

    The attention mask of a sentence of [k] tokens padded on the right to
    length [n]. *)
Definition right_padded (n k : nat) : list Z :=
  replicate k 1 ++ replicate (n - k) 0.

(** The line end the progress display of the logger uses. *)
Definition carriage_return : string := String (Ascii.ascii_of_nat 13) EmptyString.

(** *** Small concrete data for running the definitions *)

Definition example_config : LlamaConfig :=
  mkConfig false false 1 0 8 4 "full" false None 0 None false false.

(** The example configuration with positional bias switched on. *)
Definition with_alibi (config : LlamaConfig) : LlamaConfig :=
  mkConfig true (sequence_parallel config) (tensor_parallel_degree config)
    (tensor_parallel_rank config) (num_attention_heads config)
    (num_hidden_layers config) (recompute_granularity config)
    (recompute_use_reentrant config) (no_recompute_layers config)
    (pp_recompute_interval config) (virtual_pp_degree config)
    (tie_word_embeddings config) (dpo_config config).

(** External operators that succeed and return fixed-size tensors. *)
Definition example_external (device : string) : External :=
  mkExternal device
    (λ t, inr (mkTensor float32 (shape t ++ [4]) [] false))
    (λ t, inr t)
    (λ t _ d, inr (mkTensor d (shape t) [] false))
    (λ t _ _, inr t)
    (λ t shp, inr (mkTensor (dtype t) shp (data t) (stop_gradient t)))
    (λ _ shp _ d, inr (mkTensor d [shp.1; 1; shp.2; shp.2] [] false))
    (λ t d, inr (mkTensor d (shape t) (data t) (stop_gradient t)))
    (λ t, inr t)
    (λ h x _, match x ≫= λ r, h !! r with
              | Some t => inr t
              | None => inl (TypeError "hidden_states is None")
              end)
    (λ t, inr t)
    (λ _ _, []).

(** A store with token ids, a dense mask, a row-index mask and position
    ids. *)
Definition example_heap : heap :=
  [ mkTensor int64 [1; 3] [5; 6; 7] true;
    mkTensor float32 [1; 1; 3; 3] [0; 0; 0; 0; 0; 0; 0; 0; 0] false;
    mkTensor int32 [1; 1; 3; 1] [3; 3; 3] false;
    mkTensor int64 [1; 3] [0; 1; 2] false ].

(** Two raw examples with the same fields. *)
Definition example_batches : list (gmap string pyobj) :=
  [ <["input_ids" := PyList [PyInt 1; PyInt 2]]> (<["labels" := PyInt 7]> ∅);
    <["input_ids" := PyList [PyInt 3; PyInt 4]]> (<["labels" := PyInt 8]> ∅) ].

(** Two example objects with the same fields, entered in different order. *)
Definition example_objects : list (list (string * pyobj)) :=
  [ [("input_ids", PyList [PyInt 1; PyInt 2]); ("labels", PyInt 7)];
    [("labels", PyInt 8); ("input_ids", PyList [PyInt 3; PyInt 4])] ].

(** A bi-encoder over integer features with the given pooling method and
    tokenizer padding side. *)
Definition example_encoder (method side : string) : LlmEmbed.BiEncoderModel :=
  LlmEmbed.mkBiEncoder method (Some (LlmEmbed.mkTokenizer side)) 8 1.

(** One sentence of two tokens with one feature each, nothing padded. *)
Definition example_hidden : LlmEmbed.hidden LlmEmbed.Z_scalar := [[[10]; [20]]].
Definition example_mask : LlmEmbed.mask := [[1; 1]].

End Vocabulary.

(** * Properties *)

Import LlamaPP Vocabulary.

(** ** The envelope codec *)

Section Codec.

Implicit Types (h : heap) (x a b c d e : slot) (r : ref) (t : Tensor).

Lemma parse_args_tuple5 a b c d e h :
  parse_args (Tuple [a; b; c; d; e]) h = inr ((a, b, c, d, e), marked h [d; b; c; e]).
Proof. by destruct a, b, c, d, e. Qed.

Lemma parse_args_tuple4 a b c d h :
  parse_args (Tuple [a; b; c; d]) h = inr ((a, b, c, d, None), marked h [d; b; c]).
Proof. by destruct a, b, c, d. Qed.

Lemma parse_args_tuple3 a b c h :
  parse_args (Tuple [a; b; c]) h = inr ((a, b, c, None, None), marked h [b; c]).
Proof. by destruct a, b, c. Qed.

Lemma parse_args_tuple2 a b h :
  parse_args (Tuple [a; b]) h = inr ((a, b, None, None, None), marked h [b]).
Proof. by destruct a, b. Qed.

Lemma parse_args_bare a h :
  parse_args (Bare a) h = inr ((a, None, None, None, None), h).
Proof. done. Qed.

(** C1. The arity of the envelope fixes the slots: a bare value is
    [hidden_states] alone; a tuple of length 2, 3, 4 or 5 fills
    [hidden_states], [attention_mask], [attn_mask_startend_row_indices],
    [position_ids], [alibi] from the left, and the slots beyond the arity are
    [None]. *)
Theorem parse_args_arity_slots a b c d e h :
  returned (parse_args (Bare a) h) = inr (a, None, None, None, None)
  ∧ returned (parse_args (Tuple [a; b]) h) = inr (a, b, None, None, None)
  ∧ returned (parse_args (Tuple [a; b; c]) h) = inr (a, b, c, None, None)
  ∧ returned (parse_args (Tuple [a; b; c; d]) h) = inr (a, b, c, d, None)
  ∧ returned (parse_args (Tuple [a; b; c; d; e]) h) = inr (a, b, c, d, e).
Proof.
  rewrite parse_args_bare, parse_args_tuple2, parse_args_tuple3,
    parse_args_tuple4, parse_args_tuple5.
  done.
Qed.

Lemma clone_run h ts r t :
  h !! r = Some t →
  clone r (h ++ ts) = inr (length h + length ts, (h ++ ts) ++ [t])%nat.
Proof.
  intros Hr. unfold clone.
  by rewrite (lookup_app_l_Some _ _ _ _ Hr), length_app.
Qed.

Lemma clone_run0 h r t :
  h !! r = Some t → clone r h = inr (length h, h ++ [t]).
Proof. intros Hr. unfold clone. by rewrite Hr. Qed.

Lemma lookup_fresh h ts (k : nat) :
  (h ++ ts) !! (length h + k)%nat = ts !! k.
Proof. rewrite lookup_app_r by lia. f_equal. lia. Qed.

Lemma return_args_run h hs am ri pid al :
  valid h am → valid h ri → valid h pid → valid h al →
  return_args hs am ri pid al h
  = inr (unwrap_single
           (hs :: (Some <$> copies_at (length h)
                              (length (originals h [am; ri; pid; al])))),
         h ++ originals h [am; ri; pid; al]).
Proof.
  intros Ha Hr Hp Hl.
  destruct am as [r1|], ri as [r2|], pid as [r3|], al as [r4|];
    repeat match goal with
           | H : valid _ (Some _) |- _ => destruct H as [? ?]
           | H : valid _ None |- _ => clear H
           end.
  all: unfold return_args, originals, copies_at, append_clone; simpl.
  all: unfold mbind, M_bind, bind, mret, M_ret, ret; simpl.
  all: repeat match goal with H : _ !! _ = Some _ |- _ => rewrite !H end.
  all: repeat (first [ erewrite clone_run0 by eassumption
                     | erewrite clone_run by eassumption ];
               simpl; rewrite <- ?app_assoc; simpl).
  all: by rewrite ?Nat.add_0_r, ?app_nil_r.
Qed.

(** Closes one [forwarded_copy] goal about a copy at offset [k] behind the
    caller's store. *)
Ltac solve_copy :=
  match goal with
  | Hr : ?h !! ?r = Some _ |- forwarded_copy ?h _ ?r _ =>
      pose proof (lookup_lt_Some _ _ _ Hr);
      unfold forwarded_copy; repeat split;
      [ apply lookup_ge_None_2; lia
      | lia
      | by rewrite lookup_fresh, Hr
      | intros ?; rewrite list_lookup_insert_ne by lia;
        by apply lookup_app_l ]
  end.

(** C3. [return_args] forwards [hidden_states] itself and, for every
    auxiliary argument that is not [None], a clone: an object that did not
    exist before the call, holding the same tensor, such that overwriting it
    afterwards cannot change the object the caller kept.  The caller's
    objects are as they were. *)
Theorem return_args_forwards_clones h hs am ri pid al :
  valid h am → valid h ri → valid h pid → valid h al →
  ∃ env h' copies,
    return_args hs am ri pid al h = inr (env, h')
    ∧ items env = hs :: (Some <$> copies)
    ∧ Forall2 (forwarded_copy h h') (omap id [am; ri; pid; al]) copies
    ∧ ∀ r t, h !! r = Some t → h' !! r = Some t.
Proof.
  intros Ha Hr Hp Hl.
  eexists _, _, (copies_at (length h) (length (originals h [am; ri; pid; al]))).
  split; [by apply return_args_run|].
  split; [|split].
  - by destruct am, ri, pid, al;
      repeat match goal with
             | H : valid _ (Some _) |- _ => destruct H as [? H]; simpl; rewrite ?H
             end.
  - destruct am as [r1|], ri as [r2|], pid as [r3|], al as [r4|];
      repeat match goal with
             | H : valid _ (Some _) |- _ => destruct H as [? ?]
             | H : valid _ None |- _ => clear H
             end.
    all: unfold originals, copies_at; simpl.
    all: repeat match goal with H : _ !! _ = Some _ |- _ => rewrite !H end.
    all: simpl; repeat (constructor; [solve_copy|]); constructor.
  - intros r t Hrt. by apply lookup_app_l_Some.
Qed.

(** C2. Round trip.  When the populated auxiliary slots form a prefix of
    the slot order, [parse_args] applied to the result of [return_args]
    gives back [hidden_states] itself, unchanged in the store, and in every
    populated auxiliary slot a tensor of the same value whose
    [stop_gradient] is set; the slots that were [None] are [None]. *)
Theorem parse_return_roundtrip h hs am ri pid al :
  contiguous_prefix am ri pid al →
  valid h hs → valid h am → valid h ri → valid h pid → valid h al →
  ∃ env h1 am' ri' pid' al' h2,
    return_args hs am ri pid al h = inr (env, h1)
    ∧ parse_args env h1 = inr ((hs, am', ri', pid', al'), h2)
    ∧ decoded h h2 am am' ∧ decoded h h2 ri ri'
    ∧ decoded h h2 pid pid' ∧ decoded h h2 al al'
    ∧ hs ≫= (λ r, h2 !! r) = hs ≫= (λ r, h !! r).
Proof.
  intros (Hra & Hpr & Hlp) Hh Ha Hr Hp Hl.
  pose proof (return_args_run h hs am ri pid al Ha Hr Hp Hl) as Hrun.
  assert (Hhs : ∀ ts, hs ≫= (λ r, (h ++ ts) !! r) = hs ≫= (λ r, h !! r)).
  { intros ts. destruct hs as [r|]; [|done]. destruct Hh as [t Ht]. simpl.
    by rewrite (lookup_app_l_Some _ _ _ _ Ht). }
  destruct am as [r1|], ri as [r2|], pid as [r3|], al as [r4|];
    try (exfalso; first [ by apply (is_Some_None (A:=nat)), Hra
                        | by apply (is_Some_None (A:=nat)), Hpr
                        | by apply (is_Some_None (A:=nat)), Hlp ]);
    repeat match goal with
           | H : valid _ (Some _) |- _ => destruct H as [? ?]
           | H : valid _ None |- _ => clear H
           end.
  all: unfold originals, copies_at in Hrun; simpl in Hrun.
  all: repeat match goal with
              | H : _ !! _ = Some _ |- _ => rewrite !H in Hrun
              end; simpl in Hrun.
  all: do 7 eexists; split; [exact Hrun|].
  all: first [ rewrite parse_args_tuple5 | rewrite parse_args_tuple4
             | rewrite parse_args_tuple3 | rewrite parse_args_tuple2
             | rewrite parse_args_bare ].
  all: split; [reflexivity|].
  all: unfold marked; simpl; rewrite ?alter_app_r; simpl.
  all: repeat match goal with
              | |- _ ∧ _ => split
              | |- True => exact I
              | |- ∃ t t', _ =>
                  eexists _, _; split; [eassumption|];
                  split; [by rewrite lookup_fresh|done]
              | |- _ ≫= _ = _ => apply Hhs
              end.
Qed.

Lemma parse_return_roundtrip_witness :
  ∃ env h1 am' ri' pid' al' h2,
    return_args (Some 0%nat) (Some 1%nat) (Some 2%nat) None None example_heap
    = inr (env, h1)
    ∧ parse_args env h1 = inr ((Some 0%nat, am', ri', pid', al'), h2)
    ∧ decoded example_heap h2 (Some 1%nat) am'
    ∧ decoded example_heap h2 (Some 2%nat) ri'
    ∧ decoded example_heap h2 None pid'
    ∧ decoded example_heap h2 None al'
    ∧ Some 0%nat ≫= (λ r, h2 !! r) = Some 0%nat ≫= (λ r, example_heap !! r).
Proof.
  apply (parse_return_roundtrip example_heap (Some 0%nat) (Some 1%nat)
           (Some 2%nat) None None).
  - repeat split; intros [? ?]; by eauto.
  - by eexists.
  - by eexists.
  - by eexists.
  - exact I.
  - exact I.
Defined.

Lemma return_args_forwards_clones_witness :
  ∃ env h' copies,
    return_args (Some 0%nat) (Some 1%nat) None (Some 3%nat) None example_heap
    = inr (env, h')
    ∧ items env = Some 0%nat :: (Some <$> copies)
    ∧ Forall2 (forwarded_copy example_heap h')
        (omap id [Some 1%nat; None; Some 3%nat; None]) copies
    ∧ ∀ r t, example_heap !! r = Some t → h' !! r = Some t.
Proof.
  apply (return_args_forwards_clones example_heap (Some 0%nat) (Some 1%nat)
           None (Some 3%nat) None).
  - by eexists.
  - exact I.
  - by eexists.
  - exact I.
Defined.

End Codec.

(** ** Invalid envelopes *)

Section Invalid.

Lemma is_raise_bind {A B} (m : M A) (k : A → M B) (h : heap) :
  (∀ a h', m h = inr (a, h') → is_raise (k a h') = true) →
  is_raise ((m ≫= k) h) = true.
Proof.
  intros Hk. unfold mbind, M_bind, bind.
  destruct (m h) as [e|[a h']]; [done|]. by apply Hk.
Qed.

Lemma parse_args_bad_arity (xs : list slot) (h : heap) :
  bad_arity (Tuple xs) →
  parse_args (Tuple xs) h = inl (UnboundLocalError "position_ids").
Proof.
  intros Hbad.
  destruct xs as [|a [|b [|c [|d [|e [|f xs]]]]]]; try done.
  all: exfalso; apply Hbad; simpl; set_solver.
Qed.

Lemma embedding_forward_bad_arity ext self (xs : list slot) (h : heap) :
  bad_arity (Tuple xs) →
  LlamaEmbeddingPipe_forward ext self (Tuple xs) h
  = inl (UnboundLocalError "position_ids").
Proof.
  intros Hbad. unfold LlamaEmbeddingPipe_forward, mbind, M_bind, bind.
  by rewrite parse_args_bad_arity.
Qed.

Lemma decoder_forward_bad_arity ext self (xs : list slot) (h : heap) :
  bad_arity (Tuple xs) →
  LlamaDecoderLayerPipe_forward ext self (Tuple xs) h
  = inl (UnboundLocalError "position_ids").
Proof.
  intros Hbad. unfold LlamaDecoderLayerPipe_forward, mbind, M_bind, bind.
  by rewrite parse_args_bad_arity.
Qed.

Lemma embedding_forward_both_masks ext self args (h : heap) :
  both_masks (config_alibi (embedding_config self)) (get_env_device ext) args h →
  is_raise (LlamaEmbeddingPipe_forward ext self args h) = true.
Proof.
  intros (am & ri & pid & al & Hres). unfold resolved_slots in Hres.
  unfold LlamaEmbeddingPipe_forward.
  apply is_raise_bind. intros [[[[ids am0] ri0] pid0] al0] h1 Hparse.
  rewrite Hparse in Hres. injection Hres as Hres.
  apply is_raise_bind. intros h1' h1'' [= <- <-].
  rewrite Hres.
  apply is_raise_bind. intros t h2 _.
  apply is_raise_bind. intros emb h3 _.
  apply is_raise_bind. intros emb' h4 _.
  apply is_raise_bind. intros [b s] h5 _.
  by destruct (config_alibi (embedding_config self)).
Qed.

Lemma marked_length (h : heap) (xs : list slot) : length (marked h xs) = length h.
Proof.
  unfold marked. revert h. induction xs as [|x xs IH]; intros h; simpl; [done|].
  rewrite IH. destruct x; [apply length_alter|done].
Qed.

Lemma marked_lookup (h : heap) (xs : list slot) (r : ref) :
  marked h xs !! r
  = (if bool_decide (Some r ∈ xs) then with_stop_gradient true else id) <$> h !! r.
Proof.
  unfold marked. revert h. induction xs as [|x xs IH]; intros h; simpl.
  { by destruct (h !! r). }
  rewrite IH. clear IH.
  assert (Hstep : (match x with
                   | Some r0 => alter (with_stop_gradient true) r0 h
                   | None => h
                   end) !! r
                  = (if bool_decide (x = Some r) then with_stop_gradient true else id)
                      <$> h !! r).
  { destruct x as [r0|]; [|by destruct (h !! r)].
    destruct (decide (r0 = r)) as [->|Hne].
    - by rewrite list_lookup_alter_eq, bool_decide_eq_true_2.
    - rewrite list_lookup_alter_ne by done.
      rewrite bool_decide_eq_false_2 by congruence. by destruct (h !! r). }
  rewrite Hstep. clear Hstep.
  destruct (decide (Some r ∈ xs)) as [Hin|Hin], (decide (x = Some r)) as [Hx|Hx].
  all: rewrite ?(bool_decide_eq_true_2 _ Hin), ?(bool_decide_eq_false_2 _ Hin),
         ?(bool_decide_eq_true_2 _ Hx), ?(bool_decide_eq_false_2 _ Hx).
  - rewrite bool_decide_eq_true_2 by by right. by destruct (h !! r).
  - rewrite bool_decide_eq_true_2 by by right. by destruct (h !! r).
  - rewrite bool_decide_eq_true_2 by (subst x; by left). by destruct (h !! r).
  - rewrite bool_decide_eq_false_2; [by destruct (h !! r)|].
    intros [?|?]%elem_of_cons; done.
Qed.

Lemma valid_length (h h' : heap) (x : slot) :
  (length h ≤ length h')%nat → valid h x → valid h' x.
Proof.
  destruct x as [r|]; [|done]. unfold valid.
  rewrite !lookup_lt_is_Some. lia.
Qed.

(** A slot the resolver returns is empty or one of the slots it was
    given. *)
Lemma resolve_masks_in alibi_variant device (h : heap) (am ri pid al a b c d : slot) :
  resolve_masks alibi_variant device h am ri pid al = (a, b, c, d) →
  ∀ x, x ∈ [a; b; c; d] → x = None ∨ x ∈ [am; ri; pid; al].
Proof.
  unfold resolve_masks.
  repeat match goal with
         | |- context [if ?c then _ else _] => destruct c
         end.
  all: intros [= <- <- <- <-] x Hx.
  all: rewrite !elem_of_cons, elem_of_nil in Hx.
  all: rewrite !elem_of_cons, elem_of_nil.
  all: destruct Hx as [->|[->|[->|[->|[]]]]]; tauto.
Qed.

(** Decoding an envelope of an accepted arity: the slots are items of the
    envelope, [hidden_states] the first of them, and every auxiliary tensor
    is marked. *)
Lemma parse_args_run args (h : heap) :
  ¬ bad_arity args →
  ∃ hs a b c d h1,
    parse_args args h = inr ((hs, a, b, c, d), h1)
    ∧ length h1 = length h
    ∧ head (items args) = Some hs
    ∧ (∀ x, x ∈ [a; b; c; d] → x = None ∨ x ∈ items args)
    ∧ (∀ (r : ref) t, Some r ∈ [a; b; c; d] → h1 !! r = Some t →
                      stop_gradient t = true).
Proof.
  intros Hnb.
  assert (Hsg : ∀ (xs ys : list slot) (r : ref) t,
            (∀ x, x ∈ xs → x = None ∨ x ∈ ys) →
            Some r ∈ xs → marked h ys !! r = Some t → stop_gradient t = true).
  { intros xs ys r t Hsub Hin. rewrite marked_lookup.
    destruct (Hsub _ Hin) as [[=]|Hin']. rewrite bool_decide_eq_true_2 by done.
    destruct (h !! r); [|done]. by intros [= <-]. }
  destruct args as [xs|x].
  - destruct xs as [|x0 [|x1 [|x2 [|x3 [|x4 [|x5 xs]]]]]].
    1,2,7: exfalso; apply Hnb; simpl; rewrite !elem_of_cons, elem_of_nil; lia.
    + eexists _, _, _, _, _, _. split; [apply parse_args_tuple2|].
      split; [apply marked_length|]. split; [done|].
      assert (Hsub : ∀ x, x ∈ [x1; None; None; None] → x = None ∨ x ∈ [x1]).
      { intros x. rewrite !elem_of_cons, elem_of_nil. tauto. }
      split.
      * intros x Hx. destruct (Hsub x Hx) as [?|?]; [by left|right]. simpl. by right.
      * intros r t. by apply Hsg.
    + eexists _, _, _, _, _, _. split; [apply parse_args_tuple3|].
      split; [apply marked_length|]. split; [done|].
      assert (Hsub : ∀ x, x ∈ [x1; x2; None; None] → x = None ∨ x ∈ [x1; x2]).
      { intros x. rewrite !elem_of_cons, elem_of_nil. tauto. }
      split.
      * intros x Hx. destruct (Hsub x Hx) as [?|?]; [by left|right]. simpl. by right.
      * intros r t. by apply Hsg.
    + eexists _, _, _, _, _, _. split; [apply parse_args_tuple4|].
      split; [apply marked_length|]. split; [done|].
      assert (Hsub : ∀ x, x ∈ [x1; x2; x3; None] → x = None ∨ x ∈ [x3; x1; x2]).
      { intros x. rewrite !elem_of_cons, elem_of_nil. tauto. }
      split.
      * intros x Hx. simpl. revert Hx. rewrite !elem_of_cons, elem_of_nil. tauto.
      * intros r t. by apply Hsg.
    + eexists _, _, _, _, _, _. split; [apply parse_args_tuple5|].
      split; [apply marked_length|]. split; [done|].
      assert (Hsub : ∀ x, x ∈ [x1; x2; x3; x4] → x = None ∨ x ∈ [x3; x1; x2; x4]).
      { intros x. rewrite !elem_of_cons, elem_of_nil. tauto. }
      split.
      * intros x Hx. simpl. revert Hx. rewrite !elem_of_cons, elem_of_nil. tauto.
      * intros r t. by apply Hsg.
  - eexists _, _, _, _, _, _. split; [apply parse_args_bare|].
    split; [done|]. split; [done|]. split.
    + intros y. rewrite !elem_of_cons, elem_of_nil. tauto.
    + intros r t. rewrite !elem_of_cons, elem_of_nil. intros [|[|[|[|]]]]; done.
Qed.

Lemma norm_forward_bad_arity ext (xs : list slot) (h : heap) :
  bad_arity (Tuple xs) →
  LlamaRMSNormPipe_forward ext (Tuple xs) h = inl (UnboundLocalError "position_ids").
Proof.
  intros Hbad. unfold LlamaRMSNormPipe_forward, mbind, M_bind, bind.
  by rewrite parse_args_bad_arity.
Qed.

(** The slots a layer holds after decoding and resolving are objects of
    the store when the items of the envelope are. *)
Lemma resolved_valid alibi_variant device args (h h1 : heap) (hs a b c d a' b' c' d' : slot) :
  Forall (valid h) (items args) → ¬ bad_arity args →
  parse_args args h = inr ((hs, a, b, c, d), h1) →
  resolve_masks alibi_variant device h1 a b c d = (a', b', c', d') →
  length h1 = length h ∧ valid h hs
  ∧ ∀ x, x ∈ [a'; b'; c'; d'] → valid h x ∧ (x = None ∨ x ∈ items args).
Proof.
  intros Hval Hnb Hparse Hres.
  destruct (parse_args_run args h Hnb)
    as (hs0 & a0 & b0 & c0 & d0 & h0 & Hparse' & Hlen & Hhs & Hin & _).
  rewrite Hparse in Hparse'. injection Hparse' as <- <- <- <- <- <-.
  rewrite Forall_forall in Hval.
  split; [done|]. split.
  { apply Hval. destruct (items args); [done|]. injection Hhs as <-. by left. }
  intros x Hx.
  destruct (resolve_masks_in _ _ _ _ _ _ _ _ _ _ _ Hres x Hx) as [->|Hx'].
  { split; [exact I|by left]. }
  destruct (Hin x Hx') as [->|Hx''].
  { split; [exact I|by left]. }
  split; [by apply Hval|by right].
Qed.

Lemma decoder_forward_returns ext self args (h : heap) :
  Forall (valid h) (items args) → ¬ bad_arity args →
  (∃ r : ref, head (items args) = Some (Some r)) →
  (∀ h' (r : ref) kw, is_Some (h' !! r) →
                      is_raise (decoder_layer_forward ext h' (Some r) kw) = false) →
  is_raise (LlamaDecoderLayerPipe_forward ext self args h) = false.
Proof.
  intros Hval Hnb [r Hhead] Hext.
  destruct (parse_args_run args h Hnb)
    as (hs & a & b & c & d & h1 & Hparse & Hlen & Hhs & _ & _).
  rewrite Hhead in Hhs. injection Hhs as <-.
  destruct (resolve_masks (config_alibi (layer_config self)) (get_env_device ext)
              h1 a b c d) as [[[a' b'] c'] d'] eqn:Hres.
  destruct (resolved_valid _ _ _ _ _ _ _ _ _ _ _ _ _ _ Hval Hnb Hparse Hres)
    as (_ & Hr & Hslots).
  assert (Hr1 : valid h1 (Some r)) by (eapply valid_length; [|exact Hr]; lia).
  destruct Hr1 as [t Ht].
  unfold LlamaDecoderLayerPipe_forward, mbind, M_bind, bind.
  rewrite Hparse. simpl. rewrite Hres. unfold deref. rewrite Ht.
  unfold run_call, mbind, M_bind, bind, get_heap, lift, alloc, mret, M_ret, ret.
  set (call := select_call _ _ _ _ _ _ _).
  assert (Hcall : ∃ t', match call with
                        | Recomputed _ x kw _ => decoder_layer_forward ext h1 x kw
                        | Direct x kw => decoder_layer_forward ext h1 x kw
                        end = inr t').
  { assert (Hret : ∀ kw, ∃ t', decoder_layer_forward ext h1 (Some r) kw = inr t').
    { intros kw. specialize (Hext h1 r kw (ex_intro _ t Ht)).
      destruct (decoder_layer_forward ext h1 (Some r) kw); [done|by eauto]. }
    subst call. unfold select_call.
    repeat match goal with
           | |- context [if ?c then _ else _] => destruct c
           end; apply Hret. }
  destruct Hcall as [t' ->].
  rewrite return_args_run; [done|..].
  all: eapply valid_length; [|apply Hslots; rewrite !elem_of_cons; tauto].
  all: rewrite length_app; lia.
Qed.

(** C6, as the code has it.  A tuple whose length is not 2, 3, 4 or 5 makes
    [parse_args] raise UnboundLocalError, and with it each layer that
    decodes the envelope.  An envelope that leaves both [attention_mask]
    and [attn_mask_startend_row_indices] populated after resolution makes
    [LlamaEmbeddingPipe.forward] raise.  [LlamaDecoderLayerPipe.forward]
    makes no check of the two masks: whatever the resolved slots are, it
    returns when the items of the envelope are objects of the store, the
    first of them a tensor, and the inherited forward returns on a
    tensor. *)
Theorem invalid_envelope_fatal_where_checked ext args (h : heap) :
  (bad_arity args →
   parse_args args h = inl (UnboundLocalError "position_ids")
   ∧ (∀ self, LlamaEmbeddingPipe_forward ext self args h
              = inl (UnboundLocalError "position_ids"))
   ∧ (∀ self, LlamaDecoderLayerPipe_forward ext self args h
              = inl (UnboundLocalError "position_ids"))
   ∧ LlamaRMSNormPipe_forward ext args h = inl (UnboundLocalError "position_ids"))
  ∧ (∀ self,
       both_masks (config_alibi (embedding_config self)) (get_env_device ext) args h →
       is_raise (LlamaEmbeddingPipe_forward ext self args h) = true)
  ∧ (∀ self,
       Forall (valid h) (items args) → ¬ bad_arity args →
       (∃ r : ref, head (items args) = Some (Some r)) →
       (∀ h' (r : ref) kw, is_Some (h' !! r) →
          is_raise (decoder_layer_forward ext h' (Some r) kw) = false) →
       is_raise (LlamaDecoderLayerPipe_forward ext self args h) = false).
Proof.
  split; [|split].
  - intros Hbad. destruct args as [xs|x]; [|done].
    rewrite parse_args_bad_arity by done. split; [done|].
    split; [|split].
    + intros self. by apply embedding_forward_bad_arity.
    + intros self. by apply decoder_forward_bad_arity.
    + by apply norm_forward_bad_arity.
  - intros self. apply embedding_forward_both_masks.
  - intros self. apply decoder_forward_returns.
Qed.

Lemma invalid_envelope_fatal_where_checked_witness :
  let ext := example_external "cpu" in
  let both := Tuple [Some 0%nat; Some 1%nat; Some 2%nat; Some 3%nat] in
  (parse_args (Tuple [Some 0%nat]) example_heap = inl (UnboundLocalError "position_ids")
   ∧ LlamaDecoderLayerPipe_forward ext (mkDecoderLayer example_config true true [])
       (Tuple [Some 0%nat]) example_heap
     = inl (UnboundLocalError "position_ids"))
  ∧ is_raise (LlamaEmbeddingPipe_forward ext (mkEmbeddingPipe example_config) both
                example_heap) = true
  ∧ is_raise (LlamaDecoderLayerPipe_forward ext
                (mkDecoderLayer example_config true true []) both example_heap) = false.
Proof.
  intros ext both.
  split; [|split].
  - destruct (invalid_envelope_fatal_where_checked ext (Tuple [Some 0%nat]) example_heap)
      as (Hbad & _ & _).
    destruct Hbad as (Hparse & _ & Hdec & _).
    { simpl. apply (bool_decide_unpack _). by vm_compute. }
    split; [exact Hparse|apply Hdec].
  - destruct (invalid_envelope_fatal_where_checked ext both example_heap)
      as (_ & Hboth & _).
    apply Hboth. by exists 1%nat, 2%nat, (Some 3%nat), None.
  - destruct (invalid_envelope_fatal_where_checked ext both example_heap)
      as (_ & _ & Hdec).
    apply Hdec.
    + repeat constructor; by eexists.
    + simpl. intros Hbad. apply Hbad. apply (bool_decide_unpack _). by vm_compute.
    + by exists 0%nat.
    + intros h' r kw [t Ht]. simpl. by rewrite Ht.
Defined.

(** C6, as stated, fails at a decoder layer: on "cpu" the four-item
    envelope below leaves both masks populated after resolution, and
    [LlamaDecoderLayerPipe.forward] returns an envelope. *)
Lemma decoder_forward_accepts_both_masks :
  let ext := example_external "cpu" in
  let self := mkDecoderLayer example_config true true [] in
  let args := Tuple [Some 0%nat; Some 1%nat; Some 2%nat; Some 3%nat] in
  both_masks (config_alibi (layer_config self)) (get_env_device ext) args example_heap
  ∧ returned (LlamaDecoderLayerPipe_forward ext self args example_heap)
    = inr (Tuple [Some 4%nat; Some 5%nat; Some 6%nat; Some 7%nat])
  ∧ is_raise (LlamaDecoderLayerPipe_forward ext self args example_heap) = false.
Proof.
  intros ext self args. split; [|split; reflexivity].
  by exists 1%nat, 2%nat, (Some 3%nat), None.
Qed.

End Invalid.

(** ** The mask resolver on an accelerated backend *)

Section Resolver.

(** C4. Without positional bias and on "gpu", the resolver re-reads the
    slots by element type.  An [int32] tensor in the [attention_mask] slot
    is the row-index mask: it moves to that slot, [attention_mask] becomes
    [None] and [position_ids] receives what the row-index slot held.  An
    [int64] tensor in the [attention_mask] slot is [position_ids], and both
    mask slots become [None].  With [attention_mask] absent, an [int64]
    tensor in the row-index slot is [position_ids] and the row-index slot
    becomes [None].  The resolver returns the bindings of [attention_mask],
    [attn_mask_startend_row_indices], [position_ids], [alibi]. *)
Theorem resolve_masks_gpu (h : heap) (am ri pid al : slot) :
  (has_dtype h am int32 = true →
   resolve_masks false "gpu" h am ri pid al = (None, am, ri, al))
  ∧ (has_dtype h am int64 = true →
     resolve_masks false "gpu" h am ri pid al = (None, None, am, al))
  ∧ (am = None → has_dtype h ri int64 = true →
     resolve_masks false "gpu" h am ri pid al = (None, None, ri, al)).
Proof.
  unfold resolve_masks. simpl.
  split; [|split].
  - by intros ->.
  - intros H64. rewrite H64.
    destruct (has_dtype h am int32) eqn:H32; [|done].
    unfold has_dtype in *. destruct am as [r|]; [|done].
    destruct (h !! r) as [t|]; [|done].
    apply bool_decide_eq_true_1 in H32, H64. congruence.
  - intros -> H64. by rewrite H64.
Qed.

Lemma resolve_masks_gpu_witness :
  resolve_masks false "gpu" example_heap (Some 2%nat) (Some 3%nat) None None
  = (None, Some 2%nat, Some 3%nat, None)
  ∧ resolve_masks false "gpu" example_heap (Some 3%nat) None None None
    = (None, None, Some 3%nat, None)
  ∧ resolve_masks false "gpu" example_heap None (Some 3%nat) None None
    = (None, None, Some 3%nat, None).
Proof.
  split; [|split].
  - by apply (resolve_masks_gpu example_heap (Some 2%nat) (Some 3%nat) None None).
  - by apply (resolve_masks_gpu example_heap (Some 3%nat) None None None).
  - by apply (resolve_masks_gpu example_heap None (Some 3%nat) None None).
Defined.

End Resolver.

(** ** The recompute decision *)

Section Recompute.

Lemma should_recompute_true self hg :
  should_recompute self hg = true
  ↔ enable_recompute self = true
    ∧ layerwise_recompute self = true
    ∧ recompute_granularity (layer_config self) = "full"
    ∧ hg = true.
Proof.
  unfold should_recompute.
  rewrite !andb_true_iff, bool_decide_eq_true. tauto.
Qed.

(** C5, as the code has it.  For the decoder layer that [__init__]
    describes at index [i], with whatever [enable_recompute] the layer
    carries: the forward is recomputed exactly when [enable_recompute] is
    set, [i] is not among [no_recompute_layers], the granularity is "full"
    and [hidden_states] requires a gradient.  Hence it is not recomputed
    when [has_gradient] is false, when the granularity is not "full", or
    when [i] is excluded; then the inherited forward is called directly with
    the four keyword arguments, and otherwise through a recompute
    wrapper. *)
Theorem recompute_decision ext config (i : Z) (enable hg : bool)
    (hidden_states attention_mask rows position_ids alibi : slot) :
  ∃ self,
    instantiate_decoder (fst (decoder_desc ext config i)) enable = Some self
    ∧ (should_recompute self hg = true
       ↔ enable = true ∧ (i ∉ excluded_layers config)
         ∧ recompute_granularity config = "full" ∧ hg = true)
    ∧ (if should_recompute self hg then
         ∃ fn kwargs use_reentrant,
           select_call self hg hidden_states attention_mask rows position_ids alibi
           = Recomputed fn hidden_states kwargs use_reentrant
       else
         select_call self hg hidden_states attention_mask rows position_ids alibi
         = Direct hidden_states
             [("position_ids", position_ids); ("attention_mask", attention_mask);
              ("alibi", alibi); ("attn_mask_startend_row_indices", rows)]).
Proof.
  eexists. split; [reflexivity|]. split.
  - rewrite should_recompute_true. simpl. by rewrite bool_decide_eq_true.
  - unfold select_call.
    destruct (should_recompute _ hg); [|done].
    destruct (_ || _); by eauto.
Qed.

(** The three ways the decision is false that C5 names. *)
Corollary no_recompute_cases ext config (i : Z) (enable hg : bool) self :
  instantiate_decoder (fst (decoder_desc ext config i)) enable = Some self →
  hg = false ∨ recompute_granularity config ≠ "full" ∨ i ∈ excluded_layers config →
  should_recompute self hg = false.
Proof.
  intros [= <-] Hcase. apply not_true_is_false. rewrite should_recompute_true. simpl.
  rewrite bool_decide_eq_true.
  intros (_ & Hi & Hg & Hhg). destruct Hcase as [->|[?|?]]; done.
Qed.

(** C5, as stated, fails: granularity "full", a gradient on
    [hidden_states] and a layer that is not excluded do not suffice when the
    layer's [enable_recompute] is not set. *)
Lemma recompute_needs_enable :
  let self := mkDecoderLayer example_config false true [] in
  recompute_granularity (layer_config self) = "full"
  ∧ instantiate_decoder (fst (decoder_desc (example_external "gpu") example_config 0)) false
    = Some self
  ∧ (0 ∉ excluded_layers example_config)
  ∧ should_recompute self true = false
  ∧ select_call self true (Some 0%nat) None None None None
    = Direct (Some 0%nat)
        [("position_ids", None); ("attention_mask", None);
         ("alibi", None); ("attn_mask_startend_row_indices", None)].
Proof.
  repeat split. unfold excluded_layers. simpl. set_solver.
Qed.

End Recompute.

(** ** Segmentation *)

Section Segmentation.

Lemma choose_seg_method_layer (n p : Z) :
  p ≠ 0 →
  choose_seg_method n p = inr "layer:LlamaDecoderLayer" ↔ (p | n).
Proof.
  intros Hp. unfold choose_seg_method.
  rewrite bool_decide_eq_false_2 by done.
  rewrite <- (Z.mod_divide n p) by done.
  case_bool_decide; split; intros; done.
Qed.

Lemma choose_seg_method_uniform (n p : Z) :
  p ≠ 0 →
  choose_seg_method n p = inr "uniform" ↔ ¬ (p | n).
Proof.
  intros Hp. unfold choose_seg_method.
  rewrite bool_decide_eq_false_2 by done.
  rewrite <- (Z.mod_divide n p) by done.
  case_bool_decide; split; intros; done.
Qed.

(** C7. For every pipeline stage count other than zero (on zero Python's
    [%] raises), [__init__] passes [seg_method = "layer:LlamaDecoderLayer"]
    exactly when the stage count divides [num_hidden_layers], and
    ["uniform"] exactly when it does not. *)
Theorem seg_method_by_divisibility ext hcg config :
  pipe_dim_size hcg ≠ 0 →
  ∃ args,
    LlamaForCausalLMPipe_init ext hcg config = inr args
    ∧ (seg_method args = "layer:LlamaDecoderLayer"
       ↔ (pipe_dim_size hcg | num_hidden_layers config))
    ∧ (seg_method args = "uniform"
       ↔ ¬ (pipe_dim_size hcg | num_hidden_layers config)).
Proof.
  intros Hp0.
  pose proof (choose_seg_method_layer (num_hidden_layers config) _ Hp0) as Hl.
  pose proof (choose_seg_method_uniform (num_hidden_layers config) _ Hp0) as Hu.
  unfold LlamaForCausalLMPipe_init. simpl.
  destruct (choose_seg_method _ _) as [e|seg] eqn:Hseg.
  - unfold choose_seg_method in Hseg.
    rewrite bool_decide_eq_false_2 in Hseg by done. by case_bool_decide.
  - eexists. split; [reflexivity|]. simpl.
    split; [rewrite <- Hl | rewrite <- Hu]; split; congruence.
Qed.

Lemma seg_method_by_divisibility_witness :
  ∃ args,
    LlamaForCausalLMPipe_init (example_external "gpu") (mkHcg 1 0 2) example_config
    = inr args
    ∧ (seg_method args = "layer:LlamaDecoderLayer" ↔ (2 | 4))
    ∧ (seg_method args = "uniform" ↔ ¬ (2 | 4)).
Proof.
  apply (seg_method_by_divisibility (example_external "gpu") (mkHcg 1 0 2)
           example_config).
  simpl. lia.
Defined.

End Segmentation.

(** ** The batch splitter *)

Section BatchSplitter.

Implicit Types (d : gmap string pyobj).

Lemma get_expected_keys_first d :
  (get_expected_keys d first_stage_keys).1
  = PyTuple [field d "input_ids"; field d "attention_mask";
             field d "attn_mask_startend_row_indices"; field d "position_ids"].
Proof.
  unfold get_expected_keys, first_stage_keys, field. simpl.
  repeat (rewrite ?lookup_delete_ne by done;
          match goal with
          | |- context [match ?m !! ?k with _ => _ end] => destruct (m !! k); simpl
          end).
  all: done.
Qed.

Lemma get_expected_keys_first_rest d (k : string) :
  k ∉ first_stage_keys →
  (get_expected_keys d first_stage_keys).2 !! k = d !! k.
Proof.
  unfold get_expected_keys, first_stage_keys. intros Hk. simpl.
  repeat match goal with
         | |- context [match ?m !! ?k with _ => _ end] =>
             destruct (m !! k); simpl
         end.
  all: rewrite ?lookup_delete_ne by set_solver; done.
Qed.

(** C8. On the mapping with [input_ids = [1,2,3]],
    [attention_mask = [1,1,1]] and [labels = [4]] the splitter returns the
    first-stage tuple [([1,2,3], [1,1,1], None, None)] and the bare label
    value [[4]].  On every single mapping it returns, without raising, the
    four first-stage fields as a tuple, an absent field read as [None], and
    the one label field unwrapped. *)
Theorem prepare_pipeline_inputs_example :
  _prepare_pipeline_inputs_func (inl example_batch)
  = inr [PyTuple [PyList [PyInt 1; PyInt 2; PyInt 3];
                  PyList [PyInt 1; PyInt 1; PyInt 1]; PyNone; PyNone];
         PyList [PyInt 4]]
  ∧ ∀ d, _prepare_pipeline_inputs_func (inl d)
         = inr [PyTuple [field d "input_ids"; field d "attention_mask";
                         field d "attn_mask_startend_row_indices";
                         field d "position_ids"];
                field d "labels"].
Proof.
  assert (Hall : ∀ d, _prepare_pipeline_inputs_func (inl d)
         = inr [PyTuple [field d "input_ids"; field d "attention_mask";
                         field d "attn_mask_startend_row_indices";
                         field d "position_ids"];
                field d "labels"]).
  { intros d. unfold _prepare_pipeline_inputs_func.
    pose proof (get_expected_keys_first d) as H1.
    pose proof (get_expected_keys_first_rest d "labels") as H2.
    destruct (get_expected_keys d first_stage_keys) as [first d1].
    simpl in H1, H2. subst first.
    unfold get_expected_keys, last_stage_keys, field. simpl.
    rewrite <- H2 by (apply (bool_decide_unpack _); by vm_compute).
    by destruct (d1 !! "labels"). }
  split; [|exact Hall].
  rewrite Hall. unfold field, example_batch. by simplify_map_eq.
Qed.

End BatchSplitter.

(** ** Pooling in the bi-encoder *)

Import LlmEmbed.

Section PoolingFacts.

Variable K : Scalar.
Implicit Types (self : BiEncoderModel) (tok : Tokenizer)
               (hs : hidden K) (m : mask).

Lemma string_app_empty_r (v : string) : v +:+ "" = v.
Proof.
  induction v as [|c v IH]; [done|].
  change (String c (v +:+ "") = String c v). by rewrite IH.
Qed.

Lemma names_suffix (pre v : string) : names (pre +:+ v) v.
Proof. exists pre, "". by rewrite string_app_empty_r. Qed.

Lemma names_middle (pre v post : string) : names (pre +:+ v +:+ post) v.
Proof. by exists pre, post. Qed.

Lemma sentence_embedding_unsupported self hs m :
  sentence_pooling_method self ∉ ["mean"; "cls"; "last"] →
  sentence_embedding K self hs m
  = inl (ValueError ("Invalid sentence pooling method: "
                       +:+ sentence_pooling_method self)).
Proof.
  intros Hm. unfold sentence_embedding.
  rewrite !bool_decide_eq_false_2; [done|..]; intros E; apply Hm; rewrite E;
    apply (bool_decide_unpack _); by vm_compute.
Qed.

Lemma encode_sentences_pooling_padding self tok hs m :
  sentence_pooling_method self = "last" →
  padding_side tok ∉ ["right"; "left"] →
  encode_sentences_pooling K self tok hs m
  = inl (NotImplementedError ("Padding side " +:+ padding_side tok
                                +:+ " not supported.")).
Proof.
  intros Hl Hp. unfold encode_sentences_pooling.
  rewrite Hl, bool_decide_eq_true_2 by done.
  rewrite !bool_decide_eq_false_2; [done|..]; intros E; apply Hp; rewrite E;
    apply (bool_decide_unpack _); by vm_compute.
Qed.

(** What the pooling of the first batch raises, the whole call raises. *)
Lemma encode_sentences_first_batch run_model normalize self tok
    (sentences : list string) hs m e :
  sentences ≠ [] →
  0 < eval_batch_size self →
  tokenizer self = Some tok →
  run_model (take (Z.to_nat (eval_batch_size self)) sentences) = inr (hs, m) →
  encode_sentences_pooling K self tok hs m = inl e →
  encode_sentences K run_model normalize self sentences = inl e.
Proof.
  intros Hne Hbs Htok Hrun Hpool. unfold encode_sentences.
  rewrite !bool_decide_eq_false_2 by lia.
  destruct sentences as [|s0 rest]; [done|]. simpl length.
  cbn [batches]. rewrite Htok. cbn [try_map].
  unfold encode_batch at 1. by rewrite Hrun, Hpool.
Qed.

(** C9, as the code has it.  [sentence_embedding] with a pooling method
    other than "mean", "cls", "last" raises ValueError, and the message
    ends in the method.  The pooling of [encode_sentences] with method
    "last" and a padding side other than "right", "left" raises
    NotImplementedError, the message spells out the side, and the call of
    [encode_sentences] raises it.  [sentence_embedding] does not look at the
    tokenizer: its result is the same whatever the padding side. *)
Theorem pooling_errors_name_the_value run_model normalize self tok hs m
    (sentences : list string) :
  (sentence_pooling_method self ∉ ["mean"; "cls"; "last"] →
   ∃ msg, sentence_embedding K self hs m = inl (ValueError msg)
          ∧ names msg (sentence_pooling_method self))
  ∧ (sentence_pooling_method self = "last" →
     padding_side tok ∉ ["right"; "left"] →
     ∃ msg, encode_sentences_pooling K self tok hs m = inl (NotImplementedError msg)
            ∧ names msg (padding_side tok)
            ∧ (sentences ≠ [] → 0 < eval_batch_size self →
               tokenizer self = Some tok →
               run_model (take (Z.to_nat (eval_batch_size self)) sentences)
               = inr (hs, m) →
               encode_sentences K run_model normalize self sentences
               = inl (NotImplementedError msg)))
  ∧ (∀ tok' : option Tokenizer,
       sentence_embedding K
         (mkBiEncoder (sentence_pooling_method self) tok'
                      (eval_batch_size self) (hidden_size self)) hs m
       = sentence_embedding K self hs m).
Proof.
  split; [|split].
  - intros Hm. eexists. split; [by apply sentence_embedding_unsupported|].
    apply names_suffix.
  - intros Hl Hp. eexists.
    split; [by apply encode_sentences_pooling_padding|].
    split; [apply names_middle|].
    intros Hne Hbs Htok Hrun.
    eapply encode_sentences_first_batch; [done..|].
    by apply encode_sentences_pooling_padding.
  - done.
Qed.

End PoolingFacts.

Lemma pooling_errors_name_the_value_witness :
  (∃ msg, sentence_embedding Z_scalar (example_encoder "max" "right")
            example_hidden example_mask = inl (ValueError msg)
          ∧ names msg "max")
  ∧ (∃ msg, encode_sentences_pooling Z_scalar (example_encoder "last" "top")
              (mkTokenizer "top") example_hidden example_mask
            = inl (NotImplementedError msg)
            ∧ names msg "top"
            ∧ encode_sentences Z_scalar (λ _, inr (example_hidden, example_mask))
                (λ e, e) (example_encoder "last" "top") ["a"; "b"]
              = inl (NotImplementedError msg)).
Proof.
  split.
  - apply (pooling_errors_name_the_value Z_scalar
             (λ _, inr (example_hidden, example_mask)) (λ e, e)
             (example_encoder "max" "right") (mkTokenizer "right")
             example_hidden example_mask []).
    apply (bool_decide_unpack _). by vm_compute.
  - destruct (pooling_errors_name_the_value Z_scalar
                (λ _, inr (example_hidden, example_mask)) (λ e, e)
                (example_encoder "last" "top") (mkTokenizer "top")
                example_hidden example_mask ["a"; "b"])
      as (_ & Hpad & _).
    destruct Hpad as (msg & Hpool & Hnames & Hcall).
    + reflexivity.
    + apply (bool_decide_unpack _). by vm_compute.
    + exists msg. split; [exact Hpool|]. split; [exact Hnames|].
      apply Hcall; [done|simpl; lia|reflexivity|reflexivity].
Defined.

(** C9, as stated, fails in the training path: last-token pooling with a
    tokenizer whose padding side is neither "left" nor "right" returns an
    embedding from [sentence_embedding]. *)
Lemma sentence_embedding_ignores_padding_side :
  sentence_pooling_method (example_encoder "last" "top") = "last"
  ∧ (padding_side <$> tokenizer (example_encoder "last" "top")) = Some "top"
  ∧ sentence_embedding Z_scalar (example_encoder "last" "top")
      example_hidden example_mask = inr [[20]].
Proof. repeat split. Qed.

(** In [encode_sentences] the message for an unsupported method is built
    from [self.pooling_method], an attribute the object does not have: what
    is raised is the AttributeError of that read, and it does not mention
    the method. *)
Lemma encode_sentences_unsupported_method :
  encode_sentences_pooling Z_scalar (example_encoder "max" "right")
    (mkTokenizer "right") example_hidden example_mask
  = inl (AttributeError "'BiEncoderModel' object has no attribute 'pooling_method'")
  ∧ String.index 0 "max" "'BiEncoderModel' object has no attribute 'pooling_method'"
    = None.
Proof. split; reflexivity. Qed.

Section PoolingAgreement.

Variable K : Scalar.
Implicit Types (self : BiEncoderModel) (tok : Tokenizer)
               (hs : hidden K) (m : mask).

(** Last-token pooling with right padding is the same expression in both
    functions. *)
Lemma last_pooling_agrees self tok hs m :
  sentence_pooling_method self = "last" →
  padding_side tok = "right" →
  encode_sentences_pooling K self tok hs m = sentence_embedding K self hs m.
Proof.
  intros Hl Hp. unfold encode_sentences_pooling, sentence_embedding.
  rewrite Hl, Hp. reflexivity.
Qed.

(** Mean pooling agrees when multiplying and dividing by an integer entry
    is the same as converting the entry first. *)
Lemma mean_pooling_agrees self tok hs m :
  (∀ x w, mul_int K x w = mul K x (float K w)) →
  (∀ x d, div_int K x d = div K x (float K d)) →
  sentence_pooling_method self = "mean" →
  encode_sentences_pooling K self tok hs m = sentence_embedding K self hs m.
Proof.
  intros Hmul Hdiv Hmean.
  assert (Hrow : ∀ H row mrow,
             mean_row_promoted K H row mrow = mean_row_float K H row mrow).
  { intros H row mrow. unfold mean_row_float, mean_row_promoted.
    destruct (zip_axis row mrow) as [e|toks]; [done|].
    f_equal.
    replace ((λ vw : list (F K) * Z, (λ x, mul_int K x vw.2) <$> vw.1) <$> toks)
      with ((λ vw : list (F K) * Z, (λ x, mul K x (float K vw.2)) <$> vw.1) <$> toks).
    - apply list_fmap_ext. intros _ x _. by rewrite Hdiv.
    - apply list_fmap_ext. intros _ [v w] _. simpl.
      apply list_fmap_ext. intros _ x _. by rewrite Hmul. }
  unfold encode_sentences_pooling, sentence_embedding.
  rewrite Hmean. simpl.
  destruct (zip_axis hs m) as [e|rows]; [done|].
  induction rows as [|[row mrow] rows IH]; [done|]. simpl.
  by rewrite IH, Hrow.
Qed.

End PoolingAgreement.

(** C10 does not hold of the code: for "cls" pooling [sentence_embedding]
    takes the token at position 0 and [encode_sentences] the token at
    position 1, so the two embeddings differ; on a one-token batch the
    first returns and the second raises. *)
Theorem cls_pooling_positions_differ :
  sentence_embedding Z_scalar (example_encoder "cls" "right")
    example_hidden example_mask = inr [[10]]
  ∧ encode_sentences_pooling Z_scalar (example_encoder "cls" "right")
      (mkTokenizer "right") example_hidden example_mask = inr [[20]]
  ∧ sentence_embedding Z_scalar (example_encoder "cls" "right") [[[10]]] [[1]]
    = inr [[10]]
  ∧ encode_sentences_pooling Z_scalar (example_encoder "cls" "right")
      (mkTokenizer "right") [[[10]]] [[1]]
    = inl (IndexError "index out of range").
Proof. repeat split. Qed.

(** ** The definitions at work on small inputs *)

Section Runs.

(** The first stage on token ids with a dense mask: the envelope that
    leaves carries the embeddings and a prepared mask. *)
Example embedding_forward_runs :
  returned (LlamaEmbeddingPipe_forward (example_external "gpu")
              (mkEmbeddingPipe example_config)
              (Tuple [Some 0%nat; Some 1%nat]) example_heap)
  = inr (Tuple [Some 5%nat; Some 6%nat]).
Proof. reflexivity. Qed.

(** On "gpu" a row-index mask in the second position is recognised by its
    [int32] elements; the envelope that leaves carries the new hidden
    states, a clone of the row-index mask and a clone of the position ids. *)
Example decoder_forward_runs :
  returned (LlamaDecoderLayerPipe_forward (example_external "gpu")
              (mkDecoderLayer example_config true true [])
              (Tuple [Some 0%nat; Some 2%nat; Some 3%nat]) example_heap)
  = inr (Tuple [Some 4%nat; Some 5%nat; Some 6%nat]).
Proof. reflexivity. Qed.

(** A sequence of examples is transposed field by field before the split. *)
Example prepare_pipeline_inputs_batch :
  _prepare_pipeline_inputs_func (inr example_batches)
  = inr [PyTuple [PyList [PyList [PyInt 1; PyInt 2]; PyList [PyInt 3; PyInt 4]];
                  PyNone; PyNone; PyNone];
         PyList [PyInt 7; PyInt 8]].
Proof. by vm_compute. Qed.

Example encode_sentences_runs :
  encode_sentences Z_scalar (λ _, inr (example_hidden, example_mask)) (λ e, e)
    (example_encoder "last" "right") ["a"; "b"]
  = inr [[20]].
Proof. reflexivity. Qed.

Example mean_pooling_runs :
  sentence_embedding Z_scalar (example_encoder "mean" "right")
    example_hidden example_mask = inr [[15]].
Proof. reflexivity. Qed.

End Runs.

(** * Further properties of the pipeline stages *)

Section Handover.

Implicit Types (h : heap) (hs am ri pid al : slot).

(** Destructs the four auxiliary slots and their validity. *)
Ltac slot_cases am ri pid al :=
  destruct am as [?r1|], ri as [?r2|], pid as [?r3|], al as [?r4|];
  repeat match goal with
         | H : valid _ (Some _) |- _ => destruct H as [? ?]
         | H : valid _ None |- _ => clear H
         end.

(** Brings the equation of [return_args_run] to concrete lists. *)
Ltac run_return Hrun :=
  unfold originals, copies_at in Hrun; simpl in Hrun;
  repeat match goal with
         | H : _ !! _ = Some _ |- _ => rewrite !H in Hrun
         end; simpl in Hrun.

Ltac solve_decoded :=
  repeat match goal with
         | |- _ ∧ _ => split
         | |- True => exact I
         | |- Forall2 _ _ _ => constructor
         | |- decoded _ _ _ _ => unfold decoded
         | |- ∃ t t', _ =>
             eexists _, _; split; [eassumption|];
             split; [by rewrite lookup_fresh|done]
         end.

(** The same for [decoded_clone]: the reference lies behind the caller's
    store. *)
Ltac solve_decoded_clone :=
  repeat match goal with
         | |- _ ∧ _ => split
         | |- True => exact I
         | |- Forall2 _ _ _ => constructor
         | |- decoded_clone _ _ _ _ => unfold decoded_clone
         | |- _ !! _ = None => apply lookup_ge_None_2; lia
         | Hr : _ !! ?r = Some _ |- _ ≠ ?r =>
             pose proof (lookup_lt_Some _ _ _ Hr); lia
         | |- ∃ t t', _ =>
             eexists _, _; split; [eassumption|];
             split; [by rewrite lookup_fresh|done]
         | |- ∀ r t, _ !! r = Some t → _ =>
             intros ? ? ?; by apply lookup_app_l_Some
         end.

(** X1. Round trip for any combination of populated slots.  [hidden_states]
    always comes back in its own slot; the populated auxiliary slots come
    back as clones, in order, moved to the left: a gap in the arguments is
    closed on the wire.  Each clone is an object the caller's store did not
    have, of the same value and marked non-differentiable; the caller's own
    objects are as they were. *)
Theorem parse_return_compacts h hs am ri pid al :
  valid h am → valid h ri → valid h pid → valid h al →
  ∃ env h1 a b c d h2,
    return_args hs am ri pid al h = inr (env, h1)
    ∧ parse_args env h1 = inr ((hs, a, b, c, d), h2)
    ∧ Forall2 (decoded_clone h h2) (compacted [am; ri; pid; al]) [a; b; c; d]
    ∧ ∀ r t, h !! r = Some t → h2 !! r = Some t.
Proof.
  intros Ha Hr Hp Hl.
  pose proof (return_args_run h hs am ri pid al Ha Hr Hp Hl) as Hrun.
  slot_cases am ri pid al.
  all: run_return Hrun.
  all: do 7 eexists; split; [exact Hrun|].
  all: first [ rewrite parse_args_tuple5 | rewrite parse_args_tuple4
             | rewrite parse_args_tuple3 | rewrite parse_args_tuple2
             | rewrite parse_args_bare ].
  all: split; [reflexivity|].
  all: unfold marked, compacted; simpl; rewrite ?alter_app_r; simpl.
  all: solve_decoded_clone.
Qed.

Lemma parse_return_compacts_witness :
  ∃ env h1 a b c d h2,
    return_args (Some 0%nat) None (Some 2%nat) None (Some 3%nat) example_heap
    = inr (env, h1)
    ∧ parse_args env h1 = inr ((Some 0%nat, a, b, c, d), h2)
    ∧ Forall2 (decoded_clone example_heap h2)
        (compacted [None; Some 2%nat; None; Some 3%nat]) [a; b; c; d]
    ∧ ∀ r t, example_heap !! r = Some t → h2 !! r = Some t.
Proof.
  apply (parse_return_compacts example_heap (Some 0%nat) None (Some 2%nat) None
           (Some 3%nat)); by (exact I || eexists).
Defined.

Lemma handover_run alibi_variant device h hs am ri pid al env h1 hs' a b c d h2 :
  return_args hs am ri pid al h = inr (env, h1) →
  parse_args env h1 = inr ((hs', a, b, c, d), h2) →
  handover alibi_variant device hs am ri pid al h
  = inr ((hs', resolve_masks alibi_variant device h2 a b c d), h2).
Proof.
  intros Hret Hparse. unfold handover, mbind, M_bind, bind.
  by rewrite Hret, Hparse.
Qed.

(** From the concrete equation of [return_args], the equation of
    [handover] with the resolver still to be evaluated. *)
Ltac run_handover alibi device Hrun Hh :=
  match type of Hrun with
  | return_args _ _ _ _ _ _ = inr (Tuple [?x0; ?a; ?b; ?c; ?d], ?h1) =>
      pose proof (handover_run alibi device _ _ _ _ _ _ _ _ _ _ _ _ _ _
                    Hrun (parse_args_tuple5 x0 a b c d h1)) as Hh
  | return_args _ _ _ _ _ _ = inr (Tuple [?x0; ?a; ?b; ?c], ?h1) =>
      pose proof (handover_run alibi device _ _ _ _ _ _ _ _ _ _ _ _ _ _
                    Hrun (parse_args_tuple4 x0 a b c h1)) as Hh
  | return_args _ _ _ _ _ _ = inr (Tuple [?x0; ?a; ?b], ?h1) =>
      pose proof (handover_run alibi device _ _ _ _ _ _ _ _ _ _ _ _ _ _
                    Hrun (parse_args_tuple3 x0 a b h1)) as Hh
  | return_args _ _ _ _ _ _ = inr (Tuple [?x0; ?a], ?h1) =>
      pose proof (handover_run alibi device _ _ _ _ _ _ _ _ _ _ _ _ _ _
                    Hrun (parse_args_tuple2 x0 a h1)) as Hh
  | return_args _ _ _ _ _ _ = inr (Bare ?x0, ?h1) =>
      pose proof (handover_run alibi device _ _ _ _ _ _ _ _ _ _ _ _ _ _
                    Hrun (parse_args_bare x0 h1)) as Hh
  end;
  unfold marked in Hh; simpl in Hh; rewrite ?alter_app_r in Hh; simpl in Hh.

(** X2. On "gpu" without positional bias the element types carry the slots
    across a stage boundary.  If [attention_mask] is neither [int32] nor
    [int64], the row-index mask is [int32] and the position ids are [int64],
    then for each of the eight combinations of populated slots the next
    layer resolves the envelope to clones in the same slots: objects the
    sender's store did not have, of the same value and marked
    non-differentiable, the sender's own objects being as they were. *)
Theorem handover_gpu_keeps_slots h hs am ri pid :
  valid h am → valid h ri → valid h pid →
  slot_dtype (λ d, d ≠ int32 ∧ d ≠ int64) h am →
  slot_dtype (λ d, d = int32) h ri →
  slot_dtype (λ d, d = int64) h pid →
  ∃ am' ri' pid' h2,
    handover false "gpu" hs am ri pid None h = inr ((hs, (am', ri', pid', None)), h2)
    ∧ decoded_clone h h2 am am' ∧ decoded_clone h h2 ri ri'
    ∧ decoded_clone h h2 pid pid'
    ∧ ∀ r t, h !! r = Some t → h2 !! r = Some t.
Proof.
  intros Ha Hr Hp Da Dr Dp.
  pose proof (return_args_run h hs am ri pid None Ha Hr Hp I) as Hrun.
  destruct am as [r1|], ri as [r2|], pid as [r3|];
    repeat match goal with
           | H : valid _ (Some _) |- _ => clear H
           | H : valid _ None |- _ => clear H
           | H : slot_dtype _ _ (Some _) |- _ => destruct H as (? & ? & ?)
           | H : slot_dtype _ _ None |- _ => clear H
           | H : _ ∧ _ |- _ => destruct H
           end.
  all: run_return Hrun.
  all: run_handover false "gpu" Hrun Hh.
  all: unfold resolve_masks in Hh; simpl in Hh.
  all: rewrite ?lookup_fresh in Hh; simpl in Hh.
  all: repeat match goal with
              | H : dtype _ = _ |- _ => rewrite !H in Hh
              end; simpl in Hh.
  all: rewrite ?bool_decide_eq_false_2 in Hh by done; simpl in Hh.
  all: do 4 eexists; (split; [exact Hh|]).
  all: solve_decoded_clone.
Qed.

Lemma handover_gpu_keeps_slots_witness :
  ∃ am' ri' pid' h2,
    handover false "gpu" (Some 0%nat) None (Some 2%nat) (Some 3%nat) None example_heap
    = inr ((Some 0%nat, (am', ri', pid', None)), h2)
    ∧ decoded_clone example_heap h2 None am'
    ∧ decoded_clone example_heap h2 (Some 2%nat) ri'
    ∧ decoded_clone example_heap h2 (Some 3%nat) pid'
    ∧ ∀ r t, example_heap !! r = Some t → h2 !! r = Some t.
Proof.
  apply (handover_gpu_keeps_slots example_heap (Some 0%nat) None (Some 2%nat)
           (Some 3%nat)).
  - exact I.
  - by eexists.
  - by eexists.
  - exact I.
  - by eexists.
  - by eexists.
Defined.

(** X3. With positional bias, an envelope that carries [attention_mask] and
    [alibi] and no row-index mask is read back slot for slot, with or
    without position ids, on every backend and whatever the element types. *)
Theorem handover_alibi_keeps_slots device h hs am pid al :
  is_Some am → is_Some al →
  valid h am → valid h pid → valid h al →
  ∃ am' pid' al' h2,
    handover true device hs am None pid al h = inr ((hs, (am', None, pid', al')), h2)
    ∧ decoded h h2 am am' ∧ decoded h h2 pid pid' ∧ decoded h h2 al al'.
Proof.
  intros [r1 ->] [r4 ->] Ha Hp Hl.
  pose proof (return_args_run h hs (Some r1) None pid (Some r4) Ha I Hp Hl) as Hrun.
  destruct pid as [r3|];
    repeat match goal with
           | H : valid _ (Some _) |- _ => destruct H as [? ?]
           | H : valid _ None |- _ => clear H
           end.
  all: run_return Hrun.
  all: run_handover true device Hrun Hh.
  all: do 4 eexists; (split; [exact Hh|]).
  all: solve_decoded.
Qed.

Lemma handover_alibi_keeps_slots_witness :
  ∃ am' pid' al' h2,
    handover true "npu" (Some 0%nat) (Some 1%nat) None (Some 3%nat) (Some 1%nat)
      example_heap
    = inr ((Some 0%nat, (am', None, pid', al')), h2)
    ∧ decoded example_heap h2 (Some 1%nat) am'
    ∧ decoded example_heap h2 (Some 3%nat) pid'
    ∧ decoded example_heap h2 (Some 1%nat) al'.
Proof.
  apply (handover_alibi_keeps_slots "npu" example_heap (Some 0%nat) (Some 1%nat)
           (Some 3%nat) (Some 1%nat)); by eexists.
Defined.

(** X4. Off "gpu" and without positional bias, an envelope with
    [attention_mask] and no row-index mask is read back slot for slot, with
    or without position ids. *)
Theorem handover_other_device_keeps_slots device h hs am pid :
  device ≠ "gpu" → is_Some am →
  valid h am → valid h pid →
  ∃ am' pid' h2,
    handover false device hs am None pid None h = inr ((hs, (am', None, pid', None)), h2)
    ∧ decoded h h2 am am' ∧ decoded h h2 pid pid'.
Proof.
  intros Hdev [r1 ->] Ha Hp.
  pose proof (return_args_run h hs (Some r1) None pid None Ha I Hp I) as Hrun.
  assert (Hgpu : bool_decide (device ∈ ["gpu"]) = false).
  { apply bool_decide_eq_false_2. rewrite list_elem_of_singleton. done. }
  destruct pid as [r3|];
    repeat match goal with
           | H : valid _ (Some _) |- _ => destruct H as [? ?]
           | H : valid _ None |- _ => clear H
           end.
  all: run_return Hrun.
  all: run_handover false device Hrun Hh.
  all: unfold resolve_masks in Hh; simpl in Hh; rewrite Hgpu in Hh; simpl in Hh.
  all: do 3 eexists; (split; [exact Hh|]).
  all: solve_decoded.
Qed.

Lemma handover_other_device_keeps_slots_witness :
  ∃ am' pid' h2,
    handover false "npu" (Some 0%nat) (Some 1%nat) None (Some 3%nat) None example_heap
    = inr ((Some 0%nat, (am', None, pid', None)), h2)
    ∧ decoded example_heap h2 (Some 1%nat) am'
    ∧ decoded example_heap h2 (Some 3%nat) pid'.
Proof.
  apply (handover_other_device_keeps_slots "npu" example_heap (Some 0%nat)
           (Some 1%nat) (Some 3%nat)); by (done || eexists).
Defined.

(** X5. What the positional wire format cannot express off "gpu": a row-index
    mask sent without an attention mask arrives in the [attention_mask]
    slot, and the row-index slot is empty. *)
Theorem handover_other_device_misreads_rows device h hs r t :
  device ≠ "gpu" → h !! r = Some t →
  ∃ r' h2,
    handover false device hs None (Some r) None None h
    = inr ((hs, (Some r', None, None, None)), h2)
    ∧ decoded h h2 (Some r) (Some r').
Proof.
  intros Hdev Hr.
  pose proof (return_args_run h hs None (Some r) None None I (ex_intro _ t Hr) I I)
    as Hrun.
  assert (Hgpu : bool_decide (device ∈ ["gpu"]) = false).
  { apply bool_decide_eq_false_2. rewrite list_elem_of_singleton. done. }
  run_return Hrun.
  run_handover false device Hrun Hh.
  unfold resolve_masks in Hh; simpl in Hh; rewrite Hgpu in Hh; simpl in Hh.
  do 2 eexists; (split; [exact Hh|]).
  solve_decoded.
Qed.

Lemma handover_other_device_misreads_rows_witness :
  ∃ r' h2,
    handover false "cpu" (Some 0%nat) None (Some 2%nat) None None example_heap
    = inr ((Some 0%nat, (Some r', None, None, None)), h2)
    ∧ decoded example_heap h2 (Some 2%nat) (Some r').
Proof.
  apply (handover_other_device_misreads_rows "cpu" example_heap (Some 0%nat)
           2%nat (mkTensor int32 [1; 1; 3; 1] [3; 3; 3] false)); done.
Defined.

End Handover.

(** ** The resolver as a function on slots *)

Section ResolverAlgebra.

Implicit Types (h : heap) (am ri pid al : slot).

Lemma has_dtype_exclusive h x d d' :
  d ≠ d' → has_dtype h x d = true → has_dtype h x d' = false.
Proof.
  unfold has_dtype. intros Hne.
  destruct x as [r|]; [|done]. destruct (h !! r) as [t|]; [|done].
  intros Hd%bool_decide_eq_true_1. apply bool_decide_eq_false_2. congruence.
Qed.

(** X6. The resolver settles: run on its own result it changes nothing, for
    every variant, backend, store and slot contents.  A layer that resolves
    slots which were resolved already does no harm. *)
Theorem resolve_masks_idempotent alibi_variant device h am ri pid al :
  ∀ a b c d,
    resolve_masks alibi_variant device h am ri pid al = (a, b, c, d) →
    resolve_masks alibi_variant device h a b c d = (a, b, c, d).
Proof.
  intros a b c d. unfold resolve_masks.
  destruct alibi_variant; simpl.
  - destruct al, pid, ri; simpl; intros [= <- <- <- <-]; done.
  - destruct (bool_decide (device ∈ ["gpu"])).
    + destruct (has_dtype h am int32) eqn:E32.
      { intros [= <- <- <- <-]. simpl.
        by rewrite (has_dtype_exclusive h am int32 int64). }
      destruct (has_dtype h am int64) eqn:E64.
      { intros [= <- <- <- <-]. done. }
      destruct (has_dtype h ri int64) eqn:R64.
      { intros [= <- <- <- <-]. by rewrite E32, E64. }
      intros [= <- <- <- <-]. by rewrite E32, E64, R64.
    + destruct pid, ri; simpl; intros [= <- <- <- <-]; done.
Qed.

Lemma resolve_masks_idempotent_witness :
  resolve_masks false "gpu" example_heap None (Some 2%nat) (Some 3%nat) None
  = (None, Some 2%nat, Some 3%nat, None).
Proof.
  apply (resolve_masks_idempotent false "gpu" example_heap (Some 2%nat)
           (Some 3%nat) None None).
  reflexivity.
Defined.

(** X7. The resolver only moves what it was given: each slot of the result is
    empty or holds one of the four incoming values. *)
Theorem resolve_masks_moves_only alibi_variant device h am ri pid al :
  ∀ a b c d,
    resolve_masks alibi_variant device h am ri pid al = (a, b, c, d) →
    Forall (λ x, x = None ∨ x ∈ [am; ri; pid; al]) [a; b; c; d].
Proof.
  intros a b c d Hres.
  assert (Hin : ∀ x, x ∈ [a; b; c; d] → x = None ∨ x ∈ [am; ri; pid; al]).
  { revert Hres. unfold resolve_masks.
    repeat match goal with
           | |- context [if ?c then _ else _] => destruct c
           end.
    all: intros [= <- <- <- <-] x Hx.
    all: rewrite !elem_of_cons, elem_of_nil in Hx.
    all: rewrite !elem_of_cons, elem_of_nil.
    all: destruct Hx as [->|[->|[->|[->|[]]]]]; tauto. }
  rewrite Forall_forall. exact Hin.
Qed.

Lemma resolve_masks_moves_only_witness :
  Forall (λ x, x = None ∨ x ∈ [Some 2%nat; Some 3%nat; None; None])
    [None; Some 2%nat; Some 3%nat; None].
Proof.
  apply (resolve_masks_moves_only false "gpu" example_heap (Some 2%nat)
           (Some 3%nat) None None).
  reflexivity.
Defined.

End ResolverAlgebra.

(** ** What a stage leaves untouched *)

Section Frame.

Implicit Types (h : heap) (x : slot).

Lemma keeps_values_refl h : keeps_values h h.
Proof. intros r t Hr. by exists t. Qed.

Lemma keeps_values_trans h1 h2 h3 :
  keeps_values h1 h2 → keeps_values h2 h3 → keeps_values h1 h3.
Proof.
  intros H12 H23 r t Hr.
  destruct (H12 r t Hr) as (t2 & Hr2 & (Hd & Hs & Hv) & Hg).
  destruct (H23 r t2 Hr2) as (t3 & Hr3 & (Hd' & Hs' & Hv') & Hg').
  exists t3. repeat split; [done|congruence..|by auto].
Qed.

Lemma keeps_values_app h ts : keeps_values h (h ++ ts).
Proof. intros r t Hr. exists t. split; [by apply lookup_app_l_Some|done]. Qed.

Lemma vp_ret {A} (a : A) : value_preserving (mret a).
Proof. intros h a' h' [= _ <-]. apply keeps_values_refl. Qed.

Lemma vp_raise {A} e : value_preserving (raise (A:=A) e).
Proof. by intros h a h'. Qed.

Lemma vp_lift {A} (r : result A) : value_preserving (lift r).
Proof.
  intros h a h'. unfold lift. destruct r; [done|].
  intros [= _ <-]. apply keeps_values_refl.
Qed.

Lemma vp_get_heap : value_preserving get_heap.
Proof. intros h a h' [= _ <-]. apply keeps_values_refl. Qed.

Lemma vp_assert c msg : value_preserving (assert c msg).
Proof. destruct c; [apply vp_ret|apply vp_raise]. Qed.

Lemma vp_deref x attr : value_preserving (deref x attr).
Proof.
  intros h a h'. unfold deref. destruct x as [r|]; [|done].
  destruct (h !! r); [|done]. intros [= _ <-]. apply keeps_values_refl.
Qed.

Lemma vp_alloc t : value_preserving (alloc t).
Proof. intros h a h' [= _ <-]. apply keeps_values_app. Qed.

Lemma vp_clone r : value_preserving (clone r).
Proof.
  intros h a h'. unfold clone. destruct (h !! r); [|done].
  intros [= _ <-]. apply keeps_values_app.
Qed.

Lemma vp_mark x : value_preserving (mark x).
Proof.
  destruct x as [r|]; [|apply vp_ret].
  intros h a h' [= _ <-] r' t Hr'.
  rewrite list_lookup_alter. case_decide; subst; rewrite Hr'; simpl.
  - by eexists.
  - by exists t.
Qed.

Lemma vp_bind {A B} (m : M A) (k : A → M B) :
  value_preserving m → (∀ a, value_preserving (k a)) →
  value_preserving (m ≫= k).
Proof.
  intros Hm Hk h b h'. unfold mbind, M_bind, bind.
  destruct (m h) as [e|[a h1]] eqn:E; [done|]. intros Hkb.
  eapply keeps_values_trans; [by eapply Hm|by eapply Hk].
Qed.

(** Decomposes a computation into the primitives above. *)
Ltac vp :=
  repeat first
    [ apply vp_ret | apply vp_raise | apply vp_lift | apply vp_get_heap
    | apply vp_assert | apply vp_deref | apply vp_alloc | apply vp_clone
    | apply vp_mark
    | apply vp_bind; [|intros ?]
    | match goal with
      | |- value_preserving (match ?x with _ => _ end) => destruct x
      end ].

Lemma vp_parse_args args : value_preserving (parse_args args).
Proof. unfold parse_args. vp. Qed.

Lemma vp_return_args hs am ri pid al :
  value_preserving (return_args hs am ri pid al).
Proof. unfold return_args, append_clone. vp. Qed.

(** X8. Whatever envelope it is given and whatever the external operators
    return, a decoder layer that returns has left every tensor that
    existed before the call with its element type, shape and contents, and
    has cleared no [stop_gradient] flag. *)
Theorem decoder_forward_keeps_values ext self args h env h' :
  LlamaDecoderLayerPipe_forward ext self args h = inr (env, h') →
  keeps_values h h'.
Proof.
  revert h env h'. change (value_preserving (LlamaDecoderLayerPipe_forward ext self args)).
  unfold LlamaDecoderLayerPipe_forward.
  apply vp_bind; [apply vp_parse_args|]. intros [[[[? ?] ?] ?] ?].
  apply vp_bind; [apply vp_get_heap|]. intros h1.
  destruct (resolve_masks _ _ _ _ _ _ _) as [[[? ?] ?] ?].
  apply vp_bind; [apply vp_deref|]. intros hs.
  apply vp_bind; [unfold run_call; vp|]. intros ?.
  apply vp_return_args.
Qed.

Lemma decoder_forward_keeps_values_witness :
  ∃ env h',
    LlamaDecoderLayerPipe_forward (example_external "gpu")
      (mkDecoderLayer example_config true true [])
      (Tuple [Some 0%nat; Some 2%nat; Some 3%nat]) example_heap = inr (env, h')
    ∧ keeps_values example_heap h'.
Proof.
  eexists _, _. split; [vm_compute; reflexivity|].
  apply (decoder_forward_keeps_values (example_external "gpu")
           (mkDecoderLayer example_config true true [])
           (Tuple [Some 0%nat; Some 2%nat; Some 3%nat]) example_heap
           (Tuple [Some 4%nat; Some 5%nat; Some 6%nat])).
  reflexivity.
Defined.

(** X9. The same for the embedding layer: token ids and masks handed to the
    first stage keep their value. *)
Theorem embedding_forward_keeps_values ext self args h env h' :
  LlamaEmbeddingPipe_forward ext self args h = inr (env, h') →
  keeps_values h h'.
Proof.
  revert h env h'. change (value_preserving (LlamaEmbeddingPipe_forward ext self args)).
  unfold LlamaEmbeddingPipe_forward.
  apply vp_bind; [apply vp_parse_args|]. intros [[[[? ?] ?] ?] ?].
  apply vp_bind; [apply vp_get_heap|]. intros h1.
  destruct (resolve_masks _ _ _ _ _ _ _) as [[[? ?] ?] ?].
  apply vp_bind; [vp|]. intros ids.
  apply vp_bind; [vp|]. intros emb.
  apply vp_bind; [vp|]. intros emb'.
  apply vp_bind; [unfold unpack_shape; vp|]. intros [b sl].
  apply vp_bind; [unfold embedding_alibi; vp|]. intros ?.
  apply vp_bind; [unfold embedding_attention_mask; vp|]. intros ?.
  apply vp_bind; [vp|]. intros ?.
  apply vp_bind; [vp|]. intros ?.
  apply vp_return_args.
Qed.

Lemma embedding_forward_keeps_values_witness :
  ∃ env h',
    LlamaEmbeddingPipe_forward (example_external "gpu")
      (mkEmbeddingPipe example_config)
      (Tuple [Some 0%nat; Some 1%nat]) example_heap = inr (env, h')
    ∧ keeps_values example_heap h'.
Proof.
  eexists _, _. split; [vm_compute; reflexivity|].
  eapply (embedding_forward_keeps_values (example_external "gpu")
            (mkEmbeddingPipe example_config)
            (Tuple [Some 0%nat; Some 1%nat]) example_heap).
  vm_compute; reflexivity.
Defined.

End Frame.

(** ** What the first stage sends *)

Section FirstStage.

Implicit Types (h : heap) (x am ri pid al : slot).

Lemma bind_inr {A B} (m : M A) (k : A → M B) h b h' :
  (m ≫= k) h = inr (b, h') →
  ∃ a h1, m h = inr (a, h1) ∧ k a h1 = inr (b, h').
Proof.
  unfold mbind, M_bind, bind. destruct (m h) as [e|[a h1]]; [done|]. eauto.
Qed.

Lemma ret_inr {A} (a b : A) h h' :
  (mret a : M A) h = inr (b, h') → a = b ∧ h = h'.
Proof. by intros [= -> ->]. Qed.

(** Splits a successful run at its first bind. *)
Tactic Notation "step" hyp(H) "as" ident(a) ident(h1) ident(Hm) :=
  apply bind_inr in H as (a & h1 & Hm & H).

Lemma lift_inr {A} (r : result A) h (a : A) h' :
  lift r h = inr (a, h') → r = inr a ∧ h' = h.
Proof. unfold lift. destruct r; [done|]. by intros [= -> ->]. Qed.

Lemma alloc_inr t h (r : ref) h' :
  alloc t h = inr (r, h') → r = length h ∧ h' = h ++ [t].
Proof. by intros [= <- <-]. Qed.

Lemma deref_inr x attr h t h' :
  deref x attr h = inr (t, h') → h' = h ∧ x ≫= (h !!.) = Some t.
Proof.
  unfold deref. destruct x as [r|]; [|done]. simpl.
  destruct (h !! r); [|done]. by intros [= -> ->].
Qed.

Lemma assert_inr c msg h u h' :
  assert c msg h = inr (u, h') → c = true ∧ h' = h.
Proof. destruct c; [|done]. by intros [= _ ->]. Qed.

Lemma unpack_shape_inr t h bs sl h' :
  unpack_shape t h = inr ((bs, sl), h') → shape t = [bs; sl] ∧ h' = h.
Proof.
  unfold unpack_shape. destruct (shape t) as [|b [|s [|]]]; try done.
  by intros [= -> -> ->].
Qed.

Lemma parse_args_inr_arity args h p h1 :
  parse_args args h = inr (p, h1) → ¬ bad_arity args.
Proof.
  intros H Hbad. destruct args as [xs|x]; [|done].
  by rewrite parse_args_bad_arity in H.
Qed.

(** The block under [if self.config.alibi:], when it returns, has found
    no row-index mask and has allocated the bias. *)
Lemma embedding_alibi_run ext config am ri bs sl d h x h' :
  embedding_alibi ext config am ri bs sl d h = inr (x, h') →
  ri = None
  ∧ ∃ tb, first_stage_alibi ext config (am ≫= (h !!.)) bs sl d tb
          ∧ x = Some (length h) ∧ h' = h ++ [tb].
Proof.
  unfold embedding_alibi. intros H.
  step H as u h1 Hassert. apply assert_inr in Hassert as [Hri ->].
  split; [by destruct ri|].
  step H as mask h2 Hmask.
  assert (Hm : mask = default (ones [bs; sl] bool_) (am ≫= (h !!.)) ∧ h2 = h).
  { destruct am as [r|].
    - apply deref_inr in Hmask as [-> Hr]. by rewrite Hr.
    - by apply ret_inr in Hmask as [<- <-]. }
  destruct Hm as [-> ->]. clear Hmask.
  step H as a1 h3 Hbuild. apply lift_inr in Hbuild as [Hbuild ->].
  step H as a2 h4 Hshape. step H as r h5 Halloc.
  apply alloc_inr in Halloc as [-> ->]. apply ret_inr in H as [<- <-].
  assert (h4 = h ∧ if bool_decide (tensor_parallel_degree config > 1) then
            let block_size :=
              num_attention_heads config `div` tensor_parallel_degree config in
            ∃ s, slice_heads ext a1 (tensor_parallel_rank config * block_size)
                   ((tensor_parallel_rank config + 1) * block_size) = inr s
                 ∧ reshape ext s [bs * block_size; 1; sl] = inr a2
          else reshape ext a1 [bs * num_attention_heads config; 1; sl] = inr a2)
    as [-> Hcut].
  { destruct (bool_decide (tensor_parallel_degree config > 1)).
    - step Hshape as s h6 Hslice. apply lift_inr in Hslice as [Hslice ->].
      apply lift_inr in Hshape as [Hshape ->]. split; [done|]. by exists s.
    - by apply lift_inr in Hshape as [Hshape ->]. }
  exists (with_stop_gradient true a2). split; [|done].
  by exists a1, a2.
Qed.

(** The block that prepares the attention mask, when it returns, has
    allocated a mask, except off "npu" when none came in. *)
Lemma embedding_attention_mask_run ext am ri bs sl d h x h' :
  embedding_attention_mask ext am ri bs sl d h = inr (x, h') →
  (am = None ∧ get_env_device ext ≠ "npu" ∧ x = None ∧ h' = h)
  ∨ ((is_Some am ∨ get_env_device ext = "npu")
     ∧ ∃ tm, first_stage_mask ext (am ≫= (h !!.)) bs sl d tm
             ∧ x = Some (length h) ∧ h' = h ++ [tm]).
Proof.
  unfold embedding_attention_mask. intros H.
  destruct am as [r|].
  - right. split; [by eauto|].
    step H as u h1 Hassert. apply assert_inr in Hassert as [_ ->].
    step H as t h2 Ht. apply deref_inr in Ht as [-> Ht].
    step H as m h3 Hprep. apply lift_inr in Hprep as [Hprep ->].
    step H as m' h4 Hcast. step H as r' h5 Halloc.
    apply alloc_inr in Halloc as [-> ->]. apply ret_inr in H as [<- <-].
    exists m'. rewrite Ht. simpl.
    destruct (bool_decide (get_env_device ext = "npu")).
    + apply lift_inr in Hcast as [Hcast ->]. split; [by exists m|done].
    + apply ret_inr in Hcast as [<- <-]. split; [by exists m|done].
  - simpl. destruct (decide (get_env_device ext = "npu")) as [Hnpu|Hnpu].
    + right. split; [by right|].
      rewrite bool_decide_eq_true_2 in H |- * by done.
      step H as m h1 Htril. apply lift_inr in Htril as [Htril ->].
      step H as r' h2 Halloc. apply alloc_inr in Halloc as [-> ->].
      apply ret_inr in H as [<- <-].
      exists (with_stop_gradient true m). split; [by exists m|done].
    + left. rewrite bool_decide_eq_false_2 in H by done.
      by apply ret_inr in H as [<- <-].
Qed.

(** The embeddings: [embed_tokens] and, when sequence parallelism is on,
    the scatter. *)
Lemma embedding_embeds_run ext config ids h emb h1 emb' h2 :
  lift (embed_tokens ext ids) h = inr (emb, h1) →
  (if sequence_parallel config
   then lift (sequence_parallel_scatter ext emb)
   else mret emb) h1 = inr (emb', h2) →
  first_stage_embeds ext config ids emb' ∧ h2 = h.
Proof.
  intros [Hemb ->]%lift_inr Hsc. unfold first_stage_embeds.
  destruct (sequence_parallel config).
  - apply lift_inr in Hsc as [Hsc ->]. split; [by exists emb|done].
  - apply ret_inr in Hsc as [<- <-]. split; [by exists emb|done].
Qed.

(** The first stage up to its [return]: what it has read, the objects it
    has allocated and the arguments it hands to [return_args]. *)
Lemma embedding_forward_run ext self args h env h' :
  Forall (valid h) (items args) →
  LlamaEmbeddingPipe_forward ext self args h = inr (env, h') →
  let config := embedding_config self in
  ∃ ids src pid ri bs sl h1 te (new : list Tensor) (am' al' : slot),
    first_stage_reads (config_alibi config) (get_env_device ext) args h
    = Some (ids, src, pid)
    ∧ shape ids = [bs; sl]
    ∧ first_stage_embeds ext config ids te
    ∧ length h1 = length h
    ∧ (∀ r t, h !! r = Some t → ∃ t', h1 !! r = Some t' ∧ same_value t t')
    ∧ valid h pid ∧ valid h ri
    ∧ (∀ (p : ref) t, pid = Some p → h1 !! p = Some t → stop_gradient t = true)
    ∧ return_args (Some (length (h1 ++ new))) am' ri pid al' ((h1 ++ new) ++ [te])
      = inr (env, h')
    ∧ (if config_alibi config
       then ri = None
            ∧ ∃ tb tm, first_stage_alibi ext config src bs sl (dtype te) tb
                       ∧ first_stage_mask ext src bs sl (dtype te) tm
                       ∧ new = [tb; tm]
                       ∧ al' = Some (length h1) ∧ am' = Some (S (length h1))
       else al' = None
            ∧ ((src = None ∧ get_env_device ext ≠ "npu" ∧ new = [] ∧ am' = None)
               ∨ ((is_Some src ∨ get_env_device ext = "npu")
                  ∧ ∃ tm, first_stage_mask ext src bs sl (dtype te) tm
                          ∧ new = [tm] ∧ am' = Some (length h1)))).
Proof.
  intros Hval H config. unfold LlamaEmbeddingPipe_forward in H. fold config in H.
  step H as parsed h1 Hparse. destruct parsed as [[[[ids0 am0] ri0] pid0] al0].
  step H as hh h2 Hheap. injection Hheap as <- <-.
  destruct (resolve_masks (config_alibi config) (get_env_device ext) h1 am0 ri0 pid0 al0)
    as [[[am ri] pid] al] eqn:Hres.
  pose proof (parse_args_inr_arity _ _ _ _ Hparse) as Hnb.
  destruct (resolved_valid _ _ _ _ _ _ _ _ _ _ _ _ _ _ Hval Hnb Hparse Hres)
    as (Hlen & _ & Hslots).
  destruct (parse_args_run args h Hnb)
    as (? & ? & ? & ? & ? & ? & Hparse' & _ & _ & _ & Hsg).
  rewrite Hparse in Hparse'. injection Hparse' as <- <- <- <- <- <-.
  pose proof (vp_parse_args args h _ h1 Hparse) as Hkeep.
  assert (Ham : valid h1 am).
  { eapply valid_length; [|apply Hslots; rewrite !elem_of_cons; tauto]. lia. }
  step H as ids h3 Hids.
  assert (Hi : h3 = h1 ∧ ∃ i : ref, ids0 = Some i ∧ h1 !! i = Some ids).
  { destruct ids0 as [i|]; [|done]. apply deref_inr in Hids as [-> Hi]. by eauto. }
  destruct Hi as (-> & i & -> & Hi). clear Hids.
  step H as emb h4 Hemb. step H as te h5 Hscatter.
  destruct (embedding_embeds_run _ _ _ _ _ _ _ _ Hemb Hscatter) as [Hte ->].
  clear Hemb Hscatter.
  step H as bs h6 Hshape. destruct bs as [bs sl].
  apply unpack_shape_inr in Hshape as [Hshape ->].
  step H as al1 h7 Hal. step H as am1 h8 Ham1. step H as am2 h9 Ham2.
  step H as e h10 Halloc. apply alloc_inr in Halloc as [-> ->].
  assert (Hsrc : ∀ ts, am ≫= ((h1 ++ ts) !!.) = am ≫= (h1 !!.)).
  { intros ts. destruct am as [r|]; [|done]. destruct Ham as [t Ht]. simpl.
    by rewrite (lookup_app_l_Some _ _ _ _ Ht). }
  exists ids, (am ≫= (h1 !!.)), pid, ri, bs, sl, h1, te.
  assert (Hreads : first_stage_reads (config_alibi config) (get_env_device ext) args h
                   = Some (ids, am ≫= (h1 !!.), pid)).
  { unfold first_stage_reads. rewrite Hparse, Hres, Hi. done. }
  assert (Hpid : ∀ (p : ref) t, pid = Some p → h1 !! p = Some t → stop_gradient t = true).
  { intros p t -> Hp.
    destruct (resolve_masks_in _ _ _ _ _ _ _ _ _ _ _ Hres (Some p)) as [[=]|Hin].
    { rewrite !elem_of_cons. tauto. }
    by eapply Hsg. }
  assert (Hkeep' : ∀ r t, h !! r = Some t → ∃ t', h1 !! r = Some t' ∧ same_value t t').
  { intros r t Hr. destruct (Hkeep r t Hr) as (t' & Hr' & Hv & _). by eauto. }
  assert (Hvp : valid h pid) by (apply Hslots; rewrite !elem_of_cons; tauto).
  assert (Hvr : valid h ri) by (apply Hslots; rewrite !elem_of_cons; tauto).
  destruct (config_alibi config) eqn:Halibi; simpl in Hal, Ham2.
  - apply embedding_alibi_run in Hal as (-> & tb & Htb & -> & ->).
    apply embedding_attention_mask_run in Ham1
      as [(Hnone & Hdev & -> & ->)|(Hsome & tm & Htm & -> & ->)].
    + simpl in Ham2. step Ham2 as m h11 Hprep.
      apply lift_inr in Hprep as [Hprep ->].
      step Ham2 as r h12 Halloc. apply alloc_inr in Halloc as [-> ->].
      apply ret_inr in Ham2 as [<- <-].
      exists [tb; with_stop_gradient true m], (Some (S (length h1))), (Some (length h1)).
      replace ((h1 ++ [tb]) ++ [with_stop_gradient true m])
        with (h1 ++ [tb; with_stop_gradient true m]) in H by (by rewrite <- app_assoc).
      replace (length (h1 ++ [tb])) with (S (length h1)) in H
        by (rewrite length_app; simpl; lia).
      do 9 (split; [done|]). split; [done|].
      exists tb, (with_stop_gradient true m).
      split; [done|]. split; [|done].
      subst am. simpl. rewrite bool_decide_eq_false_2 by done. by exists m.
    + simpl in Ham2. apply ret_inr in Ham2 as [<- <-].
      exists [tb; tm], (Some (S (length h1))), (Some (length h1)).
      replace ((h1 ++ [tb]) ++ [tm]) with (h1 ++ [tb; tm]) in H
        by (by rewrite <- app_assoc).
      replace (length (h1 ++ [tb])) with (S (length h1)) in H
        by (rewrite length_app; simpl; lia).
      rewrite Hsrc in Htm.
      do 9 (split; [done|]). split; [done|].
      by exists tb, tm.
  - apply ret_inr in Hal as [<- <-]. apply ret_inr in Ham2 as [<- <-].
    apply embedding_attention_mask_run in Ham1
      as [(-> & Hdev & -> & ->)|(Hsome & tm & Htm & -> & ->)].
    + exists [], None, None. rewrite app_nil_r.
      do 9 (split; [done|]). split; [done|]. by left.
    + exists [tm], (Some (length h1)), None.
      do 9 (split; [done|]). split; [done|]. right.
      split.
      * destruct Hsome as [[r ->]|?]; [left|by right].
        destruct Ham as [t Ht]. simpl. rewrite Ht. by eexists.
      * by exists tm.
Qed.

(** X10. With positional bias the first stage, when it returns, sends an
    envelope of three or four items and never a row-index mask.  The first
    item is the embedding of the token ids.  The second is a clone of the
    attention mask it prepared from the incoming mask, or from none.  The
    last is a clone of the bias it built.  Incoming position ids travel
    between the two as a clone: an object the caller did not have, of the
    same value and marked non-differentiable. *)
Theorem embedding_forward_alibi_envelope ext self args h env h' :
  config_alibi (embedding_config self) = true →
  Forall (valid h) (items args) →
  LlamaEmbeddingPipe_forward ext self args h = inr (env, h') →
  ∃ ids src pid bs sl (e m b : ref) te tm tb,
    first_stage_reads true (get_env_device ext) args h = Some (ids, src, pid)
    ∧ shape ids = [bs; sl]
    ∧ h' !! e = Some te ∧ first_stage_embeds ext (embedding_config self) ids te
    ∧ h' !! m = Some tm ∧ first_stage_mask ext src bs sl (dtype te) tm
    ∧ h' !! b = Some tb
    ∧ first_stage_alibi ext (embedding_config self) src bs sl (dtype te) tb
    ∧ match pid with
      | None => items env = [Some e; Some m; Some b]
      | Some p0 =>
          ∃ p : ref, items env = [Some e; Some m; Some p; Some b]
                     ∧ decoded_clone h h' (Some p0) (Some p)
      end.
Proof.
  intros Halibi Hval H.
  destruct (embedding_forward_run _ _ _ _ _ _ Hval H)
    as (ids & src & pid & ri & bs & sl & h1 & te & new & am' & al'
        & Hreads & Hshape & Hte & Hlen & Hkeep & Hvp & _ & Hsg & Hret & Hnew).
  rewrite Halibi in Hreads, Hnew.
  destruct Hnew as (-> & tb & tm & Htb & Htm & -> & -> & ->).
  set (h0 := (h1 ++ [tb; tm]) ++ [te]) in *.
  assert (Hlen0 : length h0 = (length h1 + 3)%nat).
  { unfold h0. rewrite !length_app. simpl. lia. }
  assert (Hb0 : h0 !! length h1 = Some tb).
  { unfold h0. rewrite <- app_assoc.
    rewrite <- (Nat.add_0_r (length h1)). by rewrite lookup_fresh. }
  assert (Hm0 : h0 !! S (length h1) = Some tm).
  { unfold h0. rewrite <- app_assoc, <- Nat.add_1_r. by rewrite lookup_fresh. }
  assert (He0 : h0 !! length (h1 ++ [tb; tm]) = Some te).
  { unfold h0. rewrite <- (Nat.add_0_r (length (h1 ++ [tb; tm]))).
    by rewrite lookup_fresh. }
  assert (Hvp0 : valid h0 pid) by (eapply valid_length; [|exact Hvp]; lia).
  rewrite (return_args_run h0 _ (Some (S (length h1))) None pid (Some (length h1)))
    in Hret; [|by eexists|exact I|exact Hvp0|by eexists].
  exists ids, src, pid, bs, sl.
  destruct pid as [p0|].
  - destruct Hvp as [tp Htp]. destruct (Hkeep _ _ Htp) as (tp' & Htp' & Hsame).
    assert (Hp0 : h0 !! p0 = Some tp').
    { unfold h0. rewrite <- app_assoc. by apply lookup_app_l_Some. }
    unfold originals, copies_at in Hret. simpl in Hret.
    rewrite Hm0, Hp0, Hb0 in Hret. simpl in Hret.
    injection Hret as <- <-.
    exists (length (h1 ++ [tb; tm])), (length h0 + 0)%nat, (length h0 + 2)%nat, te, tm, tb.
    split; [done|]. split; [done|].
    split; [by apply lookup_app_l_Some|]. split; [done|].
    split; [by rewrite lookup_fresh|]. split; [done|].
    split; [by rewrite lookup_fresh|]. split; [done|].
    exists (length h0 + 1)%nat. split; [done|].
    pose proof (lookup_lt_Some _ _ _ Htp).
    split; [apply lookup_ge_None_2; lia|]. split; [lia|].
    exists tp, tp'. split; [done|]. split; [by rewrite lookup_fresh|].
    split; [done|]. by eapply Hsg.
  - unfold originals, copies_at in Hret. simpl in Hret.
    rewrite Hm0, Hb0 in Hret. simpl in Hret.
    injection Hret as <- <-.
    exists (length (h1 ++ [tb; tm])), (length h0 + 0)%nat, (length h0 + 1)%nat, te, tm, tb.
    split; [done|]. split; [done|].
    split; [by apply lookup_app_l_Some|]. split; [done|].
    split; [by rewrite lookup_fresh|]. split; [done|].
    split; [by rewrite lookup_fresh|]. done.
Qed.

Lemma embedding_forward_alibi_envelope_witness :
  let ext := example_external "gpu" in
  let self := mkEmbeddingPipe (with_alibi example_config) in
  let args := Tuple [Some 0%nat; Some 1%nat; Some 3%nat] in
  ∃ env h',
    LlamaEmbeddingPipe_forward ext self args example_heap = inr (env, h')
    ∧ ∃ ids src pid bs sl (e m b : ref) te tm tb,
        first_stage_reads true "gpu" args example_heap = Some (ids, src, pid)
        ∧ shape ids = [bs; sl]
        ∧ h' !! e = Some te ∧ first_stage_embeds ext (with_alibi example_config) ids te
        ∧ h' !! m = Some tm ∧ first_stage_mask ext src bs sl (dtype te) tm
        ∧ h' !! b = Some tb
        ∧ first_stage_alibi ext (with_alibi example_config) src bs sl (dtype te) tb
        ∧ match pid with
          | None => items env = [Some e; Some m; Some b]
          | Some p0 =>
              ∃ p : ref, items env = [Some e; Some m; Some p; Some b]
                         ∧ decoded_clone example_heap h' (Some p0) (Some p)
          end.
Proof.
  intros ext self args. eexists _, _. split; [vm_compute; reflexivity|].
  apply (embedding_forward_alibi_envelope ext self args example_heap).
  - reflexivity.
  - repeat constructor; by eexists.
  - vm_compute. reflexivity.
Defined.

(** With an attention mask to send, the item behind [hidden_states] is its
    clone. *)
Lemma return_args_first_clone h hs (m0 : ref) ri pid al tm env h' :
  h !! m0 = Some tm → valid h ri → valid h pid → valid h al →
  return_args hs (Some m0) ri pid al h = inr (env, h') →
  ∃ rest, items env = hs :: Some (length h) :: rest
          ∧ h' !! length h = Some tm
          ∧ ∀ r t, h !! r = Some t → h' !! r = Some t.
Proof.
  intros Hm0 Hr Hp Hl.
  rewrite return_args_run by (done || by eexists).
  unfold originals, copies_at. simpl. rewrite Hm0. simpl.
  intros [= <- <-]. rewrite Nat.add_0_r.
  eexists. split; [reflexivity|]. split.
  - rewrite <- (Nat.add_0_r (length h)). by rewrite lookup_fresh.
  - intros r t Hrt. by apply lookup_app_l_Some.
Qed.

(** X11. On "npu" the first stage, when it returns, always sends an
    attention mask, as the second item of the envelope, behind the
    embedding of the token ids.  When a mask came in, the item is a clone
    of the prepared mask, marked non-differentiable and cast to [bool];
    when none came in, it is a clone of the lower triangle of a
    [seq_length] by [seq_length] tensor of ones, marked
    non-differentiable. *)
Theorem embedding_forward_npu_sends_mask ext self args h env h' :
  get_env_device ext = "npu" →
  Forall (valid h) (items args) →
  LlamaEmbeddingPipe_forward ext self args h = inr (env, h') →
  ∃ ids src pid bs sl (e m : ref) te tm rest,
    first_stage_reads (config_alibi (embedding_config self)) "npu" args h
    = Some (ids, src, pid)
    ∧ shape ids = [bs; sl]
    ∧ items env = Some e :: Some m :: rest
    ∧ h' !! e = Some te ∧ first_stage_embeds ext (embedding_config self) ids te
    ∧ h' !! m = Some tm
    ∧ match src with
      | Some _ =>
          ∃ p, _prepare_decoder_attention_mask ext src (bs, sl) 0 (dtype te) = inr p
               ∧ astype ext (with_stop_gradient true p) bool_ = inr tm
      | None =>
          ∃ p, tril ext (ones [sl; sl] bool_) = inr p
               ∧ tm = with_stop_gradient true p
      end.
Proof.
  intros Hnpu Hval H.
  destruct (embedding_forward_run _ _ _ _ _ _ Hval H)
    as (ids & src & pid & ri & bs & sl & h1 & te & new & am' & al'
        & Hreads & Hshape & Hte & Hlen & Hkeep & Hvp & Hvr & Hsg & Hret & Hnew).
  rewrite Hnpu in Hreads.
  assert (Hmask : ∀ tm, first_stage_mask ext src bs sl (dtype te) tm →
            match src with
            | Some _ =>
                ∃ p, _prepare_decoder_attention_mask ext src (bs, sl) 0 (dtype te) = inr p
                     ∧ astype ext (with_stop_gradient true p) bool_ = inr tm
            | None =>
                ∃ p, tril ext (ones [sl; sl] bool_) = inr p
                     ∧ tm = with_stop_gradient true p
            end).
  { intros tm. unfold first_stage_mask.
    rewrite (bool_decide_eq_true_2 _ Hnpu). by destruct src. }
  assert (Hnew' : ∃ pre tm (m0 : ref),
            new = pre ++ [tm] ∧ am' = Some m0 ∧ m0 = length (h1 ++ pre)
            ∧ first_stage_mask ext src bs sl (dtype te) tm ∧ valid (h1 ++ new) al').
  { destruct (config_alibi (embedding_config self)).
    - destruct Hnew as (_ & tb & tm & _ & Htm & -> & -> & ->).
      exists [tb], tm, (S (length h1)). split; [done|]. split; [done|].
      split; [rewrite length_app; simpl; lia|]. split; [done|].
      unfold valid. rewrite <- (Nat.add_0_r (length h1)), lookup_fresh. by eexists.
    - destruct Hnew as (-> & [(_ & Hdev & _)|(_ & tm & Htm & -> & ->)]); [done|].
      exists [], tm, (length h1). split; [done|]. split; [done|].
      split; [by rewrite app_nil_r|]. by split. }
  destruct Hnew' as (pre & tm & m0 & -> & -> & -> & Htm & Hal).
  set (h0 := (h1 ++ pre ++ [tm]) ++ [te]) in *.
  assert (Hm0 : h0 !! length (h1 ++ pre) = Some tm).
  { unfold h0. rewrite <- !app_assoc, (app_assoc h1 pre).
    rewrite <- (Nat.add_0_r (length (h1 ++ pre))). by rewrite lookup_fresh. }
  assert (He0 : h0 !! length (h1 ++ pre ++ [tm]) = Some te).
  { unfold h0. rewrite <- (Nat.add_0_r (length (h1 ++ pre ++ [tm]))).
    by rewrite lookup_fresh. }
  assert (Hlen0 : (length h ≤ length h0)%nat).
  { unfold h0. rewrite !length_app. lia. }
  assert (Hvr0 : valid h0 ri) by by eapply valid_length.
  assert (Hvp0 : valid h0 pid) by by eapply valid_length.
  assert (Hal0 : valid h0 al').
  { eapply valid_length; [|exact Hal]. unfold h0. rewrite !length_app. lia. }
  destruct (return_args_first_clone _ _ _ _ _ _ _ _ _ Hm0 Hvr0 Hvp0 Hal0 Hret)
    as (rest & Hitems & Hm' & Hframe).
  exists ids, src, pid, bs, sl, (length (h1 ++ pre ++ [tm])), (length h0), te, tm, rest.
  split; [done|]. split; [done|]. split; [done|].
  split; [by apply Hframe|]. split; [done|]. split; [done|].
  by apply Hmask.
Qed.

Lemma embedding_forward_npu_sends_mask_witness :
  let ext := example_external "npu" in
  let self := mkEmbeddingPipe example_config in
  let args := Bare (Some 0%nat) in
  ∃ env h',
    LlamaEmbeddingPipe_forward ext self args example_heap = inr (env, h')
    ∧ ∃ ids src pid bs sl (e m : ref) te tm rest,
        first_stage_reads false "npu" args example_heap = Some (ids, src, pid)
        ∧ shape ids = [bs; sl]
        ∧ items env = Some e :: Some m :: rest
        ∧ h' !! e = Some te ∧ first_stage_embeds ext example_config ids te
        ∧ h' !! m = Some tm
        ∧ match src with
          | Some _ =>
              ∃ p, _prepare_decoder_attention_mask ext src (bs, sl) 0 (dtype te) = inr p
                   ∧ astype ext (with_stop_gradient true p) bool_ = inr tm
          | None =>
              ∃ p, tril ext (ones [sl; sl] bool_) = inr p
                   ∧ tm = with_stop_gradient true p
          end.
Proof.
  intros ext self args. eexists _, _. split; [vm_compute; reflexivity|].
  apply (embedding_forward_npu_sends_mask ext self args example_heap).
  - reflexivity.
  - repeat constructor; by eexists.
  - vm_compute. reflexivity.
Defined.

End FirstStage.

(** ** The final norm stage *)

Section NormStage.

Implicit Types (h : heap) (am ri pid al : slot).

Lemma norm_forward_run ext env h1 (r : ref) a b c d h2 t t' :
  parse_args env h1 = inr ((Some r, a, b, c, d), h2) →
  h2 !! r = Some t →
  rms_norm ext t = inr t' →
  LlamaRMSNormPipe_forward ext env h1 = inr (Some (length h2), h2 ++ [t']).
Proof.
  intros Hparse Hr Hnorm.
  unfold LlamaRMSNormPipe_forward, mbind, M_bind, bind.
  rewrite Hparse. simpl. unfold deref. rewrite Hr. unfold lift. by rewrite Hnorm.
Qed.

(** X12. Whatever auxiliary slots the last decoder layer sends, in any
    combination, the norm stage normalises the hidden states it sent:
    [hidden_states] is never mistaken for anything else. *)
Theorem norm_stage_reads_hidden_states ext h (r : ref) t t' am ri pid al :
  h !! r = Some t →
  rms_norm ext t = inr t' →
  valid h am → valid h ri → valid h pid → valid h al →
  ∃ env h1 r' h2,
    return_args (Some r) am ri pid al h = inr (env, h1)
    ∧ LlamaRMSNormPipe_forward ext env h1 = inr (Some r', h2)
    ∧ h2 !! r' = Some t'.
Proof.
  intros Hr Hnorm Ha Hri Hp Hl.
  pose proof (return_args_run h (Some r) am ri pid al Ha Hri Hp Hl) as Hrun.
  destruct am as [r1|], ri as [r2|], pid as [r3|], al as [r4|];
    repeat match goal with
           | H : valid _ (Some _) |- _ => destruct H as [? ?]
           | H : valid _ None |- _ => clear H
           end.
  all: unfold originals, copies_at in Hrun; simpl in Hrun.
  all: repeat match goal with
              | H : _ !! _ = Some _ |- _ => progress (rewrite !H in Hrun)
              end; simpl in Hrun.
  all: eexists _, _, _, _; split; [exact Hrun|].
  all: split;
    [ eapply norm_forward_run;
      [ first [ apply parse_args_tuple5 | apply parse_args_tuple4
              | apply parse_args_tuple3 | apply parse_args_tuple2
              | apply parse_args_bare ]
      | unfold marked; simpl; rewrite ?alter_app_r; simpl;
        try (apply lookup_app_l_Some); exact Hr
      | exact Hnorm ]
    | by apply list_lookup_middle ].
Qed.

Lemma norm_stage_reads_hidden_states_witness :
  ∃ env h1 r' h2,
    return_args (Some 0%nat) None (Some 2%nat) None (Some 1%nat) example_heap
    = inr (env, h1)
    ∧ LlamaRMSNormPipe_forward (example_external "gpu") env h1 = inr (Some r', h2)
    ∧ h2 !! r' = Some (mkTensor int64 [1; 3] [5; 6; 7] true).
Proof.
  apply (norm_stage_reads_hidden_states (example_external "gpu") example_heap
           0%nat (mkTensor int64 [1; 3] [5; 6; 7] true)
           (mkTensor int64 [1; 3] [5; 6; 7] true) None (Some 2%nat) None
           (Some 1%nat)); by (reflexivity || eexists).
Defined.

End NormStage.

(** ** The layer catalogue *)

Section Catalogue.

Lemma init_layers ext hcg config args :
  LlamaForCausalLMPipe_init ext hcg config = inr args →
  ∃ first head,
    layers args
    = [first]
      ++ (decoder_desc ext (init_config hcg config)
            <$> seqZ 0 (num_hidden_layers config))
      ++ [(LayerDesc LlamaRMSNormPipe_class (init_config hcg config) NoKwargs, "llama");
          head]
    ∧ first.2 = "llama" ∧ head.2 = "lm_head"
    ∧ desc_class first.1 = LlamaEmbeddingPipe_class
    ∧ desc_class head.1 = LlamaLMHeadPipe_class
    ∧ desc_config first.1 = init_config hcg config
    ∧ desc_config head.1 = init_config hcg config
    ∧ shared_weight first.1 = shared_weight head.1
    ∧ shared_weight first.1
      = (if tie_word_embeddings config
         then Some ("llama_shared_weight", "embedding_weight") else None).
Proof.
  unfold LlamaForCausalLMPipe_init. fold (init_config hcg config). simpl.
  destruct (choose_seg_method _ _); [done|]. intros [= <-]. simpl.
  eexists _, _. split; [reflexivity|].
  by destruct (tie_word_embeddings config).
Qed.

(** X13. The catalogue [__init__] builds, whenever it returns: the embedding
    first, then one decoder layer per hidden layer in index order, each
    named ["llama.layers.i"] and told to recompute exactly when [i] is not in
    [no_recompute_layers], then the norm and the head; [n + 3] descriptors
    for [n] hidden layers (three when [num_hidden_layers] is not
    positive). *)
Theorem init_catalogue_order ext hcg config args :
  LlamaForCausalLMPipe_init ext hcg config = inr args →
  let n := Z.to_nat (num_hidden_layers config) in
  length (layers args) = (n + 3)%nat
  ∧ (∃ d, layers args !! 0%nat = Some (d, "llama")
          ∧ desc_class d = LlamaEmbeddingPipe_class)
  ∧ (∀ i : nat, (i < n)%nat →
       layers args !! S i
       = Some (LayerDesc LlamaDecoderLayerPipe_class (init_config hcg config)
                 (DecoderKwargs
                    (bool_decide (Z.of_nat i ∉ excluded_layers config))
                    (get_skip_recompute_ops ext (init_config hcg config) (Z.of_nat i))),
               "llama.layers." +:+ pretty (Z.of_nat i)))
  ∧ (∃ d, layers args !! S n = Some (d, "llama")
          ∧ desc_class d = LlamaRMSNormPipe_class)
  ∧ (∃ d, layers args !! S (S n) = Some (d, "lm_head")
          ∧ desc_class d = LlamaLMHeadPipe_class).
Proof.
  intros Hinit n.
  destruct (init_layers _ _ _ _ Hinit)
    as ([d0 n0] & [d1 n1] & -> & Hn0 & Hn1 & Hc0 & Hc1 & _).
  simpl in *. subst n0 n1.
  assert (Hlen : length (decoder_desc ext (init_config hcg config)
                           <$> seqZ 0 (num_hidden_layers config)) = n).
  { by rewrite length_fmap, length_seqZ. }
  split; [|split; [|split; [|split]]].
  - rewrite length_app, Hlen. simpl. lia.
  - by exists d0.
  - intros i Hi. rewrite lookup_app_l by (rewrite Hlen; lia).
    rewrite list_lookup_fmap, lookup_seqZ_lt by lia. simpl.
    unfold decoder_desc. by rewrite Z.add_0_l.
  - exists (LayerDesc LlamaRMSNormPipe_class (init_config hcg config) NoKwargs).
    split; [|done].
    rewrite lookup_app_r by (rewrite Hlen; lia). rewrite Hlen.
    by replace (n - n)%nat with 0%nat by lia.
  - exists d1. split; [|done].
    rewrite lookup_app_r by (rewrite Hlen; lia). rewrite Hlen.
    by replace (S n - n)%nat with 1%nat by lia.
Qed.

Lemma init_catalogue_order_witness :
  ∃ args,
    LlamaForCausalLMPipe_init (example_external "gpu") (mkHcg 1 0 2) example_config
    = inr args
    ∧ length (layers args) = 7%nat.
Proof.
  eexists. split; [vm_compute; reflexivity|].
  eapply (init_catalogue_order (example_external "gpu") (mkHcg 1 0 2) example_config).
  vm_compute; reflexivity.
Defined.

Lemma head_and_last_ends {A} (a c : A) (l l' : list A) :
  l' = a :: l ++ [c] → head_and_last l' = Some (a, c).
Proof.
  intros ->. unfold head_and_last.
  change (a :: l ++ [c]) with ((a :: l) ++ [c]). by rewrite last_snoc.
Qed.

(** X14. Every descriptor of the catalogue carries one and the same
    configuration, in which the tensor-parallel degree is at least 1 and the
    rank at least 0 whatever the communication group reports; and the
    embedding and the head are in the shared-weight group
    ["llama_shared_weight"], through the attribute ["embedding_weight"],
    exactly when [tie_word_embeddings] is set: never one without the
    other. *)
Theorem init_catalogue_config ext hcg config args :
  LlamaForCausalLMPipe_init ext hcg config = inr args →
  Forall (λ l, desc_config l.1 = init_config hcg config) (layers args)
  ∧ 1 ≤ tensor_parallel_degree (init_config hcg config)
  ∧ 0 ≤ tensor_parallel_rank (init_config hcg config)
  ∧ ∃ first head,
      head_and_last (layers args) = Some (first, head)
      ∧ shared_weight first.1 = shared_weight head.1
      ∧ shared_weight first.1
        = (if tie_word_embeddings config
           then Some ("llama_shared_weight", "embedding_weight") else None).
Proof.
  intros Hinit.
  destruct (init_layers _ _ _ _ Hinit)
    as (first & head & -> & _ & _ & _ & _ & Hc0 & Hc1 & Hs & Ht).
  split; [|split; [simpl; lia|split; [simpl; lia|]]].
  - apply Forall_app. split; [by repeat constructor|].
    apply Forall_app. split; [|by repeat constructor].
    apply Forall_fmap, Forall_forall. by intros i _.
  - exists first, head. split; [|done].
    apply (head_and_last_ends first head
             ((decoder_desc ext (init_config hcg config)
                 <$> seqZ 0 (num_hidden_layers config))
              ++ [(LayerDesc LlamaRMSNormPipe_class (init_config hcg config) NoKwargs,
                   "llama")])).
    simpl. by rewrite <- app_assoc.
Qed.

Lemma init_catalogue_config_witness :
  ∃ args,
    LlamaForCausalLMPipe_init (example_external "gpu") (mkHcg 0 (-1) 2) example_config
    = inr args
    ∧ Forall (λ l, tensor_parallel_degree (desc_config l.1) = 1) (layers args).
Proof.
  eexists. split; [vm_compute; reflexivity|].
  destruct (init_catalogue_config (example_external "gpu") (mkHcg 0 (-1) 2)
              example_config _ eq_refl) as (Hall & _).
  eapply Forall_impl; [exact Hall|]. intros l ->. reflexivity.
Defined.

End Catalogue.

(** ** Attribute lookup through wrappers *)

Section GetAttrFacts.

Variable V : Type.
Implicit Types (l : GetAttr.layer V) (name : string).

Lemma get_attr_hit_iff l name v :
  GetAttr.get_attr V l name = inr v
  ↔ ∃ before li after,
      GetAttr.chain V l = before ++ li :: after
      ∧ Forall (λ x, GetAttr.getattr V x name = None) before
      ∧ GetAttr.getattr V li name = Some v.
Proof.
  remember (length (GetAttr.chain V l)) as n eqn:Hn. revert l Hn.
  induction n as [n IHn] using lt_wf_ind. intros [cls a i] Hn.
  assert (IH : ∀ l', i = Some (Some l') →
            GetAttr.get_attr V l' name = inr v
            ↔ ∃ before li after,
                GetAttr.chain V l' = before ++ li :: after
                ∧ Forall (λ x, GetAttr.getattr V x name = None) before
                ∧ GetAttr.getattr V li name = Some v).
  { intros l' ->. apply (IHn (length (GetAttr.chain V l'))); [|done].
    subst n. cbn. lia. }
  clear IHn Hn.
  destruct (GetAttr.getattr V (GetAttr.Layer V cls a i) name) as [w|] eqn:Hg.
  - cbn [GetAttr.get_attr]. rewrite Hg. split.
    + intros [= <-]. eexists [], _, _. split; [reflexivity|]. by split.
    + intros (before & li & after & Hch & Hnone & Hv).
      destruct before as [|b before].
      * cbn in Hch. injection Hch as <- _. congruence.
      * cbn in Hch. injection Hch as <- _.
        apply Forall_cons_1 in Hnone as [Hb _]. congruence.
  - cbn [GetAttr.get_attr]. rewrite Hg. cbn [GetAttr.inner GetAttr.chain].
    destruct i as [[l'|]|].
    + rewrite (IH l' eq_refl). split.
      * intros (before & li & after & Hch & Hnone & Hv).
        exists (GetAttr.Layer V cls a (Some (Some l')) :: before), li, after.
        rewrite Hch. split; [done|]. split; [by constructor|done].
      * intros (before & li & after & Hch & Hnone & Hv).
        destruct before as [|b before].
        { cbn in Hch. injection Hch as <- _. congruence. }
        cbn in Hch. injection Hch as <- Hch.
        apply Forall_cons_1 in Hnone as [_ Hnone]. by exists before, li, after.
    + split; [done|]. intros (before & li & after & Hch & Hnone & Hv).
      destruct before as [|b before]; cbn in Hch.
      * injection Hch as <- _. congruence.
      * injection Hch as _ Hch. by destruct before.
    + split; [done|]. intros (before & li & after & Hch & Hnone & Hv).
      destruct before as [|b before]; cbn in Hch.
      * injection Hch as <- _. congruence.
      * injection Hch as _ Hch. by destruct before.
Qed.

Lemma first_hit_or_none name (ls : list (GetAttr.layer V)) :
  Forall (λ x, GetAttr.getattr V x name = None) ls
  ∨ ∃ before li after v,
      ls = before ++ li :: after
      ∧ Forall (λ x, GetAttr.getattr V x name = None) before
      ∧ GetAttr.getattr V li name = Some v.
Proof.
  induction ls as [|x ls IH]; [by left|].
  destruct (GetAttr.getattr V x name) as [v|] eqn:Hx.
  - right. by exists [], x, ls, v.
  - destruct IH as [Hall|(before & li & after & v & -> & Hnone & Hv)].
    + left. by constructor.
    + right. exists (x :: before), li, after, v. split; [done|].
      split; [by constructor|done].
Qed.

(** X15. [get_attr] answers with the outermost layer of the wrapper chain on
    which the attribute is set and not [None]: the layers in front of it,
    where the attribute is missing or [None], are passed over, and what lies
    behind it is not consulted.  It raises AttributeError exactly when the
    attribute is missing or [None] on every layer of the chain. *)
Theorem get_attr_searches_chain l name :
  (∀ v, GetAttr.get_attr V l name = inr v
        ↔ ∃ before li after,
            GetAttr.chain V l = before ++ li :: after
            ∧ Forall (λ x, GetAttr.getattr V x name = None) before
            ∧ GetAttr.getattr V li name = Some v)
  ∧ (is_raise (GetAttr.get_attr V l name) = true
     ↔ Forall (λ x, GetAttr.getattr V x name = None) (GetAttr.chain V l)).
Proof.
  split; [intros v; apply get_attr_hit_iff|].
  destruct (GetAttr.get_attr V l name) as [e|v] eqn:E; simpl.
  - split; [intros _|done].
    destruct (first_hit_or_none name (GetAttr.chain V l))
      as [Hall|(before & li & after & v & Hch & Hnone & Hv)]; [done|].
    assert (GetAttr.get_attr V l name = inr v) as Hv'.
    { apply get_attr_hit_iff. by exists before, li, after. }
    congruence.
  - split; [done|]. intros Hall.
    apply get_attr_hit_iff in E as (before & li & after & Hch & Hnone & Hv).
    rewrite Hch in Hall. apply Forall_app in Hall as [_ Hall].
    apply Forall_cons_1 in Hall as [Hli _]. congruence.
Qed.

End GetAttrFacts.

(** A wrapper whose own ["weight"] is [None] around a layer that has one. *)
Example get_attr_skips_none :
  GetAttr.get_attr Z
    (GetAttr.Layer Z "Wrapper" [("weight", None)]
       (Some (Some (GetAttr.Layer Z "Embedding" [("weight", Some 42)] None))))
    "weight"
  = inr (GetAttr.Val Z 42).
Proof. reflexivity. Qed.

(** ** Extraction and transposition in the batch splitter *)

Section Splitter.

Implicit Types (d : gmap string pyobj) (ds : list (gmap string pyobj))
               (k : string) (keys : list string).

Lemma pop_keys_spec d keys :
  NoDup keys →
  (pop_keys d keys).1 = field d <$> keys
  ∧ (∀ k, k ∈ keys → (pop_keys d keys).2 !! k = None)
  ∧ (∀ k, k ∉ keys → (pop_keys d keys).2 !! k = d !! k).
Proof.
  revert d. induction keys as [|k0 ks IH]; intros d Hnd.
  { split; [done|]. split; [|done]. intros k Hk. by apply elem_of_nil in Hk. }
  apply NoDup_cons in Hnd as [Hk0 Hnd]. simpl.
  assert (Hfield : field (delete k0 d) <$> ks = field d <$> ks).
  { apply list_fmap_ext. intros i k Hk. unfold field.
    rewrite lookup_delete_ne; [done|]. intros ->.
    apply Hk0. by eapply list_elem_of_lookup_2. }
  assert (Hstep : ∀ d1 v,
            (d1 = delete k0 d ∨ d1 = d ∧ d !! k0 = None) →
            v = field d k0 →
            (v :: (pop_keys d1 ks).1 = field d k0 :: (field d <$> ks))
            ∧ (∀ k, k ∈ k0 :: ks → (pop_keys d1 ks).2 !! k = None)
            ∧ (∀ k, k ∉ k0 :: ks → (pop_keys d1 ks).2 !! k = d !! k)).
  { intros d1 v Hd1 ->. destruct (IH d1 Hnd) as (Hv & Hin & Hout).
    split; [|split].
    - rewrite Hv. f_equal. destruct Hd1 as [->|[-> _]]; done.
    - intros k Hk. destruct (decide (k ∈ ks)) as [Hks|Hks]; [by apply Hin|].
      apply elem_of_cons in Hk as [->|Hk]; [|done].
      rewrite Hout by done.
      destruct Hd1 as [->|[-> Hnone]]; [apply lookup_delete_eq|done].
    - intros k Hk. apply not_elem_of_cons in Hk as [Hne Hk].
      rewrite Hout by done.
      destruct Hd1 as [->|[-> _]]; [by apply lookup_delete_ne|done]. }
  destruct (d !! k0) as [v|] eqn:Hd.
  - destruct (Hstep (delete k0 d) v) as (Hv & Hin & Hout);
      [by left|by unfold field; rewrite Hd|].
    by destruct (pop_keys (delete k0 d) ks).
  - destruct (Hstep d PyNone) as (Hv & Hin & Hout);
      [by right|by unfold field; rewrite Hd|].
    by destruct (pop_keys d ks).
Qed.

(** X16. Extraction from a mapping never raises.  For distinct keys it returns
    the fields in key order, a missing field read as [None]; as a tuple,
    except that for exactly one key it returns the bare value.  It takes the
    extracted fields out of the mapping and leaves all others in place. *)
Theorem get_expected_keys_spec d keys :
  NoDup keys →
  (get_expected_keys d keys).1
  = match keys with
    | [k] => field d k
    | _ => PyTuple (field d <$> keys)
    end
  ∧ (∀ k, k ∈ keys → (get_expected_keys d keys).2 !! k = None)
  ∧ (∀ k, k ∉ keys → (get_expected_keys d keys).2 !! k = d !! k).
Proof.
  intros Hnd. destruct (pop_keys_spec d keys Hnd) as (Hv & Hin & Hout).
  unfold get_expected_keys.
  destruct (pop_keys d keys) as [vs d'] eqn:Hpop. simpl in *. subst vs.
  split; [|by split].
  by destruct keys as [|k1 [|k2 ks]].
Qed.

Lemma get_expected_keys_spec_witness :
  (get_expected_keys example_batch ["labels"; "position_ids"]).1
  = PyTuple [PyList [PyInt 4]; PyNone]
  ∧ (get_expected_keys example_batch ["labels"; "position_ids"]).2 !! "labels" = None
  ∧ (get_expected_keys example_batch ["labels"; "position_ids"]).2 !! "input_ids"
    = example_batch !! "input_ids".
Proof.
  destruct (get_expected_keys_spec example_batch ["labels"; "position_ids"])
    as (Hv & Hin & Hout).
  - apply (bool_decide_unpack _). by vm_compute.
  - split; [by rewrite Hv|]. split.
    + apply Hin. apply (bool_decide_unpack _). by vm_compute.
    + apply Hout. apply (bool_decide_unpack _). by vm_compute.
Defined.

Lemma pop_column_ok k ds :
  Forall (λ d, is_Some (d !! k)) ds →
  pop_column k ds = inr ((λ d, field d k) <$> ds, delete k <$> ds).
Proof.
  induction 1 as [|d ds [v Hv] _ IH]; [done|].
  simpl. rewrite Hv, IH. unfold field. by rewrite Hv.
Qed.

Lemma pop_column_missing k ds :
  ¬ Forall (λ d, is_Some (d !! k)) ds →
  pop_column k ds = inl (KeyError k).
Proof.
  induction ds as [|d ds IH]; intros Hnot; [by destruct Hnot|].
  simpl. destruct (d !! k) as [v|] eqn:Hv; [|done].
  rewrite IH; [done|]. intros Hall. apply Hnot. by constructor.
Qed.

Lemma transpose_batch_missing keys ds k :
  NoDup keys → k ∈ keys →
  ¬ Forall (λ d, is_Some (d !! k)) ds →
  ∃ k', k' ∈ keys ∧ transpose_batch keys ds = inl (KeyError k').
Proof.
  revert ds. induction keys as [|k0 ks IH]; intros ds Hnd Hk Hnot.
  { by apply elem_of_nil in Hk. }
  apply NoDup_cons in Hnd as [Hk0 Hnd]. simpl.
  destruct (decide (Forall (λ d, is_Some (d !! k0)) ds)) as [Hall|Hno].
  - rewrite pop_column_ok by done.
    apply elem_of_cons in Hk as [->|Hk]; [done|].
    destruct (IH (delete k0 <$> ds) Hnd Hk) as (k' & Hk' & ->).
    { intros Hf. apply Hnot. rewrite Forall_fmap in Hf.
      eapply Forall_impl; [exact Hf|]. intros d Hd. simpl in Hd.
      rewrite lookup_delete_ne in Hd; [done|]. by intros ->. }
    exists k'. split; [by right|done].
  - rewrite pop_column_missing by done. exists k0. split; [by left|done].
Qed.

Lemma elem_of_keys d k : k ∈ (map_to_list d).*1 ↔ is_Some (d !! k).
Proof.
  rewrite list_elem_of_fmap. split.
  - intros ([k' v] & -> & Hkv). apply elem_of_map_to_list in Hkv. by eexists.
  - intros [v Hv]. exists (k, v). split; [done|]. by apply elem_of_map_to_list.
Qed.

(** X18. How the sequence case fails: an empty sequence raises IndexError, and
    an example that lacks a field of the first example raises KeyError
    for a field of the first example. *)
Theorem prepare_pipeline_inputs_failures :
  _prepare_pipeline_inputs_func (inr []) = inl (IndexError "list index out of range")
  ∧ ∀ d0 ds k,
      is_Some (d0 !! k) → ¬ Forall (λ d, is_Some (d !! k)) ds →
      ∃ k', is_Some (d0 !! k')
            ∧ _prepare_pipeline_inputs_func (inr (d0 :: ds)) = inl (KeyError k').
Proof.
  split; [done|]. intros d0 ds k Hk Hnot.
  destruct (transpose_batch_missing ((map_to_list d0).*1) (d0 :: ds) k)
    as (k' & Hk' & Herr).
  { apply NoDup_fst_map_to_list. }
  { by apply elem_of_keys. }
  { intros Hf. apply Hnot. by apply Forall_cons_1 in Hf as [_ Hf]. }
  exists k'. split; [by apply elem_of_keys|].
  unfold _prepare_pipeline_inputs_func. by rewrite Herr.
Qed.

Lemma prepare_pipeline_inputs_failures_witness :
  ∃ k', _prepare_pipeline_inputs_func
          (inr [<["labels" := PyInt 7]> ∅; (∅ : gmap string pyobj)])
        = inl (KeyError k').
Proof.
  destruct prepare_pipeline_inputs_failures as [_ Hfail].
  destruct (Hfail (<["labels" := PyInt 7]> ∅) [(∅ : gmap string pyobj)] "labels")
    as (k' & _ & Hk').
  - by eexists.
  - intros Hf. apply Forall_cons_1 in Hf as [[v Hv] _]. by rewrite lookup_empty in Hv.
  - by exists k'.
Defined.

End Splitter.

(** ** The sequence case with the examples as objects *)

Section SplitterObjects.

Implicit Types (d : list (string * pyobj)) (store : list (list (string * pyobj)))
               (k : string) (keys : list string) (r : nat) (inputs : list nat).

Lemma dict_get_is_Some k d :
  is_Some (DictObjects.dict_get k d) ↔ k ∈ DictObjects.dict_keys d.
Proof.
  unfold DictObjects.dict_keys.
  induction d as [|[k' v] d IH]; simpl.
  { split; [by intros [? ?]|by intros ?%elem_of_nil]. }
  rewrite elem_of_cons. case_decide as Hk.
  - subst k'. split; [by left|by eauto].
  - rewrite IH. split; [by right|]. intros [?|?]; [by subst|done].
Qed.

Lemma dict_get_remove_ne k k' d :
  k ≠ k' →
  DictObjects.dict_get k' (DictObjects.dict_remove k d) = DictObjects.dict_get k' d.
Proof.
  intros Hne. induction d as [|[k0 v] d IH]; simpl; [done|].
  destruct (decide (k0 = k)) as [->|Hk0].
  - by rewrite decide_False by done.
  - simpl. by rewrite IH.
Qed.

Lemma dict_get_remove_eq k d :
  NoDup (DictObjects.dict_keys d) →
  DictObjects.dict_get k (DictObjects.dict_remove k d) = None.
Proof.
  unfold DictObjects.dict_keys.
  induction d as [|[k0 v] d IH]; simpl; [done|].
  intros [Hk0 Hnd]%NoDup_cons.
  destruct (decide (k0 = k)) as [->|Hne].
  - apply eq_None_not_Some. by rewrite dict_get_is_Some.
  - simpl. rewrite decide_False by done. by apply IH.
Qed.

Lemma dict_remove_keys k d x :
  x ∈ DictObjects.dict_keys (DictObjects.dict_remove k d) → x ∈ DictObjects.dict_keys d.
Proof.
  unfold DictObjects.dict_keys.
  induction d as [|[k0 v] d IH]; simpl; [done|].
  destruct (decide (k0 = k)) as [->|Hne]; simpl.
  - by right.
  - rewrite !elem_of_cons. intros [?|?]; [by left|right; by apply IH].
Qed.

Lemma dict_remove_NoDup k d :
  NoDup (DictObjects.dict_keys d) →
  NoDup (DictObjects.dict_keys (DictObjects.dict_remove k d)).
Proof.
  induction d as [|[k0 v] d IH]; simpl; [done|].
  unfold DictObjects.dict_keys in *. simpl.
  intros [Hk0 Hnd]%NoDup_cons.
  destruct (decide (k0 = k)) as [->|Hne]; [done|]. simpl.
  apply NoDup_cons. split; [|by apply IH].
  intros Hin. apply Hk0. by eapply dict_remove_keys.
Qed.

(** Popping a field from distinct objects that all have it: the column,
    in order, and the store with the field removed from each of them. *)
Lemma pop_column_distinct k inputs store :
  NoDup inputs →
  (∀ r, r ∈ inputs →
        ∃ d, store !! r = Some d ∧ is_Some (DictObjects.dict_get k d)) →
  ∃ store',
    DictObjects.pop_column k inputs store
    = inr (object_field store k <$> inputs, store')
    ∧ length store' = length store
    ∧ ∀ r, store' !! r
           = if decide (r ∈ inputs)
             then DictObjects.dict_remove k <$> store !! r
             else store !! r.
Proof.
  revert store. induction inputs as [|r0 rest IH]; intros store Hnd Hall.
  { exists store. split; [done|]. split; [done|]. intros r.
    rewrite decide_False; [done|]. by intros ?%elem_of_nil. }
  apply NoDup_cons in Hnd as [Hr0 Hnd].
  destruct (Hall r0) as (d0 & Hd0 & [v Hv]); [by left|].
  pose proof (lookup_lt_Some _ _ _ Hd0) as Hlt.
  set (store1 := <[r0 := DictObjects.dict_remove k d0]> store).
  assert (Hother : ∀ r, r ≠ r0 → store1 !! r = store !! r).
  { intros r Hne. unfold store1. by rewrite list_lookup_insert_ne. }
  destruct (IH store1 Hnd) as (store' & Hrun & Hlen & Hlook).
  { intros r Hr. rewrite Hother by (by intros ->). apply Hall. by right. }
  exists store'. split; [|split].
  - simpl. unfold DictObjects.dict_pop. rewrite Hd0, Hv. fold store1. rewrite Hrun.
    do 2 f_equal. f_equal.
    + unfold object_field. by rewrite Hd0; simpl; rewrite Hv.
    + apply list_fmap_ext. intros i r Hr. unfold object_field.
      rewrite Hother; [done|]. intros ->. apply Hr0. by eapply list_elem_of_lookup_2.
  - rewrite Hlen. unfold store1. by rewrite length_insert.
  - intros r. rewrite Hlook. destruct (decide (r = r0)) as [->|Hne].
    + rewrite decide_False by done. rewrite decide_True by by left.
      unfold store1. rewrite list_lookup_insert_eq by done. by rewrite Hd0.
    + rewrite Hother by done.
      destruct (decide (r ∈ rest)) as [Hin|Hin].
      * by rewrite decide_True by by right.
      * rewrite decide_False; [done|]. by intros [?|?]%elem_of_cons.
Qed.

Lemma transpose_batch_distinct keys inputs store (acc : gmap string pyobj) :
  NoDup keys → NoDup inputs →
  (∀ r, r ∈ inputs →
        ∃ d, store !! r = Some d
             ∧ ∀ k, k ∈ keys → is_Some (DictObjects.dict_get k d)) →
  ∃ batch store',
    DictObjects.transpose_batch keys inputs store acc = inr (batch, store')
    ∧ (∀ k, k ∈ keys → batch !! k = Some (PyList (object_field store k <$> inputs)))
    ∧ (∀ k, k ∉ keys → batch !! k = acc !! k)
    ∧ length store' = length store
    ∧ (∀ r, r ∉ inputs → store' !! r = store !! r).
Proof.
  revert store acc. induction keys as [|k0 ks IH]; intros store acc Hnk Hni Hall.
  { exists acc, store. split; [done|]. split; [|done].
    intros k Hk. by apply elem_of_nil in Hk. }
  apply NoDup_cons in Hnk as [Hk0 Hnk].
  destruct (pop_column_distinct k0 inputs store Hni) as (store1 & Hpop & Hlen1 & Hlook1).
  { intros r Hr. destruct (Hall r Hr) as (d & Hd & Hk). exists d.
    split; [done|]. apply Hk. by left. }
  assert (Hfield : ∀ k r, k ≠ k0 → object_field store1 k r = object_field store k r).
  { intros k r Hne. unfold object_field. rewrite Hlook1.
    destruct (decide (r ∈ inputs)); [|done].
    destruct (store !! r) as [d|]; [|done]. simpl.
    by rewrite dict_get_remove_ne by done. }
  destruct (IH store1 (<[k0 := PyList (object_field store k0 <$> inputs)]> acc) Hnk Hni)
    as (batch & store' & Hrun & Hin & Hout & Hlen & Hframe).
  { intros r Hr. destruct (Hall r Hr) as (d & Hd & Hk).
    exists (DictObjects.dict_remove k0 d). split.
    - rewrite Hlook1, decide_True by done. by rewrite Hd.
    - intros k Hks. rewrite dict_get_remove_ne by (by intros ->).
      apply Hk. by right. }
  exists batch, store'. split; [|split; [|split; [|split]]].
  - simpl. by rewrite Hpop.
  - intros k Hk. destruct (decide (k = k0)) as [->|Hne].
    + rewrite Hout by done. by rewrite lookup_insert_eq.
    + apply elem_of_cons in Hk as [?|Hk]; [done|]. rewrite Hin by done.
      do 2 f_equal. apply list_fmap_ext. intros i r _. by apply Hfield.
  - intros k Hk. apply not_elem_of_cons in Hk as [Hne Hk].
    rewrite Hout by done. by rewrite lookup_insert_ne.
  - by rewrite Hlen.
  - intros r Hr. rewrite Hframe by done. rewrite Hlook1. by rewrite decide_False.
Qed.

(** A field that an object of the batch no longer has stops the column. *)
Lemma pop_column_absent k inputs store r :
  r ∈ inputs →
  Forall (λ r, is_Some (store !! r)) inputs →
  (∃ d, store !! r = Some d ∧ DictObjects.dict_get k d = None) →
  DictObjects.pop_column k inputs store = inl (KeyError k).
Proof.
  revert store. induction inputs as [|r0 rest IH]; intros store Hin Hval Hnone.
  { by apply elem_of_nil in Hin. }
  apply Forall_cons_1 in Hval as [[d0 Hd0] Hval].
  simpl. unfold DictObjects.dict_pop. rewrite Hd0.
  destruct (DictObjects.dict_get k d0) as [v|] eqn:Hv; [|done].
  assert (Hne : r ≠ r0).
  { intros ->. destruct Hnone as (d & Hd & Hk). congruence. }
  apply elem_of_cons in Hin as [?|Hin]; [done|].
  rewrite IH; [done|done| |].
  - eapply Forall_impl; [exact Hval|]. intros x. simpl.
    rewrite !lookup_lt_is_Some. by rewrite length_insert.
  - by rewrite list_lookup_insert_ne.
Qed.

(** An object that occurs twice in the batch has lost the field at its
    second occurrence. *)
Lemma pop_column_aliased k inputs store :
  ¬ NoDup inputs →
  Forall (λ r, is_Some (store !! r)) inputs →
  Forall (λ d, NoDup (DictObjects.dict_keys d)) store →
  DictObjects.pop_column k inputs store = inl (KeyError k).
Proof.
  revert store. induction inputs as [|r0 rest IH]; intros store Hdup Hval Hdict.
  { destruct Hdup. constructor. }
  apply Forall_cons_1 in Hval as [[d0 Hd0] Hval].
  simpl. unfold DictObjects.dict_pop. rewrite Hd0.
  destruct (DictObjects.dict_get k d0) as [v|] eqn:Hv; [|done].
  pose proof (lookup_lt_Some _ _ _ Hd0) as Hlt.
  assert (Hnd0 : NoDup (DictObjects.dict_keys d0)).
  { rewrite Forall_forall in Hdict. apply Hdict. by eapply list_elem_of_lookup_2. }
  assert (Hval1 : Forall (λ r, is_Some (<[r0 := DictObjects.dict_remove k d0]> store !! r))
                    rest).
  { eapply Forall_impl; [exact Hval|]. intros x. simpl.
    rewrite !lookup_lt_is_Some. by rewrite length_insert. }
  destruct (decide (r0 ∈ rest)) as [Hin|Hin].
  - rewrite (pop_column_absent k rest _ r0); [done|done|done|].
    exists (DictObjects.dict_remove k d0).
    split; [by apply list_lookup_insert_eq|by apply dict_get_remove_eq].
  - rewrite IH; [done| |done|].
    + intros Hnd. apply Hdup. by apply NoDup_cons.
    + apply Forall_insert; [done|]. by apply dict_remove_NoDup.
Qed.

(** X17. A batch given as a sequence of example objects is transposed
    before the split.  When the examples are distinct objects and every
    example has the fields of the first, the result is one first-stage
    tuple and one label value, each field the list of that field's values
    across the examples, in order; a field the first example lacks is
    [None], also when later examples have it; objects outside the batch are
    left as they were.  A batch that holds one object at two positions
    raises KeyError for the first field of the first example, the object
    having lost the field at its first position. *)
Theorem prepare_pipeline_inputs_sequence store r0 rs d0 :
  store !! r0 = Some d0 →
  NoDup (DictObjects.dict_keys d0) →
  Forall (λ r, ∃ d, store !! r = Some d
                    ∧ ∀ k, k ∈ DictObjects.dict_keys d0 →
                           is_Some (DictObjects.dict_get k d)) rs →
  (NoDup (r0 :: rs) →
   ∃ store',
     DictObjects._prepare_pipeline_inputs_func (r0 :: rs) store
     = inr ([PyTuple (object_column store (r0 :: rs) <$> first_stage_keys);
             object_column store (r0 :: rs) "labels"], store')
     ∧ length store' = length store
     ∧ ∀ r, r ∉ r0 :: rs → store' !! r = store !! r)
  ∧ (¬ NoDup (r0 :: rs) →
     Forall (λ d, NoDup (DictObjects.dict_keys d)) store →
     ∀ k0 v0 rest, d0 = (k0, v0) :: rest →
       DictObjects._prepare_pipeline_inputs_func (r0 :: rs) store = inl (KeyError k0)).
Proof.
  intros Hd0 Hkeys Hall. split.
  - intros Hnd.
    destruct (transpose_batch_distinct (DictObjects.dict_keys d0) (r0 :: rs) store ∅)
      as (batch & store' & Hrun & Hin & Hout & Hlen & Hframe); [done|done| |].
    { intros r [->|Hr]%elem_of_cons.
      - exists d0. split; [done|]. intros k. by rewrite dict_get_is_Some.
      - rewrite Forall_forall in Hall. by apply Hall. }
    exists store'. split; [|by split].
    unfold DictObjects._prepare_pipeline_inputs_func. rewrite Hd0, Hrun.
    assert (Hcol : ∀ k, field batch k = object_column store (r0 :: rs) k).
    { intros k. unfold field, object_column. rewrite Hd0. simpl.
      destruct (DictObjects.dict_get k d0) as [v|] eqn:Hk.
      - rewrite Hin; [done|]. apply dict_get_is_Some. by eexists.
      - rewrite Hout, lookup_empty; [done|].
        rewrite <- dict_get_is_Some, Hk. by intros [? ?]. }
    pose proof (get_expected_keys_first batch) as H1.
    pose proof (get_expected_keys_first_rest batch "labels") as H2.
    destruct (get_expected_keys batch first_stage_keys) as [first b1].
    simpl in H1, H2. subst first.
    unfold get_expected_keys, last_stage_keys. simpl.
    assert (Hlab : default PyNone (b1 !! "labels")
                   = object_column store (r0 :: rs) "labels").
    { rewrite H2 by (apply (bool_decide_unpack _); by vm_compute). apply Hcol. }
    destruct (b1 !! "labels"); simpl in Hlab; rewrite <- Hlab, !Hcol; done.
  - intros Hdup Hdict k0 v0 rest ->.
    unfold DictObjects._prepare_pipeline_inputs_func. rewrite Hd0.
    unfold DictObjects.dict_keys.
    change (((k0, v0) :: rest).*1) with (k0 :: rest.*1).
    cbn [DictObjects.transpose_batch].
    rewrite pop_column_aliased; [done|done| |done].
    constructor; [by eexists|].
    eapply Forall_impl; [exact Hall|]. intros r (d & -> & _). by eexists.
Qed.

Lemma prepare_pipeline_inputs_sequence_witness :
  (∃ store',
     DictObjects._prepare_pipeline_inputs_func [0; 1]%nat example_objects
     = inr ([PyTuple [PyList [PyList [PyInt 1; PyInt 2]; PyList [PyInt 3; PyInt 4]];
                      PyNone; PyNone; PyNone];
             PyList [PyInt 7; PyInt 8]], store'))
  ∧ DictObjects._prepare_pipeline_inputs_func [0; 0]%nat example_objects
    = inl (KeyError "input_ids").
Proof.
  assert (Hk : NoDup (DictObjects.dict_keys
                        [("input_ids", PyList [PyInt 1; PyInt 2]); ("labels", PyInt 7)])).
  { apply (bool_decide_unpack _). by vm_compute. }
  assert (Hhas : ∀ r, r ∈ [0; 1]%nat →
            ∃ d, example_objects !! r = Some d
                 ∧ ∀ k, k ∈ DictObjects.dict_keys
                              [("input_ids", PyList [PyInt 1; PyInt 2]);
                               ("labels", PyInt 7)] →
                        is_Some (DictObjects.dict_get k d)).
  { intros r Hr. rewrite !elem_of_cons, elem_of_nil in Hr.
    destruct Hr as [->|[->|[]]]; eexists; (split; [reflexivity|]).
    all: intros k Hk'; unfold DictObjects.dict_keys in Hk'; simpl in Hk'.
    all: rewrite !elem_of_cons, elem_of_nil in Hk'.
    all: destruct Hk' as [->|[->|[]]]; by eexists. }
  split.
  - destruct (prepare_pipeline_inputs_sequence example_objects 0%nat [1%nat] _
                eq_refl Hk) as [Hok _].
    { constructor; [|constructor]. apply Hhas. by right; left. }
    destruct Hok as (store' & Hrun & _).
    { apply (bool_decide_unpack _). by vm_compute. }
    exists store'. exact Hrun.
  - destruct (prepare_pipeline_inputs_sequence example_objects 0%nat [0%nat] _
                eq_refl Hk) as [_ Hdup].
    { constructor; [|constructor]. apply Hhas. by left. }
    apply (Hdup) with (v0 := PyList [PyInt 1; PyInt 2]) (rest := [("labels", PyInt 7)]).
    + intros [Hnot _]%NoDup_cons. apply Hnot. by left.
    + repeat constructor; apply (bool_decide_unpack _); by vm_compute.
    + reflexivity.
Defined.

End SplitterObjects.

(** ** Batching and pooling in [encode_sentences] *)

Section Batching.

Lemma batches_concat {A} (n : nat) (l : list A) (fuel : nat) :
  (1 ≤ n)%nat → (length l ≤ fuel)%nat →
  concat (batches fuel n l) = l
  ∧ Forall (λ b, (1 ≤ length b ≤ n)%nat) (batches fuel n l).
Proof.
  intros Hn. revert l. induction fuel as [|fuel IH]; intros l Hl.
  { destruct l; [done|simpl in Hl; lia]. }
  destruct l as [|x l]; [done|].
  change (batches (S fuel) n (x :: l))
    with (take n (x :: l) :: batches fuel n (drop n (x :: l))).
  destruct (IH (drop n (x :: l))) as [Hc Hf].
  { rewrite length_drop. simpl in *. lia. }
  split.
  - simpl concat. rewrite Hc. apply take_drop.
  - constructor; [|done]. rewrite length_take. simpl length. lia.
Qed.

(** X19. The loop of [encode_sentences] covers its input: for a positive
    [eval_batch_size] the slices it takes are non-empty, hold at most
    [eval_batch_size] sentences each, and put end to end are the sentences
    given, each once and in order. *)
Theorem encode_sentences_batches_cover (sentences : list string) (n : nat) :
  (1 ≤ n)%nat →
  concat (batches (length sentences) n sentences) = sentences
  ∧ Forall (λ b, (1 ≤ length b ≤ n)%nat) (batches (length sentences) n sentences).
Proof. intros Hn. by apply batches_concat. Qed.

Lemma encode_sentences_batches_cover_witness :
  concat (batches 3 2 ["a"; "b"; "c"]) = ["a"; "b"; "c"]
  ∧ Forall (λ b, (1 ≤ length b ≤ 2)%nat) (batches 3 2 ["a"; "b"; "c"]).
Proof. apply (encode_sentences_batches_cover ["a"; "b"; "c"] 2). lia. Defined.

End Batching.

Section PoolingShape.

Variable K : Scalar.
Implicit Types (self : BiEncoderModel) (tok : Tokenizer)
               (hs : hidden K) (m : mask).

Lemma try_map_length {A B} (f : A → result B) (l : list A) (out : list B) :
  try_map f l = inr out → length out = length l.
Proof.
  revert out. induction l as [|x l IH]; intros out; simpl.
  { by intros [= <-]. }
  destruct (f x); [done|]. destruct (try_map f l) as [|ys]; [done|].
  intros [= <-]. simpl. by rewrite (IH ys).
Qed.

Lemma try_map_lookup {A B} (f : A → result B) (l : list A) (out : list B) i x :
  try_map f l = inr out → l !! i = Some x →
  ∃ y, f x = inr y ∧ out !! i = Some y.
Proof.
  revert out i. induction l as [|x0 l IH]; intros out i; simpl; [done|].
  destruct (f x0) as [|y0] eqn:Hx0; [done|].
  destruct (try_map f l) as [|ys]; [done|].
  intros [= <-]. destruct i as [|i]; simpl.
  - intros [= <-]. by exists y0.
  - by apply IH.
Qed.

Lemma zip_axis_inr {A B} (xs : list A) (ys : list B) zs :
  zip_axis xs ys = inr zs → zs = zip xs ys ∧ length xs = length ys.
Proof. unfold zip_axis. case_bool_decide; [|done]. by intros [= <-]. Qed.

Lemma select_token_length hs k out :
  select_token K hs k = inr out → length out = length hs.
Proof. apply try_map_length. Qed.

Lemma select_last_length hs m out :
  select_last_by_mask K hs m = inr out → length out = length hs.
Proof.
  unfold select_last_by_mask.
  destruct (zip_axis hs m) as [|rows] eqn:Hz; [done|].
  apply zip_axis_inr in Hz as [-> Hlen]. intros Hout%try_map_length.
  rewrite Hout, length_zip. lia.
Qed.

(** X20. Pooling keeps the batch: on a mask with one row per sentence, whenever
    either pooling returns, for any method and padding side, it returns
    exactly one embedding per sentence of the batch. *)
Theorem pooling_one_embedding_per_sentence self tok hs m out :
  length m = length hs →
  (sentence_embedding K self hs m = inr out → length out = length hs)
  ∧ (encode_sentences_pooling K self tok hs m = inr out → length out = length hs).
Proof.
  intros _.
  assert (Hmean : ∀ (f : list (list (F K)) → list Z → result (list (F K))),
             match zip_axis hs m with
             | inl e => inl e
             | inr rows => try_map (λ '(row, mrow), f row mrow) rows
             end = inr out → length out = length hs).
  { intros f. destruct (zip_axis hs m) as [|rows] eqn:Hz; [done|].
    apply zip_axis_inr in Hz as [-> Hlen]. intros Hout%try_map_length.
    rewrite Hout, length_zip. lia. }
  split.
  - unfold sentence_embedding.
    repeat case_bool_decide; try done;
      eauto using select_token_length, select_last_length.
  - unfold encode_sentences_pooling.
    repeat case_bool_decide; try done;
      eauto using select_token_length, select_last_length.
Qed.

End PoolingShape.

Lemma pooling_one_embedding_per_sentence_witness :
  length [[15]] = length example_hidden.
Proof.
  eapply (proj1 (pooling_one_embedding_per_sentence Z_scalar
                   (example_encoder "mean" "right") (mkTokenizer "right")
                   example_hidden example_mask [[15]] eq_refl)).
  reflexivity.
Defined.

Section LastToken.

Variable K : Scalar.
Implicit Types (self : BiEncoderModel) (tok : Tokenizer)
               (hs : hidden K) (m : mask) (row : list (list (F K))).

Lemma mask_sum_replicate (k : nat) (z : Z) :
  mask_sum (replicate k z) = Z.of_nat k * z.
Proof.
  unfold mask_sum. induction k as [|k IH]; [done|].
  cbn [replicate foldr]. rewrite IH. lia.
Qed.

Lemma mask_sum_app (a b : list Z) : mask_sum (a ++ b) = mask_sum a + mask_sum b.
Proof.
  unfold mask_sum. induction a as [|x a IH]; [done|].
  cbn [app foldr]. rewrite IH. lia.
Qed.

Lemma mask_sum_right_padded (n k : nat) : mask_sum (right_padded n k) = Z.of_nat k.
Proof.
  unfold right_padded. rewrite mask_sum_app, !mask_sum_replicate. lia.
Qed.

Lemma py_index_lookup {A} (l : list A) (i : nat) x :
  l !! i = Some x → py_index l (Z.of_nat i) = inr x.
Proof.
  intros Hi. pose proof (lookup_lt_Some _ _ _ Hi). unfold py_index. cbv zeta.
  rewrite (bool_decide_eq_false_2 (Z.of_nat i < 0)) by lia.
  rewrite bool_decide_eq_true_2 by lia.
  by rewrite Nat2Z.id, Hi.
Qed.

Lemma py_index_last {A} (l : list A) x :
  last l = Some x → py_index l (-1) = inr x.
Proof.
  rewrite last_lookup. intros Hl. pose proof (lookup_lt_Some _ _ _ Hl) as Hlt.
  unfold py_index. cbv zeta. rewrite (bool_decide_eq_true_2 (-1 < 0)) by lia.
  rewrite bool_decide_eq_true_2 by lia.
  replace (Z.to_nat (-1 + Z.of_nat (length l))) with (pred (length l)) by lia.
  by rewrite Hl.
Qed.

Lemma select_last_right_padded hs (ks : list nat) :
  Forall2 (λ row k, (1 ≤ k ≤ length row)%nat) hs ks →
  ∃ out,
    select_last_by_mask K hs (zip_with (λ row k, right_padded (length row) k) hs ks)
    = inr out
    ∧ Some <$> out = zip_with (λ row k, row !! (k - 1)%nat) hs ks.
Proof.
  intros Hall. unfold select_last_by_mask, zip_axis.
  rewrite bool_decide_eq_true_2
    by (rewrite length_zip_with; apply Forall2_length in Hall; lia).
  induction Hall as [|row k hs ks [Hk1 Hk2] _ (out & Hout & Hsome)].
  { by exists []. }
  destruct (lookup_lt_is_Some_2 row (k - 1)%nat) as [x Hx]; [lia|].
  exists (x :: out). cbn [zip_with zip try_map fmap list_fmap].
  rewrite mask_sum_right_padded.
  replace (Z.of_nat k - 1) with (Z.of_nat (k - 1)) by lia.
  rewrite (py_index_lookup _ _ _ Hx).
  cbn [zip zip_with] in Hout. rewrite Hout.
  split; [done|]. cbn. by rewrite Hx, <- Hsome.
Qed.

(** X21. Last-token pooling under right padding.  If sentence [i] has [k_i]
    real tokens, at least one, followed by padding, both poolings return
    the hidden state of token [k_i - 1], the last real token, for every
    sentence of the batch. *)
Theorem last_pooling_right_padding self tok hs (ks : list nat) :
  sentence_pooling_method self = "last" →
  padding_side tok = "right" →
  Forall2 (λ row k, (1 ≤ k ≤ length row)%nat) hs ks →
  ∃ out,
    sentence_embedding K self hs
      (zip_with (λ row k, right_padded (length row) k) hs ks) = inr out
    ∧ encode_sentences_pooling K self tok hs
        (zip_with (λ row k, right_padded (length row) k) hs ks) = inr out
    ∧ Some <$> out = zip_with (λ row k, row !! (k - 1)%nat) hs ks.
Proof.
  intros Hl Hp Hall.
  destruct (select_last_right_padded hs ks Hall) as (out & Hout & Hsome).
  exists out. unfold sentence_embedding, encode_sentences_pooling.
  rewrite Hl, Hp. simpl. by rewrite Hout.
Qed.

(** X22. In [sentence_embedding] last-token pooling looks only at how many
    tokens of a sentence are attended, not at where they are: two masks with
    the same row sums give the same result.  A left-padded batch is pooled
    as if it were padded on the right. *)
Theorem last_pooling_counts_only self hs m m' :
  sentence_pooling_method self = "last" →
  length m = length hs →
  Forall2 (λ a b, mask_sum a = mask_sum b) m m' →
  sentence_embedding K self hs m = sentence_embedding K self hs m'.
Proof.
  intros Hl _ Hsum. unfold sentence_embedding. rewrite Hl. simpl.
  unfold select_last_by_mask, zip_axis.
  rewrite <- (Forall2_length _ _ _ Hsum).
  case_bool_decide; [|done].
  clear H. revert hs. induction Hsum as [|a b m m' Hab _ IH]; intros hs.
  { by destruct hs. }
  destruct hs as [|row hs]; [done|].
  cbn [zip zip_with try_map]. by rewrite Hab, IH.
Qed.

(** X23. With left padding [encode_sentences] pools the final position of every
    sentence, whatever the mask says. *)
Theorem last_pooling_left_padding self tok hs m :
  sentence_pooling_method self = "last" →
  padding_side tok = "left" →
  Forall (λ row, row ≠ []) hs →
  ∃ out,
    encode_sentences_pooling K self tok hs m = inr out
    ∧ Some <$> out = last <$> hs.
Proof.
  intros Hl Hp Hne. unfold encode_sentences_pooling.
  rewrite Hl, Hp. simpl. unfold select_token.
  induction Hne as [|row hs Hrow _ (out & Hout & Hsome)]; [by exists []|].
  destruct (last row) as [x|] eqn:Hlast.
  - exists (x :: out). cbn [try_map]. rewrite (py_index_last _ _ Hlast), Hout.
    split; [done|]. cbn. by rewrite Hlast, <- Hsome.
  - by apply last_None in Hlast.
Qed.

End LastToken.

Lemma last_pooling_right_padding_witness :
  ∃ out,
    sentence_embedding Z_scalar (example_encoder "last" "right")
      [[[10]; [20]; [30]]] [[1; 1; 0]] = inr out
    ∧ encode_sentences_pooling Z_scalar (example_encoder "last" "right")
        (mkTokenizer "right") [[[10]; [20]; [30]]] [[1; 1; 0]] = inr out
    ∧ Some <$> out = [Some [20]].
Proof.
  apply (last_pooling_right_padding Z_scalar (example_encoder "last" "right")
           (mkTokenizer "right") [[[10]; [20]; [30]]] [2%nat]).
  - reflexivity.
  - reflexivity.
  - repeat constructor; simpl; lia.
Defined.

Lemma last_pooling_counts_only_witness :
  sentence_embedding Z_scalar (example_encoder "last" "left")
    [[[10]; [20]; [30]]] [[0; 1; 1]]
  = sentence_embedding Z_scalar (example_encoder "last" "left")
      [[[10]; [20]; [30]]] [[1; 1; 0]].
Proof.
  apply (last_pooling_counts_only Z_scalar (example_encoder "last" "left")).
  - reflexivity.
  - reflexivity.
  - by repeat constructor.
Defined.

Lemma last_pooling_left_padding_witness :
  ∃ out,
    encode_sentences_pooling Z_scalar (example_encoder "last" "left")
      (mkTokenizer "left") [[[10]; [20]; [30]]] [[0; 1; 1]] = inr out
    ∧ Some <$> out = last <$> [[[10]; [20]; [30]]].
Proof.
  apply (last_pooling_left_padding Z_scalar (example_encoder "last" "left")
           (mkTokenizer "left")).
  - reflexivity.
  - reflexivity.
  - by repeat constructor.
Defined.

Section EncodeSentences.

Variable K : Scalar.
Variable run_model : list string → result (hidden K * mask).
Variable normalize : embedding K → embedding K.
Implicit Types (self : BiEncoderModel) (sentences : list string).

Lemma pooling_length self tok hs m out :
  encode_sentences_pooling K self tok hs m = inr out → length out = length hs.
Proof.
  unfold encode_sentences_pooling.
  assert (Hmean : ∀ (f : list (list (F K)) → list Z → result (list (F K))),
             match zip_axis hs m with
             | inl e => inl e
             | inr rows => try_map (λ '(row, mrow), f row mrow) rows
             end = inr out → length out = length hs).
  { intros f. destruct (zip_axis hs m) as [|rows] eqn:Hz; [done|].
    apply zip_axis_inr in Hz as [-> Hlen]. intros Hout%try_map_length.
    rewrite Hout, length_zip. lia. }
  repeat case_bool_decide; try done;
    eauto using select_token_length, select_last_length.
Qed.

Lemma try_map_concat_length {A B} (f : list A → result (list B))
    (chunks : list (list A)) (out : list (list B)) :
  (∀ c ys, f c = inr ys → length ys = length c) →
  try_map f chunks = inr out →
  length (concat out) = length (concat chunks).
Proof.
  intros Hf. revert out. induction chunks as [|c chunks IH]; intros out; simpl.
  { by intros [= <-]. }
  destruct (f c) as [|ys] eqn:Hc; [done|].
  destruct (try_map f chunks) as [|yss]; [done|].
  intros [= <-]. simpl. rewrite !length_app, (Hf c ys Hc), (IH yss); done.
Qed.

(** X24. End to end, [encode_sentences] returns one embedding per sentence: if
    the model yields one hidden-state row and one mask row per sentence of a
    batch and the normalisation keeps the number of rows, then whenever the
    call returns, the result has as many rows as there were sentences. *)
Theorem encode_sentences_one_row_each self sentences out :
  (∀ b hs m, run_model b = inr (hs, m) →
     length hs = length b ∧ length m = length b) →
  (∀ e, length (normalize e) = length e) →
  encode_sentences K run_model normalize self sentences = inr out →
  length out = length sentences.
Proof.
  intros Hmodel Hnorm. unfold encode_sentences.
  case_bool_decide as Hz; [done|].
  case_bool_decide as Hneg; [done|].
  destruct (batches_concat (Z.to_nat (eval_batch_size self)) sentences
              (length sentences)) as [Hcat _]; [lia|done|].
  destruct (batches _ _ sentences) as [|c chunks] eqn:Hb; [done|].
  destruct (tokenizer self) as [tok|]; [|done].
  destruct (try_map _ (c :: chunks)) as [|all_embeddings] eqn:Hmap; [done|].
  intros [= <-]. rewrite <- Hcat.
  eapply try_map_concat_length; [|exact Hmap].
  intros b ys. unfold encode_batch.
  destruct (run_model b) as [|[hs m]] eqn:Hrun; [done|].
  destruct (encode_sentences_pooling K self tok hs m) as [|e] eqn:Hpool; [done|].
  intros [= <-]. rewrite Hnorm, (pooling_length _ _ _ _ _ Hpool).
  by destruct (Hmodel b hs m Hrun).
Qed.

(** What [encode_sentences] does at the edges, none of which reaches the
    model: a batch size of zero raises ValueError (the step of [range]); an
    empty list of sentences, and likewise a negative batch size, raises
    ValueError when the empty list of results is concatenated; and with
    sentences to encode but no tokenizer it raises TypeError. *)
Theorem encode_sentences_edges self sentences :
  (eval_batch_size self = 0 →
   encode_sentences K run_model normalize self sentences
   = inl (ValueError "range() arg 3 must not be zero"))
  ∧ (eval_batch_size self ≠ 0 → sentences = [] ∨ eval_batch_size self < 0 →
     encode_sentences K run_model normalize self sentences
     = inl (ValueError "need at least one array to concatenate"))
  ∧ (0 < eval_batch_size self → sentences ≠ [] → tokenizer self = None →
     encode_sentences K run_model normalize self sentences
     = inl (TypeError "'NoneType' object is not callable")).
Proof.
  unfold encode_sentences. split; [|split].
  - intros ->. done.
  - intros Hz Hor. rewrite bool_decide_eq_false_2 by done.
    destruct Hor as [->|Hneg].
    + by case_bool_decide.
    + by rewrite bool_decide_eq_true_2.
  - intros Hpos Hne Htok. rewrite !bool_decide_eq_false_2 by lia.
    destruct sentences as [|s0 rest]; [done|]. simpl length.
    cbn [batches]. by rewrite Htok.
Qed.

End EncodeSentences.

Lemma encode_sentences_one_row_each_witness :
  length [[20]; [20]] = length ["a"; "b"].
Proof.
  apply (encode_sentences_one_row_each Z_scalar
           (λ b, inr (replicate (length b) [[10]; [20]], replicate (length b) [1; 1]))
           (λ e, e) (example_encoder "last" "right") ["a"; "b"] [[20]; [20]]).
  - intros b hs m [= <- <-]. by rewrite !length_replicate.
  - done.
  - reflexivity.
Defined.

Lemma encode_sentences_edges_witness :
  encode_sentences Z_scalar (λ _, inr (example_hidden, example_mask)) (λ e, e)
    (example_encoder "cls" "right") []
  = inl (ValueError "need at least one array to concatenate").
Proof.
  apply (encode_sentences_edges Z_scalar (λ _, inr (example_hidden, example_mask))
           (λ e, e) (example_encoder "cls" "right") []).
  - simpl. lia.
  - by left.
Defined.

(** * Timers *)

Section TimerFacts.

Variable T : Type.
Variable t0 : T.
Variable tadd tsub : T → T → T.
Variable clock : nat → T.

Abbreviation _Timer := (Timers._Timer T).
Abbreviation start := (Timers.start T clock).
Abbreviation stop := (Timers.stop T tadd tsub clock).
Abbreviation elapsed := (Timers.elapsed T t0 tadd tsub clock).
Abbreviation started_ := (Timers.started_ T).
Abbreviation elapsed_ := (Timers.elapsed_ T).
Abbreviation start_time := (Timers.start_time T).
Abbreviation timer_name := (Timers.name T).

Implicit Types (t : _Timer) (n : nat).

(** The start/stop protocol.  [start] succeeds exactly on a stopped timer
    and [stop] exactly on a running one; a call that fails raises
    AssertionError, reads no clock and leaves the timer as it was.  A
    [start] followed by a [stop] adds to the accumulated time the difference
    of the two readings taken. *)
Theorem timer_start_stop_protocol t n :
  (started_ t = false →
   start (t, n)
   = (inr tt, (Timers.mkTimer T (timer_name t) (elapsed_ t) true (clock n), S n))
   ∧ Timers.tbind T start (λ _, stop) (t, n)
     = (inr tt,
        (Timers.mkTimer T (timer_name t)
           (tadd (elapsed_ t) (tsub (clock (S n)) (clock n))) false (clock n),
         S (S n)))
   ∧ stop (t, n)
     = (inl (AssertionError (timer_name t +:+ " timer is not started.")), (t, n)))
  ∧ (started_ t = true →
     start (t, n)
     = (inl (AssertionError (timer_name t +:+ " timer has already started")), (t, n))
     ∧ ∃ t', stop (t, n) = (inr tt, (t', S n))
             ∧ started_ t' = false
             ∧ elapsed_ t' = tadd (elapsed_ t) (tsub (clock n) (start_time t))).
Proof.
  destruct t as [nm e st s0]. simpl. split; intros ->.
  - by repeat split.
  - split; [done|]. by eexists.
Qed.

(** X25. [elapsed] never raises and leaves the timer running exactly if it was
    running.  It returns the accumulated time, to which a running timer
    adds the interval up to now; the accumulated time afterwards is zero
    under [reset] and the returned value otherwise.  A stopped timer reads
    no clock; a running one reads it twice, once to stop and once to start
    again, and counts from the second reading: what passes between the two
    is in no interval. *)
Theorem timer_elapsed t n (reset_ : bool) :
  ∃ v t' n',
    elapsed reset_ (t, n) = (inr v, (t', n'))
    ∧ started_ t' = started_ t
    ∧ timer_name t' = timer_name t
    ∧ v = (if started_ t
           then tadd (elapsed_ t) (tsub (clock n) (start_time t))
           else elapsed_ t)
    ∧ elapsed_ t' = (if reset_ then t0 else v)
    ∧ n' = (if started_ t then S (S n) else n)
    ∧ start_time t' = (if started_ t then clock (S n) else start_time t).
Proof.
  destruct t as [nm e [] s0], reset_; simpl; eexists _, _, _.
  all: split; [cbv; reflexivity|by repeat split].
Qed.

(** X26. [RuntimeTimer.log] never raises, whatever state the timer is in.  It
    reports the timer's name with the accumulated time, including the
    interval in progress, and leaves the timer stopped with nothing
    accumulated. *)
Theorem runtime_timer_log t n :
  ∃ t' n',
    Timers.RuntimeTimer_log T t0 tadd tsub clock (t, n)
    = (inr (timer_name t,
            if started_ t
            then tadd (elapsed_ t) (tsub (clock n) (start_time t))
            else elapsed_ t),
       (t', n'))
    ∧ started_ t' = false
    ∧ elapsed_ t' = t0
    ∧ timer_name t' = timer_name t.
Proof.
  destruct t as [nm e [] s0]; simpl; eexists _, _.
  all: split; [cbv; reflexivity|by repeat split].
Qed.

(** X27. [RuntimeTimer.start(name)] on a timer that is running raises
    AssertionError, but the name is assigned before the check: the message
    carries the new name, and the timer goes on running under it with its
    start time and accumulated time unchanged. *)
Theorem runtime_timer_start_renames t n (nm : string) :
  started_ t = true →
  Timers.RuntimeTimer_start T clock nm (t, n)
  = (inl (AssertionError (nm +:+ " timer has already started")),
     (Timers.mkTimer T nm (elapsed_ t) true (start_time t), n)).
Proof. destruct t as [nm0 e st s0]. simpl. by intros ->. Qed.

End TimerFacts.

Lemma timer_start_stop_protocol_witness :
  Timers.start Z (λ n, Z.of_nat n) (Timers.mkTimer Z "step" 0 true 0, 5%nat)
  = (inl (AssertionError "step timer has already started"),
     (Timers.mkTimer Z "step" 0 true 0, 5%nat)).
Proof.
  apply (timer_start_stop_protocol Z Z.add Z.sub (λ n, Z.of_nat n)
           (Timers.mkTimer Z "step" 0 true 0) 5%nat).
  reflexivity.
Defined.

Lemma runtime_timer_start_renames_witness :
  Timers.RuntimeTimer_start Z (λ n, Z.of_nat n) "eval"
    (Timers.mkTimer Z "train" 3 true 1, 5%nat)
  = (inl (AssertionError "eval timer has already started"),
     (Timers.mkTimer Z "eval" 3 true 1, 5%nat)).
Proof.
  apply (runtime_timer_start_renames Z (λ n, Z.of_nat n)
           (Timers.mkTimer Z "train" 3 true 1) 5%nat "eval").
  reflexivity.
Defined.

Section RegistryFacts.

Variable T : Type.
Variable t0 : T.
Variable clock : nat → T.
Variable G : Type.
Variable gpu_timer : string → G.
Variables imported cuda : bool.

Abbreviation Registry := (Timers.Registry T G).
Abbreviation Timers_call := (Timers.Timers_call T t0 clock G gpu_timer imported cuda).
Abbreviation timers := (Timers.timers T G).

Implicit Types (r : Registry) (nm : string).

(** X28. [Timers.__call__] gets or creates.  When a call returns, the same call
    again returns the same timer and changes nothing: it creates no second
    timer, reads no clock and does not touch the timer's state.  A call
    leaves the timers under all other names as they were, and a name that
    was registered keeps its timer. *)
Theorem timers_get_or_create r nm (use_event : bool) r1 :
  Timers_call nm use_event r = (inr nm, r1) →
  Timers_call nm use_event r1 = (inr nm, r1)
  ∧ is_Some (timers r1 !! nm)
  ∧ (∀ nm', nm' ≠ nm → timers r1 !! nm' = timers r !! nm')
  ∧ (is_Some (timers r !! nm) → r1 = r).
Proof.
  unfold Timers.Timers_call.
  destruct (timers r !! nm) as [o|] eqn:Hnm.
  - case_bool_decide as Hty; [|done]. intros [= <-].
    rewrite Hnm, bool_decide_eq_true_2 by done. by repeat split.
  - destruct (if use_event && cuda then _ else _) eqn:Hcl; intros [= <-]; simpl.
    + rewrite lookup_insert_eq. simpl. split; [done|].
      split; [by eexists|]. split; [|by intros [? ?]].
      intros nm' Hne. by rewrite lookup_insert_ne.
    + rewrite lookup_insert_eq. simpl. split; [done|].
      split; [by eexists|]. split; [|by intros [? ?]].
      intros nm' Hne. by rewrite lookup_insert_ne.
Qed.

(** Asking for a timer under a name that holds a timer of the other class
    raises AssertionError and leaves the registry as it was. *)
Theorem timers_class_mismatch r nm (use_event : bool) o :
  timers r !! nm = Some o →
  Timers.type_of T G o
  ≠ (if use_event && cuda then Timers._GPUEventTimer imported else Timers._Timer_class) →
  ∃ msg, Timers_call nm use_event r = (inl (AssertionError msg), r).
Proof.
  intros Hnm Hty. unfold Timers.Timers_call.
  rewrite Hnm, bool_decide_eq_false_2 by done. by eexists.
Qed.

End RegistryFacts.

Lemma timers_get_or_create_witness :
  Timers.Timers_call Z 0 (λ n, Z.of_nat n) unit (λ _, tt) true true "fwd" false
    (Timers.mkRegistry Z unit {["fwd" := Timers.CpuTimer Z unit
                                           (Timers.mkTimer Z "fwd" 0 false 0)]} 1%nat)
  = (inr "fwd",
     Timers.mkRegistry Z unit {["fwd" := Timers.CpuTimer Z unit
                                           (Timers.mkTimer Z "fwd" 0 false 0)]} 1%nat).
Proof.
  apply (timers_get_or_create Z 0 (λ n, Z.of_nat n) unit (λ _, tt) true true
           (Timers.mkRegistry Z unit ∅ 0%nat) "fwd" false).
  by vm_compute.
Defined.

Lemma timers_class_mismatch_witness :
  ∃ msg,
    Timers.Timers_call Z 0 (λ n, Z.of_nat n) unit (λ _, tt) true true "fwd" true
      (Timers.mkRegistry Z unit {["fwd" := Timers.CpuTimer Z unit
                                             (Timers.mkTimer Z "fwd" 0 false 0)]} 1%nat)
    = (inl (AssertionError msg),
       Timers.mkRegistry Z unit {["fwd" := Timers.CpuTimer Z unit
                                             (Timers.mkTimer Z "fwd" 0 false 0)]} 1%nat).
Proof.
  apply (timers_class_mismatch Z 0 (λ n, Z.of_nat n) unit (λ _, tt) true true
           (Timers.mkRegistry Z unit {["fwd" := Timers.CpuTimer Z unit
                                                  (Timers.mkTimer Z "fwd" 0 false 0)]}
              1%nat)
           "fwd" true (Timers.CpuTimer Z unit (Timers.mkTimer Z "fwd" 0 false 0))).
  - by vm_compute.
  - by vm_compute.
Defined.

(** * The logger *)

Section LoggerFacts.

Implicit Types (l : Log.Logger) (out : list Log.record) (msg term : string).

(** X29. [use_terminator] puts the handler's line end back only when the body
    returns: then the line end is what it was before the block, whatever the
    body did to it.  When the body raises, the exception leaves the block
    with the state as the body left it, and the line end is not put back. *)
Theorem use_terminator_restores {A} term (body : Log.LM A) l out :
  (∀ a l2 out2,
     body (Log.mkLogger (Log._is_enable l) (Log.level l) term (Log.warned l), out)
     = (inr a, (l2, out2)) →
     Log.use_terminator term body (l, out)
     = (inr a, (Log.mkLogger (Log._is_enable l2) (Log.level l2) (Log.terminator l)
                  (Log.warned l2), out2)))
  ∧ (∀ e w2,
       body (Log.mkLogger (Log._is_enable l) (Log.level l) term (Log.warned l), out)
       = (inl e, w2) →
       Log.use_terminator term body (l, out) = (inl e, w2)).
Proof.
  split.
  - intros a l2 out2 Hbody. unfold Log.use_terminator, mbind, Log.LM_bind, Log.lbind.
    simpl. by rewrite Hbody.
  - intros e w2 Hbody. unfold Log.use_terminator, mbind, Log.LM_bind, Log.lbind.
    simpl. by rewrite Hbody.
Qed.

Lemma use_terminator_restores_witness :
  Log.use_terminator carriage_return (Log.info "loading: |") (Log.init, [])
  = (inr tt, (Log.init, [(20, "loading: |", carriage_return)]))
  ∧ ∃ e, Log.use_terminator carriage_return (Log.set_level "VERBOSE") (Log.init, [])
         = (inl e, (Log.mkLogger true 10 carriage_return [], [])).
Proof.
  destruct (use_terminator_restores carriage_return (Log.info "loading: |")
              Log.init []) as [Hret _].
  destruct (use_terminator_restores carriage_return (Log.set_level "VERBOSE")
              Log.init []) as [_ Hraise].
  split.
  - apply (Hret tt (Log.mkLogger true 10 carriage_return [])
             [(20, "loading: |", carriage_return)]).
    reflexivity.
  - eexists. apply Hraise. reflexivity.
Defined.

(** X30. [warning_once] never raises and writes a message at most once.  After
    a call the message is in the cache, and from then on, for as long as the
    cache is kept, a call with that message writes nothing and changes
    nothing.  The cache is filled also when the logger was disabled: a
    warning first issued while disabled is never written, not even after
    the logger has been enabled again. *)
Theorem warning_once_at_most_once l out msg :
  ∃ l1 out1,
    Log.warning_once msg (l, out) = (inr tt, (l1, out1))
    ∧ msg ∈ Log.warned l1
    ∧ (out1 = out ∨ out1 = out ++ [(30, msg, Log.terminator l)])
    ∧ (Log._is_enable l = false → out1 = out)
    ∧ (∀ l2 out2, Log.warned l2 = Log.warned l1 →
         Log.warning_once msg (l2, out2) = (inr tt, (l2, out2))).
Proof.
  assert (Hcached : ∀ l2 out2, msg ∈ Log.warned l2 →
            Log.warning_once msg (l2, out2) = (inr tt, (l2, out2))).
  { intros l2 out2 Hin. unfold Log.warning_once.
    by rewrite bool_decide_eq_true_2. }
  destruct (decide (msg ∈ Log.warned l)) as [Hin|Hnin].
  - exists l, out. rewrite Hcached by done.
    repeat split; [done|by left|..].
    intros l2 out2 Heq. apply Hcached. by rewrite Heq.
  - unfold Log.warning_once at 1. rewrite bool_decide_eq_false_2 by done.
    unfold Log.warning, Log.call, Log.logging_log.
    destruct l as [en lv tm wd]. simpl in *.
    destruct en; simpl; [case_bool_decide|]; eexists _, _;
      (split; [reflexivity|]); simpl.
    all: split; [by left|].
    all: split; [by (left + right)|].
    all: split; [done|].
    all: intros l2 out2 Heq; apply Hcached; rewrite Heq; by left.
Qed.

End LoggerFacts.
